(** * databuilderframework-ts: dependency planning and execution strategies

    A shallow embedding of the engine's core
    ([DependencyGraph.ts], [ExecutionPlanner.ts], [ExecutionStrategy.ts],
    [ExecutionStatisticsCollector.ts], [DataSetImpl.ts], [BuilderRegistry.ts],
    [DataFlowEngine.ts]) and the properties of the graph, of the planner, of
    the registry, of the two execution strategies and of the engine's
    [executeWithOptions].

    Conventions.
    - A JavaScript [Map] or [Set] whose iteration order the code relies on is
      an insertion-ordered list; one that is only probed for membership is a
      [gset]; the dataset's [Map<string, Data>] is a [gmap].
    - A [DependencyNode] object is referred to by the key it is stored under in
      [DependencyGraph.nodes], which is always its own [meta.provides]
      ([addBuilder] is the only place that creates nodes).  A
      [Set<DependencyNode>] is therefore an insertion-ordered list of keys.
    - Recursive closures that mutate captured variables ([visit], [dfs],
      [checkDependencies]) thread those variables as explicit state and take a
      fuel argument; each entry point supplies fuel that is shown to suffice. *)

From stdpp Require Import gmap strings list sets relations pretty.
From Stdlib Require Import Reals Lra.

(** ** Generic loop combinators *)

(** [for (const x of l) { s = f(x, s) }] where the body may run out of fuel. *)
Fixpoint for_each {A S : Type} (f : A → S → option S) (l : list A) (s : S)
  : option S :=
  match l with
  | [] => Some s
  | x :: l' =>
      match f x s with
      | Some s' => for_each f l' s'
      | None => None
      end
  end.

(** [for (const x of l) { if (f(x)) return true; } return false], with state. *)
Fixpoint first_true {A S : Type} (f : A → S → option (bool * S)) (l : list A)
  (s : S) : option (bool * S) :=
  match l with
  | [] => Some (false, s)
  | x :: l' =>
      match f x s with
      | Some (true, s') => Some (true, s')
      | Some (false, s') => first_true f l' s'
      | None => None
      end
  end.

(** [Set.prototype.add] on an insertion-ordered set. *)
Definition set_add (x : string) (s : list string) : list string :=
  if decide (x ∈ s) then s else s ++ [x].

(** ** types/index.ts *)

Record DataBuilderMeta := {
  name : string;
  provides : string;
  consumes : list string;
}.

(** ** DependencyGraph.ts *)

Record DependencyNode := {
  meta : DataBuilderMeta;
  dependencies : list string;
  dependents : list string;
}.

Definition node_key (n : DependencyNode) : string := provides (meta n).

(** [nodes: Map<string, DependencyNode>], in insertion order. *)
Definition DependencyGraph := list DependencyNode.

(** [this.nodes.get(dataType)] *)
Fixpoint getNode (g : DependencyGraph) (dataType : string)
  : option DependencyNode :=
  match g with
  | [] => None
  | n :: g' => if decide (node_key n = dataType) then Some n else getNode g' dataType
  end.

(** [this.nodes.keys()] *)
Definition graph_keys (g : DependencyGraph) : list string := node_key <$> g.

(** Mutation of the node object stored under [k]. *)
Fixpoint update_node (k : string) (f : DependencyNode → DependencyNode)
  (g : DependencyGraph) : DependencyGraph :=
  match g with
  | [] => []
  | n :: g' => if decide (node_key n = k) then f n :: g' else n :: update_node k f g'
  end.

Definition new_node (m : DataBuilderMeta) : DependencyNode :=
  {| meta := m; dependencies := []; dependents := [] |}.

Definition addBuilder (m : DataBuilderMeta) (g : DependencyGraph) : DependencyGraph :=
  match getNode g (provides m) with
  | Some _ => g
  | None => g ++ [new_node m]
  end.

(** [node.addDependency(dependency)]: both sides of the edge are recorded. *)
Definition addDependency (node dependency : string) (g : DependencyGraph)
  : DependencyGraph :=
  let g1 :=
    update_node node
      (λ n, {| meta := meta n;
               dependencies := set_add dependency (dependencies n);
               dependents := dependents n |}) g in
  update_node dependency
    (λ n, {| meta := meta n;
             dependencies := dependencies n;
             dependents := set_add node (dependents n) |}) g1.

Definition clear_edges (g : DependencyGraph) : DependencyGraph :=
  (λ n, {| meta := meta n; dependencies := []; dependents := [] |}) <$> g.

(** Inner loop of [buildGraph] for one node. *)
Definition wire_node (g : DependencyGraph) (n : DependencyNode) : DependencyGraph :=
  foldl
    (λ acc consumedType,
       match getNode acc consumedType with
       | Some _ => addDependency (node_key n) consumedType acc
       | None => acc
       end)
    g (consumes (meta n)).

Definition buildGraph (g : DependencyGraph) : DependencyGraph :=
  let g0 := clear_edges g in
  foldl wire_node g0 g0.

(** [node.dependencies] of the node stored under [k]; no node, no edges. *)
Definition deps (g : DependencyGraph) (k : string) : list string :=
  match getNode g k with
  | Some n => dependencies n
  | None => []
  end.

(** The closure [visit] of [getExecutionOrder]; the state is
    [(visited, result)]. *)
Fixpoint visit (g : DependencyGraph) (fuel : nat) (node : string)
  (st : gset string * list string) : option (gset string * list string) :=
  match fuel with
  | 0 => None
  | S fuel' =>
      if decide (node ∈ st.1) then Some st
      else
        match for_each (visit g fuel') (deps g node) ({[node]} ∪ st.1, st.2) with
        | Some st' => Some (st'.1, st'.2 ++ [node])
        | None => None
        end
  end.

Definition visit_target (g : DependencyGraph) (fuel : nat) (targetType : string)
  (st : gset string * list string) : option (gset string * list string) :=
  match getNode g targetType with
  | Some _ => visit g fuel targetType st
  | None => Some st
  end.

Definition getExecutionOrder (g : DependencyGraph) (targetTypes : list string)
  : option (list string) :=
  snd <$> for_each (visit_target g (S (length g))) targetTypes (∅, []).

(** The variables [visited], [recursionStack] and [cycles] that the closure
    [dfs] of [detectCycles] captures. *)
Record CycleState := {
  cs_visited : gset string;
  cs_recursionStack : gset string;
  cs_cycles : list string;
}.

Definition cycle_message (path : list string) (nodeKey : string) : string :=
  "Cycle detected: " +:+ String.concat " -> " path +:+ " -> " +:+ nodeKey.

(** The closure [dfs] of [detectCycles]. *)
Fixpoint dfs (g : DependencyGraph) (fuel : nat) (path : list string)
  (nodeKey : string) (st : CycleState) : option (bool * CycleState) :=
  match fuel with
  | 0 => None
  | S fuel' =>
      if decide (nodeKey ∈ cs_recursionStack st) then
        Some (true, {| cs_visited := cs_visited st;
                       cs_recursionStack := cs_recursionStack st;
                       cs_cycles := cs_cycles st ++ [cycle_message path nodeKey] |})
      else if decide (nodeKey ∈ cs_visited st) then Some (false, st)
      else
        let st1 := {| cs_visited := {[nodeKey]} ∪ cs_visited st;
                      cs_recursionStack := {[nodeKey]} ∪ cs_recursionStack st;
                      cs_cycles := cs_cycles st |} in
        match first_true (dfs g fuel' (path ++ [nodeKey])) (deps g nodeKey) st1 with
        | Some (true, st2) => Some (true, st2)
        | Some (false, st2) =>
            Some (false, {| cs_visited := cs_visited st2;
                            cs_recursionStack := cs_recursionStack st2 ∖ {[nodeKey]};
                            cs_cycles := cs_cycles st2 |})
        | None => None
        end
  end.

Definition dfs_root (g : DependencyGraph) (fuel : nat) (nodeKey : string)
  (st : CycleState) : option CycleState :=
  if decide (nodeKey ∈ cs_visited st) then Some st
  else snd <$> dfs g fuel [] nodeKey st.

Definition detectCycles (g : DependencyGraph) : option (list string) :=
  cs_cycles <$>
    for_each (dfs_root g (S (length g))) (graph_keys g)
      {| cs_visited := ∅; cs_recursionStack := ∅; cs_cycles := [] |}.

(** The closure [checkDependencies] of [findMissingDependencies]; the state is
    [(visited, missing)]. *)
Fixpoint checkDependencies (g : DependencyGraph) (fuel : nat) (nodeKey : string)
  (st : gset string * list string) : option (gset string * list string) :=
  match fuel with
  | 0 => None
  | S fuel' =>
      if decide (nodeKey ∈ st.1) then Some st
      else
        match getNode g nodeKey with
        | None => Some ({[nodeKey]} ∪ st.1, set_add nodeKey st.2)
        | Some n =>
            for_each (checkDependencies g fuel') (consumes (meta n))
              ({[nodeKey]} ∪ st.1, st.2)
        end
  end.

Definition findMissingDependencies (g : DependencyGraph)
  (targetTypes : list string) : option (list string) :=
  snd <$> for_each (checkDependencies g (S (length g))) targetTypes (∅, []).

(** ** types/index.ts: data, datasets and builders *)

Record Data := {
  type : string;
  payload : string;
}.

(** The [Map<string, Data>] held by a [DataSetImpl]. *)
Abbreviation DataSetImpl := (gmap string Data).

(** A JavaScript [Error] object: its [name], its [message] and its [cause]
    property ([None] when the object has none, or has [undefined] there). *)
#[warnings="-register-all"] Inductive JsError := mkJsError {
  error_name : string;
  message : string;
  cause : option JsError;
}.

(** [new Error(msg)] *)
Definition Error (msg : string) : JsError :=
  {| error_name := "Error"; message := msg; cause := None |}.

(** What a builder throws or rejects with: an [Error], or any other value
    (kept as [String(value)]). *)
Inductive Thrown :=
  | ThrownError (e : JsError)
  | ThrownValue (s : string).

(** The promise that a call of [builder.build(dataSet)] returns, on a
    logical clock in milliseconds that starts when the call returns: the
    promise fulfils with a value ([None] is [null], [undefined] or any other
    falsy value), rejects, or stays pending for ever.  [elapsed = 0] is a
    promise that is settled when it is returned, or that settles without a
    timer or an I/O event: its reaction runs before any timer is served. *)
Inductive BuildPromise :=
  | Fulfils (elapsed : nat) (value : option Data)
  | RejectsWith (elapsed : nat) (error : Thrown)
  | NeverSettles.

(** One call of [builder.build(dataSet)]: the call keeps the thread for
    [busy] milliseconds and then returns a promise, or throws.  An [async]
    method never throws: whatever it throws before its first [await] rejects
    the promise it returns ([BuildReturns busy (RejectsWith 0 error)]). *)
Inductive BuildCall :=
  | BuildReturns (busy : nat) (promise : BuildPromise)
  | BuildThrows (busy : nat) (error : Thrown).

Record DataBuilder := {
  builder_name : string;           (* [builder.constructor.name] *)
  builder_provides : string;
  builder_consumes : list string;
  build : DataSetImpl → BuildCall;
}.

(** ** BuilderRegistry.ts *)

(** [builders: Map<string, DataBuilder>], keyed by [provides], in insertion
    order. *)
Definition BuilderRegistry := list DataBuilder.

Fixpoint registry_get (reg : BuilderRegistry) (dataType : string)
  : option DataBuilder :=
  match reg with
  | [] => None
  | b :: reg' =>
      if decide (builder_provides b = dataType) then Some b
      else registry_get reg' dataType
  end.

Definition getAllMetadata (reg : BuilderRegistry) : list DataBuilderMeta :=
  (λ b, {| name := builder_name b;
           provides := builder_provides b;
           consumes := builder_consumes b |}) <$> reg.

(** ** ExecutionPlanner.ts *)

Record ExecutionPlan := {
  executionOrder : list string;
  parallelExecutionLevels : list (list string);
  missingBuilders : list string;
  cycles : list string;
  isValid : bool;
  totalBuilders : nat;
  maxConcurrency : nat;
  dependencyGraph : DependencyGraph;
}.

Definition buildDependencyGraph (reg : BuilderRegistry) : DependencyGraph :=
  buildGraph (foldl (λ g m, addBuilder m g) [] (getAllMetadata reg)).

(** One pass of the [for] loop inside [calculateParallelLevels]. *)
Definition currentLevel (g : DependencyGraph) (executionOrder : list string)
  (processed : gset string) : list string :=
  filter (λ node, (node ∉ processed) ∧ Forall (λ dep, dep ∈ processed) (deps g node))
    executionOrder.

(** The [while (remaining.size > 0)] loop of [calculateParallelLevels]. *)
Fixpoint levels_loop (g : DependencyGraph) (executionOrder : list string)
  (fuel : nat) (levels : list (list string)) (processed remaining : gset string)
  {struct fuel} : option (list (list string)) :=
  if decide (size remaining = 0) then Some levels
  else
    match fuel with
    | 0 => None
    | S fuel' =>
        match currentLevel g executionOrder processed with
        | [] => Some levels
        | level =>
            levels_loop g executionOrder fuel' (levels ++ [level])
              (processed ∪ list_to_set level) (remaining ∖ list_to_set level)
        end
    end.

Definition calculateParallelLevels (g : DependencyGraph)
  (executionOrder : list string) : option (list (list string)) :=
  levels_loop g executionOrder (length executionOrder) [] ∅
    (list_to_set executionOrder).

Definition createExecutionPlan (reg : BuilderRegistry) (targetData : list string)
  : option ExecutionPlan :=
  let dependencyGraph := buildDependencyGraph reg in
  match detectCycles dependencyGraph,
        findMissingDependencies dependencyGraph targetData with
  | Some cycles, Some missingBuilders =>
      let isValid := bool_decide (length cycles = 0 ∧ length missingBuilders = 0) in
      if isValid then
        match getExecutionOrder dependencyGraph targetData with
        | Some nodes =>
            match calculateParallelLevels dependencyGraph nodes with
            | Some levels =>
                Some {| executionOrder := nodes;
                        parallelExecutionLevels := levels;
                        missingBuilders := missingBuilders;
                        cycles := cycles;
                        isValid := isValid;
                        totalBuilders := length nodes;
                        maxConcurrency :=
                          if decide (0 < length levels)
                          then max_list (length <$> levels) else 0;
                        dependencyGraph := dependencyGraph |}
            | None => None
            end
        | None => None
        end
      else
        Some {| executionOrder := [];
                parallelExecutionLevels := [];
                missingBuilders := missingBuilders;
                cycles := cycles;
                isValid := isValid;
                totalBuilders := 0;
                maxConcurrency := 0;
                dependencyGraph := dependencyGraph |}
  | _, _ => None
  end.

(** The numbers of the plan statistics are exact reals; [None] stands for a
    result that is not a finite number ([NaN], [Infinity]).  Rounding is not
    modelled. *)
Definition js_div (x y : R) : option R :=
  if Req_dec_T y 0 then None else Some (x / y)%R.

Record ExecutionPlanStats := {
  sequentialEstimate : nat;
  stats_parallelLevels : nat;
  averageConcurrency : option R;
  dependencyDepth : nat;
  complexityScore : option R;
}.

Definition calculateConcurrencyVariance (parallelLevels : list (list string))
  : option R :=
  if decide (length parallelLevels ≤ 1) then Some 0%R
  else
    let concurrencies := (λ level, INR (length level)) <$> parallelLevels in
    mean ← js_div (foldl (λ sum c, sum + c)%R 0%R concurrencies)
              (INR (length concurrencies));
    variance ← js_div (foldl (λ sum c, sum + (c - mean) ^ 2)%R 0%R concurrencies)
                  (INR (length concurrencies));
    js_div (sqrt variance) mean.

Definition getExecutionPlanStats (plan : ExecutionPlan) : ExecutionPlanStats :=
  if negb (isValid plan) then
    {| sequentialEstimate := 0; stats_parallelLevels := 0;
       averageConcurrency := Some 0%R; dependencyDepth := 0;
       complexityScore := Some 0%R |}
  else
    let parallelLevels := length (parallelExecutionLevels plan) in
    let totalBuilders := totalBuilders plan in
    let averageConcurrency :=
      if decide (0 < totalBuilders)
      then js_div (INR totalBuilders) (INR parallelLevels) else Some 0%R in
    let dependencyDepth := parallelLevels in
    let concurrencyVariance :=
      calculateConcurrencyVariance (parallelExecutionLevels plan) in
    let complexityScore :=
      (λ variance, INR totalBuilders * INR dependencyDepth * (1 + variance))%R
        <$> concurrencyVariance in
    {| sequentialEstimate := totalBuilders;
       stats_parallelLevels := parallelLevels;
       averageConcurrency := averageConcurrency;
       dependencyDepth := dependencyDepth;
       complexityScore := complexityScore |}.

(** [new ExecutionPlanningError(message)] and its two subclasses. *)
Definition ExecutionPlanningError (msg : string) : JsError :=
  {| error_name := "ExecutionPlanningError"; message := msg; cause := None |}.

Definition CircularDependencyError (cycles : list string) : JsError :=
  {| error_name := "CircularDependencyError";
     message := "Circular dependencies detected: " +:+ String.concat ", " cycles;
     cause := None |}.

Definition MissingBuilderError (missingTypes : list string) : JsError :=
  {| error_name := "MissingBuilderError";
     message := "Missing builders for data types: " +:+ String.concat ", " missingTypes;
     cause := None |}.

(** How a synchronous call ends. *)
Inductive Completion (A : Type) :=
  | Returns (a : A)
  | Throws (e : JsError).
Arguments Returns {A} a.
Arguments Throws {A} e.

(** [validateExecutionPlan(plan)], as a transition on the objects it can
    reach: the planner (its registry) and the plan. *)
Definition validateExecutionPlan (builderRegistry : BuilderRegistry)
  (plan : ExecutionPlan) : Completion unit * (BuilderRegistry * ExecutionPlan) :=
  if decide (0 < length (cycles plan)) then
    (Throws (CircularDependencyError (cycles plan)), (builderRegistry, plan))
  else if decide (0 < length (missingBuilders plan)) then
    (Throws (MissingBuilderError (missingBuilders plan)), (builderRegistry, plan))
  else
    (Returns (), (builderRegistry, plan)).

(** ** Builders of the test suite *)

Definition UserBuilder : DataBuilder :=
  {| builder_name := "UserBuilder"; builder_provides := "user";
     builder_consumes := [];
     build := λ _, BuildReturns 0 (Fulfils 10 (Some {| type := "user"; payload := "John Doe" |})) |}.

Definition ProfileBuilder : DataBuilder :=
  {| builder_name := "ProfileBuilder"; builder_provides := "profile";
     builder_consumes := ["user"];
     build := λ dataSet,
       BuildReturns 0
         match dataSet !! "user" with
         | Some user =>
             Fulfils 15 (Some {| type := "profile";
                                 payload := payload user +:+ " (Profile)" |})
         | None => RejectsWith 0 (ThrownError (Error "User data not found"))
         end |}.

Definition UserStatsBuilder : DataBuilder :=
  {| builder_name := "UserStatsBuilder"; builder_provides := "userStats";
     builder_consumes := ["user"];
     build := λ dataSet,
       BuildReturns 0
         match dataSet !! "user" with
         | Some user => Fulfils 20 (Some {| type := "userStats"; payload := "5" |})
         | None => RejectsWith 0 (ThrownError (Error "User data not found"))
         end |}.

Definition ReportBuilder : DataBuilder :=
  {| builder_name := "ReportBuilder"; builder_provides := "report";
     builder_consumes := ["profile"; "userStats"];
     build := λ dataSet,
       BuildReturns 0
         match dataSet !! "profile", dataSet !! "userStats" with
         | Some profile, Some stats =>
             Fulfils 25 (Some {| type := "report";
                                 payload := "Report for " +:+ payload profile |})
         | _, _ => RejectsWith 0 (ThrownError (Error "Required data not found"))
         end |}.

Definition FailingBuilder : DataBuilder :=
  {| builder_name := "FailingBuilder"; builder_provides := "failing";
     builder_consumes := [];
     build := λ _,
       BuildReturns 0
         (RejectsWith 0 (ThrownError (Error "Intentional failure for testing"))) |}.

Definition SlowBuilder : DataBuilder :=
  {| builder_name := "SlowBuilder"; builder_provides := "slow";
     builder_consumes := [];
     build := λ _,
       BuildReturns 0 (Fulfils 1000 (Some {| type := "slow"; payload := "" |})) |}.

(** A builder whose value claims another builder's type. *)
Definition ImpostorBuilder (claimed : string) : DataBuilder :=
  {| builder_name := "ImpostorBuilder"; builder_provides := "impostor";
     builder_consumes := [];
     build := λ _,
       BuildReturns 0
         (Fulfils 5 (Some {| type := claimed; payload := "Mallory" |})) |}.

(** The [ResourceIntensiveBuilder] of the performance tests: an [async]
    method that does all its work, [busy] milliseconds of it, before it
    returns. *)
Definition ResourceIntensiveBuilder (busy : nat) : DataBuilder :=
  {| builder_name := "ResourceIntensiveBuilder"; builder_provides := "resource0";
     builder_consumes := [];
     build := λ _,
       BuildReturns busy (Fulfils 0 (Some {| type := "resource0"; payload := "" |})) |}.

(** A builder whose [build] is not an [async] method and throws. *)
Definition ThrowingBuilder : DataBuilder :=
  {| builder_name := "ThrowingBuilder"; builder_provides := "throwing";
     builder_consumes := [];
     build := λ _, BuildThrows 0 (ThrownError (Error "Thrown inside the call")) |}.

(** A builder whose promise rejects after 5 ms. *)
Definition LateFailingBuilder : DataBuilder :=
  {| builder_name := "LateFailingBuilder"; builder_provides := "late";
     builder_consumes := [];
     build := λ _,
       BuildReturns 0 (RejectsWith 5 (ThrownError (Error "Failure after a while"))) |}.

(** A builder whose promise never settles. *)
Definition HangingBuilder : DataBuilder :=
  {| builder_name := "HangingBuilder"; builder_provides := "hanging";
     builder_consumes := [];
     build := λ _, BuildReturns 0 NeverSettles |}.

Definition existing_user : Data :=
  {| type := "user"; payload := "Existing User" |}.

Definition report_registry : BuilderRegistry :=
  [UserBuilder; ProfileBuilder; UserStatsBuilder; ReportBuilder].

(** A valid plan that was not made by the planner: one entry, no level, and
    a [totalBuilders] of 0. *)
Definition miscounted_plan : ExecutionPlan :=
  {| executionOrder := ["user"]; parallelExecutionLevels := [];
     missingBuilders := []; cycles := []; isValid := true;
     totalBuilders := 0; maxConcurrency := 0; dependencyGraph := [] |}.

(** A valid plan, not made by the planner either, whose only level is
    empty. *)
Definition hollow_plan : ExecutionPlan :=
  {| executionOrder := []; parallelExecutionLevels := [[]];
     missingBuilders := []; cycles := []; isValid := true;
     totalBuilders := 0; maxConcurrency := 0; dependencyGraph := [] |}.

(** ** Specification vocabulary *)

(** [edge g a b]: the node [a] has the node [b] among its [dependencies]. *)
Definition edge (g : DependencyGraph) (a b : string) : Prop := b ∈ deps g a.

(** No node reaches itself along one or more dependency edges. *)
Definition acyclic (g : DependencyGraph) : Prop := ∀ a, ¬ tc (edge g) a a.

(** Every dependency of the [i]-th entry sits at an index below [i]. *)
Definition dependency_respecting (g : DependencyGraph) (order : list string)
  : Prop :=
  ∀ i x d, order !! i = Some x → d ∈ deps g x →
    ∃ j, j < i ∧ order !! j = Some d.

(** Every dependency of a member of level [i] is a member of a level [j < i]. *)
Definition levels_ordered (g : DependencyGraph) (levels : list (list string))
  : Prop :=
  ∀ i level x d, levels !! i = Some level → x ∈ level → d ∈ deps g x →
    ∃ j level', j < i ∧ levels !! j = Some level' ∧ d ∈ level'.

Definition key_set (g : DependencyGraph) : gset string :=
  list_to_set (graph_keys g).

(** *** Invariants of the traversals *)

(** What [visit] relies on, on an acyclic graph.  [visited] holds the
    finished nodes ([result]) and the nodes whose visit is still in progress;
    none of the latter is reachable from the nodes about to be visited. *)
Definition visit_pre (g : DependencyGraph) (roots : list string)
  (st : gset string * list string) : Prop :=
  NoDup st.2 ∧
  (∀ x, x ∈ st.2 → x ∈ st.1) ∧
  dependency_respecting g st.2 ∧
  (∀ d m, d ∈ roots → rtc (edge g) d m → m ∈ st.1 → m ∈ st.2).

(** What one call of [visit] guarantees in return. *)
Definition visit_post (g : DependencyGraph) (node : string)
  (st st' : gset string * list string) : Prop :=
  ∃ new,
    st'.2 = st.2 ++ new ∧
    st'.1 = st.1 ∪ list_to_set new ∧
    (∀ x, x ∈ new → x ∉ st.1) ∧
    NoDup st'.2 ∧
    (∀ x, x ∈ st'.2 → x ∈ st'.1) ∧
    dependency_respecting g st'.2 ∧
    node ∈ st'.2.

(** [cycles.push] is the only update of [cycles]: reports are never removed. *)
Definition cycles_extend (st st' : CycleState) : Prop :=
  ∃ extra, cs_cycles st' = cs_cycles st ++ extra.

(** A node is finished when [dfs] has returned from it. *)
Definition finished (st : CycleState) (x : string) : Prop :=
  x ∈ cs_visited st ∧ x ∉ cs_recursionStack st.

(** As long as no cycle has been reported, the finished nodes are closed
    under dependencies and none of them lies on a cycle. *)
Definition dfs_inv (g : DependencyGraph) (st : CycleState) : Prop :=
  ∀ x, finished st x →
    (∀ d, edge g x d → finished st d) ∧ ¬ tc (edge g) x x.

Definition dfs_post (g : DependencyGraph) (st st' : CycleState) : Prop :=
  cs_recursionStack st' = cs_recursionStack st ∧
  cs_visited st ⊆ cs_visited st' ∧
  dfs_inv g st'.

(** Every dependency recorded in the graph is a node of the graph. *)
Definition graph_wf (g : DependencyGraph) : Prop :=
  ∀ k d, d ∈ deps g k → d ∈ graph_keys g.

(** The coefficient of variation of a sample: its (population) standard
    deviation divided by its mean; not defined for an empty sample or for a
    mean of zero. *)
Definition coefficient_of_variation (sample : list R) : option R :=
  mean ← js_div (foldl Rplus 0%R sample) (INR (length sample));
  variance ← js_div (foldl Rplus 0%R ((λ x, (x - mean) ^ 2)%R <$> sample))
                (INR (length sample));
  js_div (sqrt variance) mean.

Definition level_sizes (plan : ExecutionPlan) : list R :=
  (λ level, INR (length level)) <$> parallelExecutionLevels plan.

(** ** DependencyGraph.ts: the remaining operations *)

(** [node.dependents] of the node stored under [k]; no node, no edges. *)
Definition dependents_of (g : DependencyGraph) (k : string) : list string :=
  match getNode g k with
  | Some n => dependents n
  | None => []
  end.

(** [Set.prototype.delete] on an insertion-ordered set. *)
Definition set_delete (x : string) (s : list string) : list string :=
  filter (λ y, y ≠ x) s.

(** [node.removeDependency(dependency)]: both sides of the edge are removed. *)
Definition removeDependency (node dependency : string) (g : DependencyGraph)
  : DependencyGraph :=
  let g1 :=
    update_node node
      (λ n, {| meta := meta n;
               dependencies := set_delete dependency (dependencies n);
               dependents := dependents n |}) g in
  update_node dependency
    (λ n, {| meta := meta n;
             dependencies := dependencies n;
             dependents := set_delete node (dependents n) |}) g1.

(** [this.nodes.delete(dataType)] *)
Definition nodes_delete (dataType : string) (g : DependencyGraph)
  : bool * DependencyGraph :=
  (bool_decide (dataType ∈ graph_keys g),
   filter (λ n, node_key n ≠ dataType) g).

(** [removeBuilder(dataType)].  The first loop deletes from the set it
    iterates over, which a JavaScript [Set] iterator tolerates: every
    dependency the node had is visited.  The second loop runs over a copy of
    the dependents as they are after the first loop. *)
Definition removeBuilder (dataType : string) (g : DependencyGraph)
  : bool * DependencyGraph :=
  match getNode g dataType with
  | None => (false, g)
  | Some node =>
      let g1 :=
        foldl (λ acc dependency, removeDependency dataType dependency acc)
          g (dependencies node) in
      let dependents := dependents_of g1 dataType in
      let g2 :=
        foldl (λ acc dependent, removeDependency dependent dataType acc)
          g1 dependents in
      nodes_delete dataType g2
  end.

(** ** BuilderRegistry.ts: the remaining operations *)

(** [getMetadata(dataType)] *)
Definition getMetadata (reg : BuilderRegistry) (dataType : string)
  : option DataBuilderMeta :=
  match registry_get reg dataType with
  | None => None
  | Some builder =>
      Some {| name := builder_name builder;
              provides := builder_provides builder;
              consumes := builder_consumes builder |}
  end.

(** ** Vocabulary for the traversals of the graph *)

(** [consumes_edge g a b]: the builder of the node [a] consumes the type
    [b], whether or not [b] has a node. *)
Definition consumes_edge (g : DependencyGraph) (a b : string) : Prop :=
  ∃ n, getNode g a = Some n ∧ b ∈ consumes (meta n).

(** What [checkDependencies] keeps.  [R] holds of every visited type; the
    visited types outside [pending] (the calls still in progress) have all
    the types they consume visited; [missing] holds the visited types that
    have no node. *)
Definition check_inv (g : DependencyGraph) (R : string → Prop)
  (pending : gset string) (st : gset string * list string) : Prop :=
  NoDup st.2 ∧
  (∀ x, x ∈ st.2 ↔ x ∈ st.1 ∧ getNode g x = None) ∧
  (∀ x, x ∈ st.1 → R x) ∧
  (∀ a b, a ∈ st.1 → a ∉ pending → consumes_edge g a b → b ∈ st.1).

(** What [visit] keeps on any graph, cyclic or not.  [R] holds of every
    visited node; a visited node is either in [result] or one of the calls
    still in progress ([pending]), never both; the dependencies of a node in
    [result] are all visited. *)
Definition visit_inv (g : DependencyGraph) (R : string → Prop)
  (pending : gset string) (st : gset string * list string) : Prop :=
  NoDup st.2 ∧
  (∀ x, x ∈ st.2 → x ∈ st.1 ∧ x ∉ pending) ∧
  (∀ x, x ∈ st.1 → x ∈ pending ∨ x ∈ st.2) ∧
  (∀ x, x ∈ pending → x ∈ st.1) ∧
  (∀ x, x ∈ st.1 → R x) ∧
  (∀ a b, a ∈ st.2 → edge g a b → b ∈ st.1).

(** ** ExecutionPlanner.ts: dependency analysis *)

(** [Map.prototype.set] on an insertion-ordered map: the value of an existing
    key is replaced in place, a new key is appended. *)
Fixpoint map_set {V : Type} (k : string) (v : V) (m : list (string * V))
  : list (string * V) :=
  match m with
  | [] => [(k, v)]
  | (k', v') :: m' =>
      if decide (k' = k) then (k, v) :: m' else (k', v') :: map_set k v m'
  end.

(** [collectTransitiveDependencies(node, collected)]; the state is the set
    [collected]. *)
Fixpoint collectTransitiveDependencies (g : DependencyGraph) (fuel : nat)
  (node : string) (collected : list string) : option (list string) :=
  match fuel with
  | 0 => None
  | S fuel' =>
      for_each
        (λ dep collected,
           if decide (dep ∈ collected) then Some collected
           else collectTransitiveDependencies g fuel' dep (set_add dep collected))
        (deps g node) collected
  end.

Record DependencyAnalysis := {
  directDependencies : list (string * list string);
  transitiveDependencies : list (string * list string);
  dependencyTree : list (string * list string);
  leafNodes : list string;
  rootNodes : list string;
}.

(** The body of the loop of [analyzeDependencies] for one node. *)
Definition analyze_node (graph : DependencyGraph) (targetData : list string)
  (node : string) (acc : DependencyAnalysis) : option DependencyAnalysis :=
  let dataType := node in
  let directDeps := deps graph node in
  match collectTransitiveDependencies graph (S (length graph)) node [] with
  | None => None
  | Some allDeps =>
      Some {| directDependencies := map_set dataType directDeps (directDependencies acc);
              transitiveDependencies :=
                map_set dataType allDeps (transitiveDependencies acc);
              dependencyTree := map_set dataType allDeps (dependencyTree acc);
              leafNodes :=
                if decide (length (dependents_of graph node) = 0 ∧ dataType ∈ targetData)
                then leafNodes acc ++ [dataType] else leafNodes acc;
              rootNodes :=
                if decide (length (deps graph node) = 0)
                then rootNodes acc ++ [dataType] else rootNodes acc |}
  end.

Definition analyzeDependencies (reg : BuilderRegistry) (targetData : list string)
  : option DependencyAnalysis :=
  let graph := buildDependencyGraph reg in
  match getExecutionOrder graph targetData with
  | None => None
  | Some allNodes =>
      for_each (analyze_node graph targetData) allNodes
        {| directDependencies := []; transitiveDependencies := [];
           dependencyTree := []; leafNodes := []; rootNodes := [] |}
  end.

(** What [collectTransitiveDependencies] keeps: outside [pending] (the calls
    still in progress) the collected types have all their dependencies
    collected too. *)
Definition collected_closed (g : DependencyGraph) (pending : gset string)
  (collected : list string) : Prop :=
  ∀ a b, a ∈ collected → a ∉ pending → edge g a b → b ∈ collected.

(** ** BuilderRegistry.ts: registration and lookup *)

Definition DuplicateBuilderError (dataType : string) : JsError :=
  {| error_name := "DuplicateBuilderError";
     message := "Builder for data type '" +:+ dataType +:+ "' is already registered";
     cause := None |}.

(** [this.builders.has(dataType)] *)
Definition registry_has (reg : BuilderRegistry) (dataType : string) : bool :=
  bool_decide (is_Some (registry_get reg dataType)).

(** [this.builders.set(builder.provides, builder)]: the builder of an
    existing key is replaced in place, a new key is appended. *)
Fixpoint registry_set (builder : DataBuilder) (reg : BuilderRegistry)
  : BuilderRegistry :=
  match reg with
  | [] => [builder]
  | b :: reg' =>
      if decide (builder_provides b = builder_provides builder)
      then builder :: reg'
      else b :: registry_set builder reg'
  end.

Definition register (builder : DataBuilder) (allowOverwrite : bool)
  (reg : BuilderRegistry) : Completion unit * BuilderRegistry :=
  if registry_has reg (builder_provides builder) && negb allowOverwrite
  then (Throws (DuplicateBuilderError (builder_provides builder)), reg)
  else (Returns (), registry_set builder reg).

(** [unregister(dataType)]: [this.builders.delete(dataType)]. *)
Definition unregister (dataType : string) (reg : BuilderRegistry)
  : bool * BuilderRegistry :=
  (registry_has reg dataType,
   filter (λ b, builder_provides b ≠ dataType) reg).

(** [registerMany(builders, allowOverwrite)]: the loop ends at the first
    [register] that throws. *)
Fixpoint registerMany (builders : list DataBuilder) (allowOverwrite : bool)
  (reg : BuilderRegistry) : Completion unit * BuilderRegistry :=
  match builders with
  | [] => (Returns (), reg)
  | builder :: builders' =>
      match register builder allowOverwrite reg with
      | (Returns _, reg') => registerMany builders' allowOverwrite reg'
      | (Throws e, reg') => (Throws e, reg')
      end
  end.

Definition getProvidedTypes (reg : BuilderRegistry) : list string :=
  builder_provides <$> reg.

Definition getConsumedTypes (reg : BuilderRegistry) : list string :=
  foldl (λ consumedTypes builder,
           foldl (λ consumedTypes consumedType, set_add consumedType consumedTypes)
             consumedTypes (builder_consumes builder))
    [] reg.

Record BuilderAvailability := {
  availability_isValid : bool;
  availability_missingBuilders : list string;
  satisfiableTypes : list string;
}.

(** The closure [checkDependencies] of [checkBuilderAvailability]; the state
    is [(visited, missing, satisfiable)]. *)
Fixpoint registry_checkDependencies (reg : BuilderRegistry) (fuel : nat)
  (dataType : string) (st : gset string * list string * list string)
  : option (gset string * list string * list string) :=
  match fuel with
  | 0 => None
  | S fuel' =>
      if decide (dataType ∈ st.1.1) then Some st
      else
        match registry_get reg dataType with
        | None => Some ({[dataType]} ∪ st.1.1, set_add dataType st.1.2, st.2)
        | Some builder =>
            for_each (registry_checkDependencies reg fuel')
              (builder_consumes builder)
              ({[dataType]} ∪ st.1.1, st.1.2, set_add dataType st.2)
        end
  end.

Definition checkBuilderAvailability (reg : BuilderRegistry)
  (targetTypes : list string) : option BuilderAvailability :=
  match
    for_each (registry_checkDependencies reg (S (length reg))) targetTypes (∅, [], [])
  with
  | None => None
  | Some (visited, missing, satisfiable) =>
      Some {| availability_isValid := bool_decide (length missing = 0);
              availability_missingBuilders := missing;
              satisfiableTypes := satisfiable |}
  end.

(** ** DataFlowEngine.ts: [validateRegistry] *)

Record RegistryValidation := {
  validation_isValid : bool;
  validation_issues : list string;
  validation_warnings : list string;
}.

Definition validateRegistry (reg : BuilderRegistry) : RegistryValidation :=
  let providedTypes := getProvidedTypes reg in
  let consumedTypes := getConsumedTypes reg in
  let unsatisfiedDependencies := filter (λ type, type ∉ providedTypes) consumedTypes in
  let issues :=
    if decide (0 < length unsatisfiedDependencies)
    then ["Unsatisfied dependencies: " +:+ String.concat ", " unsatisfiedDependencies]
    else [] in
  let unusedBuilders := filter (λ type, type ∉ consumedTypes) providedTypes in
  let warnings :=
    if decide (0 < length unusedBuilders)
    then ["Potentially unused builders: " +:+ String.concat ", " unusedBuilders]
    else [] in
  {| validation_isValid := bool_decide (length issues = 0);
     validation_issues := issues;
     validation_warnings := warnings |}.

(** ** ExecutionStatisticsCollector.ts *)

Module ExecutionStats.
Record t := {
  buildersExecuted : nat;
  totalExecutionTime : nat;
  builderExecutionTimes : gmap string nat;
  skipCount : nat;
  parallelExecution : bool;
  parallelLevels : option nat;
  maxConcurrency : option nat;
}.
End ExecutionStats.

Record ExecutionStatisticsCollector := {
  startTime : nat;
  builderExecutionTimes : gmap string nat;
  buildersExecuted : nat;
  skipCount : nat;
  parallelExecution : bool;
  parallelLevels : option nat;
  collector_maxConcurrency : option nat;
}.

Definition reset (c : ExecutionStatisticsCollector) : ExecutionStatisticsCollector :=
  {| startTime := startTime c;
     builderExecutionTimes := ∅;
     buildersExecuted := 0;
     skipCount := 0;
     parallelExecution := false;
     parallelLevels := None;
     collector_maxConcurrency := None |}.

(** [startExecution()], with [now] the value of [Date.now()]. *)
Definition startExecution (now : nat) (c : ExecutionStatisticsCollector)
  : ExecutionStatisticsCollector :=
  reset {| startTime := now;
           builderExecutionTimes := builderExecutionTimes c;
           buildersExecuted := buildersExecuted c;
           skipCount := skipCount c;
           parallelExecution := parallelExecution c;
           parallelLevels := parallelLevels c;
           collector_maxConcurrency := collector_maxConcurrency c |}.

Definition stopExecution (now : nat) (c : ExecutionStatisticsCollector)
  : ExecutionStats.t :=
  {| ExecutionStats.buildersExecuted := buildersExecuted c;
     ExecutionStats.totalExecutionTime := now - startTime c;
     ExecutionStats.builderExecutionTimes := builderExecutionTimes c;
     ExecutionStats.skipCount := skipCount c;
     ExecutionStats.parallelExecution := parallelExecution c;
     ExecutionStats.parallelLevels := parallelLevels c;
     ExecutionStats.maxConcurrency := collector_maxConcurrency c |}.

Definition recordBuilderExecution (dataType : string) (executionTime : nat)
  (c : ExecutionStatisticsCollector) : ExecutionStatisticsCollector :=
  {| startTime := startTime c;
     builderExecutionTimes := <[dataType := executionTime]> (builderExecutionTimes c);
     buildersExecuted := S (buildersExecuted c);
     skipCount := skipCount c;
     parallelExecution := parallelExecution c;
     parallelLevels := parallelLevels c;
     collector_maxConcurrency := collector_maxConcurrency c |}.

Definition recordSkippedBuilder (c : ExecutionStatisticsCollector)
  : ExecutionStatisticsCollector :=
  {| startTime := startTime c;
     builderExecutionTimes := builderExecutionTimes c;
     buildersExecuted := buildersExecuted c;
     skipCount := S (skipCount c);
     parallelExecution := parallelExecution c;
     parallelLevels := parallelLevels c;
     collector_maxConcurrency := collector_maxConcurrency c |}.

Definition setParallelExecutionInfo (levels concurrency : nat)
  (c : ExecutionStatisticsCollector) : ExecutionStatisticsCollector :=
  {| startTime := startTime c;
     builderExecutionTimes := builderExecutionTimes c;
     buildersExecuted := buildersExecuted c;
     skipCount := skipCount c;
     parallelExecution := true;
     parallelLevels := Some levels;
     collector_maxConcurrency := Some concurrency |}.

Definition setSequentialExecution (c : ExecutionStatisticsCollector)
  : ExecutionStatisticsCollector :=
  {| startTime := startTime c;
     builderExecutionTimes := builderExecutionTimes c;
     buildersExecuted := buildersExecuted c;
     skipCount := skipCount c;
     parallelExecution := false;
     parallelLevels := None;
     collector_maxConcurrency := None |}.

(** ** ExecutionStrategy.ts *)

(** [new BuilderExecutionError(builderName, dataType, cause)].  Its
    constructor calls [super(message, cause)]: the error that was caught is
    passed where the [Error] constructor expects its options, so the new
    error gets as [cause] whatever the [cause] property of the caught error
    holds, and nothing when that error has none. *)
Definition BuilderExecutionError (builderName dataType : string) (caught : JsError)
  : JsError :=
  {| error_name := "BuilderExecutionError";
     message := "Builder '" +:+ builderName +:+ "' failed to build data type '"
                +:+ dataType +:+ "': " +:+ message caught;
     cause := cause caught |}.

Module ExecutionResult.
Record t := {
  dataSet : DataSetImpl;
  executionOrder : list string;
  stats : ExecutionStats.t;
}.
End ExecutionResult.

(** [continueOnError?: boolean] is only ever tested for truthiness, so
    [undefined] is [false].  [builderTimeout?: number] is a whole number of
    milliseconds, [maxConcurrency?: number] a count. *)
Record ExecutionOptions := {
  options_maxConcurrency : option nat;
  builderTimeout : option N;
  continueOnError : bool;
}.

(** [context.initialData]: a [DataSetImpl], or some other implementation of
    the [DataSet] interface (with the data its [accessor] would hand out). *)
Inductive DataSet :=
  | IsDataSetImpl (data : DataSetImpl)
  | OtherDataSet (data : gmap string Data).

(** The strategies read nothing else from the [ExecutionContext]. *)
Record ExecutionContext := {
  initialData : DataSet;
}.

Definition cloneDataSet (dataSet : DataSet) : DataSetImpl :=
  match dataSet with
  | IsDataSetImpl data => data
  | OtherDataSet _ => ∅
  end.

(** [resultDataSet.add(result)]: stored under the value's own [type]. *)
Definition add (data : Data) (dataSet : DataSetImpl) : DataSetImpl :=
  <[type data := data]> dataSet.

(** [if (result) { resultDataSet.add(result); }] *)
Definition add_result (result : option Data) (dataSet : DataSetImpl) : DataSetImpl :=
  match result with
  | Some data => add data dataSet
  | None => dataSet
  end.

(** [new Error(`Builder for ${dataType} timed out after ${timeoutMs}ms`)] *)
Definition timeout_error (dataType : string) (timeoutMs : N) : JsError :=
  Error ("Builder for " +:+ dataType +:+ " timed out after "
         +:+ pretty timeoutMs +:+ "ms").

(** The delay that [setTimeout(callback, timeoutMs)] really sets: a delay
    above [TIMEOUT_MAX] (or below 1) is replaced by 1. *)
Definition TIMEOUT_MAX : N := 2147483647.

Definition timer_delay (timeoutMs : N) : nat :=
  if decide (1 ≤ timeoutMs ≤ TIMEOUT_MAX)%N then N.to_nat timeoutMs else 1.

(** [Promise.race] of the build promise against the timer.  The timer is set
    when [withTimeout] is called, that is once [build] has returned the
    promise.  A promise that settles no later than the millisecond at which
    the timer fires wins the race; the build itself is not cancelled. *)
Definition withTimeout (promise : BuildPromise) (timeoutMs : N)
  (dataType : string) : BuildPromise :=
  let timedOut :=
    RejectsWith (timer_delay timeoutMs)
      (ThrownError (timeout_error dataType timeoutMs)) in
  match promise with
  | Fulfils elapsed _ | RejectsWith elapsed _ =>
      if decide (elapsed ≤ timer_delay timeoutMs) then promise else timedOut
  | NeverSettles => timedOut
  end.

(** [error instanceof Error ? error : new Error(String(error))] *)
Definition to_error (thrown : Thrown) : JsError :=
  match thrown with
  | ThrownError e => e
  | ThrownValue s => Error s
  end.

Record BuilderResult := {
  dataType : string;
  skipped : bool;
  result : option Data;
  executionTime : nat;
}.

(** When the promise of a step settles: inside the call of [executeBuilder],
    before its first [await], or [elapsed] milliseconds after [build] has
    returned the promise that the step awaits. *)
Inductive Instant :=
  | DuringCall
  | Awaited (elapsed : nat).

(** Everything one call of [executeBuilder] does, in the order of the code:
    - [StepSkipped]: the data is there; [recordSkippedBuilder] is called and
      the promise is resolved before the first [await];
    - [StepNoBuilder]: the registry has no builder; the promise is rejected
      before the first [await];
    - otherwise [builder.build] is called and keeps the thread for [busy]
      milliseconds.  If the call throws, the [catch] block runs at once.  If
      it returns a promise, the step awaits it (raced against the timer if
      there is one).  Either way a fulfilment records the execution and
      resolves with the value ([StepBuilt]), and a failure is warned about on
      the console and resolves with no result ([StepContinued]), or rejects
      ([StepFailed]);
    - [StepHung]: the awaited promise never settles. *)
Inductive Step :=
  | StepSkipped (r : BuilderResult)
  | StepNoBuilder (e : JsError)
  | StepBuilt (busy elapsed : nat) (value : option Data)
  | StepContinued (busy : nat) (settles : Instant) (warning : string * string)
      (r : BuilderResult)
  | StepFailed (busy : nat) (settles : Instant) (e : JsError)
  | StepHung (busy : nat).

(** [if (options.builderTimeout) { buildPromise = this.withTimeout(...) }] *)
Definition apply_timeout (options : ExecutionOptions) (dataType : string)
  (buildPromise : BuildPromise) : BuildPromise :=
  match builderTimeout options with
  | Some timeoutMs =>
      if decide (timeoutMs = 0%N) then buildPromise
      else withTimeout buildPromise timeoutMs dataType
  | None => buildPromise
  end.

(** The [catch] block of [executeBuilder]. *)
Definition build_failed (options : ExecutionOptions) (builder : DataBuilder)
  (dataType : string) (busy : nat) (settles : Instant) (thrown : Thrown) : Step :=
  let cause := to_error thrown in
  let builderName := builder_name builder in
  if continueOnError options then
    StepContinued busy settles
      ("Builder " +:+ builderName +:+ " failed for " +:+ dataType
       +:+ ", continuing execution:", message cause)
      {| dataType := dataType; skipped := false;
         result := None; executionTime := 0 |}
  else
    StepFailed busy settles (BuilderExecutionError builderName dataType cause).

Definition executeBuilder (reg : BuilderRegistry) (options : ExecutionOptions)
  (dataType : string) (resultDataSet : DataSetImpl) : Step :=
  match resultDataSet !! dataType with
  | Some _ =>
      StepSkipped {| dataType := dataType; skipped := true;
                     result := None; executionTime := 0 |}
  | None =>
      match registry_get reg dataType with
      | None => StepNoBuilder (Error ("No builder found for data type: " +:+ dataType))
      | Some builder =>
          match build builder resultDataSet with
          | BuildThrows busy thrown =>
              build_failed options builder dataType busy DuringCall thrown
          | BuildReturns busy buildPromise =>
              match apply_timeout options dataType buildPromise with
              | Fulfils elapsed value => StepBuilt busy elapsed value
              | RejectsWith elapsed thrown =>
                  build_failed options builder dataType busy (Awaited elapsed) thrown
              | NeverSettles => StepHung busy
              end
          end
      end
  end.

(** The [result] of the object that the promise of a step resolves with,
    which is all the strategies read of it.  A step that built its value
    resolves with [{ dataType, skipped: false, result, executionTime }]. *)
Definition step_value (step : Step) : option Data :=
  match step with
  | StepSkipped r | StepContinued _ _ _ r => result r
  | StepBuilt _ _ value => value
  | StepNoBuilder _ | StepFailed _ _ _ | StepHung _ => None
  end.

(** The time for which the call of [build] keeps the thread, and the time for
    which the step is awaited after [build] has returned. *)
Definition step_busy (step : Step) : nat :=
  match step with
  | StepBuilt busy _ _ | StepContinued busy _ _ _
  | StepFailed busy _ _ | StepHung busy => busy
  | StepSkipped _ | StepNoBuilder _ => 0
  end.

Definition step_elapsed (step : Step) : nat :=
  match step with
  | StepBuilt _ elapsed _ | StepContinued _ (Awaited elapsed) _ _
  | StepFailed _ (Awaited elapsed) _ => elapsed
  | _ => 0
  end.

(** What a run can touch besides its own dataset: the shared statistics
    collector, the console, the builders (the log of [build] calls, by data
    type) and the clock behind [Date.now()]. *)
Record World := {
  collector : ExecutionStatisticsCollector;
  console : list (string * string);
  invoked : list string;
  clock : nat;
}.

Definition with_collector (f : ExecutionStatisticsCollector → ExecutionStatisticsCollector)
  (w : World) : World :=
  {| collector := f (collector w); console := console w;
     invoked := invoked w; clock := clock w |}.

Definition tick (ms : nat) (w : World) : World :=
  {| collector := collector w; console := console w;
     invoked := invoked w; clock := clock w + ms |}.

(** [console.warn(...)] *)
Definition warn (warning : string * string) (w : World) : World :=
  {| collector := collector w; console := console w ++ [warning];
     invoked := invoked w; clock := clock w |}.

(** [builder.build(resultDataSet)] is called, and keeps the thread for
    [busy] milliseconds. *)
Definition call_build (dataType : string) (busy : nat) (w : World) : World :=
  {| collector := collector w; console := console w;
     invoked := invoked w ++ [dataType]; clock := clock w + busy |}.

(** The part of a step that runs inside the call, before its first [await]. *)
Definition step_call (dataType : string) (step : Step) (w : World) : World :=
  match step with
  | StepSkipped _ => with_collector recordSkippedBuilder w
  | StepNoBuilder _ => w
  | StepContinued busy DuringCall warning _ =>
      warn warning (call_build dataType busy w)
  | StepBuilt busy _ _ | StepContinued busy (Awaited _) _ _
  | StepFailed busy _ _ | StepHung busy =>
      call_build dataType busy w
  end.

(** The part of a step that runs when the awaited promise has settled;
    [builderStartTime] is what [Date.now()] returned before the call of
    [build], and the clock of [w] what it returns now. *)
Definition step_settle (dataType : string) (builderStartTime : nat) (step : Step)
  (w : World) : World :=
  match step with
  | StepBuilt _ _ _ =>
      with_collector
        (recordBuilderExecution dataType (clock w - builderStartTime)) w
  | StepContinued _ (Awaited _) warning _ => warn warning w
  | _ => w
  end.

(** How an awaited promise ends. *)
Inductive Settled (A : Type) :=
  | Resolved (a : A)
  | Rejected (e : JsError)
  | Pending.
Arguments Resolved {A} a.
Arguments Rejected {A} e.
Arguments Pending {A}.

(** [for (const x of l) { s = await f(x, s) }] *)
Fixpoint for_each_await {A S : Type} (f : A → S → Settled S) (l : list A) (s : S)
  : Settled S :=
  match l with
  | [] => Resolved s
  | x :: l' =>
      match f x s with
      | Resolved s' => for_each_await f l' s'
      | Rejected e => Rejected e
      | Pending => Pending
      end
  end.

(** One iteration of the loop of [SequentialExecutionStrategy.execute]. *)
Definition sequential_step (reg : BuilderRegistry) (options : ExecutionOptions)
  (dataType : string) (st : DataSetImpl * World) : Settled (DataSetImpl * World) :=
  let step := executeBuilder reg options dataType st.1 in
  let builderStartTime := clock st.2 in
  let w := step_call dataType step st.2 in
  match step with
  | StepNoBuilder e | StepFailed _ _ e => Rejected e
  | StepHung _ => Pending
  | StepSkipped _ | StepBuilt _ _ _ | StepContinued _ _ _ _ =>
      Resolved (add_result (step_value step) st.1,
                step_settle dataType builderStartTime step
                  (tick (step_elapsed step) w))
  end.

Definition finish (plan : ExecutionPlan) (run : Settled (DataSetImpl * World))
  : Settled (ExecutionResult.t * World) :=
  match run with
  | Resolved (resultDataSet, w) =>
      Resolved ({| ExecutionResult.dataSet := resultDataSet;
                   ExecutionResult.executionOrder := executionOrder plan;
                   ExecutionResult.stats := stopExecution (clock w) (collector w) |},
                w)
  | Rejected e => Rejected e
  | Pending => Pending
  end.

(** The working dataset and the world when the loop of
    [SequentialExecutionStrategy.execute] starts. *)
Definition sequential_start (context : ExecutionContext) (w : World)
  : DataSetImpl * World :=
  (cloneDataSet (initialData context),
   with_collector (λ c, setSequentialExecution (startExecution (clock w) c)) w).

(** [SequentialExecutionStrategy.execute] *)
Definition execute_sequential (reg : BuilderRegistry) (context : ExecutionContext)
  (plan : ExecutionPlan) (options : ExecutionOptions) (w : World)
  : Settled (ExecutionResult.t * World) :=
  finish plan
    (for_each_await (sequential_step reg options) (executionOrder plan)
       (sequential_start context w)).

(** A member of a batch whose [executeBuilder] has been called. *)
Record Started := {
  started_type : string;
  started_step : Step;
  builderStartTime : nat;
}.

(** [batch.map(dataType => this.executeBuilder(dataType, resultDataSet,
    options))]: the calls are made one after another, each on the dataset as
    it is when the batch starts; what they leave are the steps that were
    started and the world after the last call. *)
Fixpoint call_all (reg : BuilderRegistry) (options : ExecutionOptions)
  (resultDataSet : DataSetImpl) (batch : list string) (w : World)
  : list Started * World :=
  match batch with
  | [] => ([], w)
  | dataType :: batch' =>
      let step := executeBuilder reg options dataType resultDataSet in
      let rest := call_all reg options resultDataSet batch'
                    (step_call dataType step w) in
      ({| started_type := dataType; started_step := step;
          builderStartTime := clock w |} :: rest.1, rest.2)
  end.

(** The error of a step whose promise is rejected when [executeBuilder]
    returns it, and of one whose promise is rejected later. *)
Definition rejected_in_call (step : Step) : option JsError :=
  match step with
  | StepNoBuilder e | StepFailed _ DuringCall e => Some e
  | _ => None
  end.

Definition rejected_later (step : Step) : option JsError :=
  match step with
  | StepFailed _ (Awaited _) e => Some e
  | _ => None
  end.

(** The instant at which the reaction of an awaited step is due.  The
    reactions of promises that need no timer ([elapsed = 0]) are run as soon
    as the calls of the batch are over, before any timer is served. *)
Definition due (s : Started) : nat :=
  if decide (step_elapsed (started_step s) = 0) then 0
  else builderStartTime s + step_busy (started_step s)
       + step_elapsed (started_step s).

(** Stable insertion by due instant: reactions that are due at the same
    instant are run in the order of the batch. *)
Fixpoint insert_by_due (s : Started) (sorted : list Started) : list Started :=
  match sorted with
  | [] => [s]
  | s' :: sorted' =>
      if decide (due s' ≤ due s)
      then s' :: insert_by_due s sorted'
      else s :: sorted
  end.

Definition in_settling_order (started : list Started) : list Started :=
  foldl (λ sorted s, insert_by_due s sorted) [] started.

(** [Promise.all(promises)] rejects with the first rejection it gets to
    know.  The promises that are rejected already when it is called are the
    first it hears of, in the order of the batch; those of the awaited steps
    follow as their reactions are run. *)
Definition first_rejection (started : list Started) : option JsError :=
  match head (omap (λ s, rejected_in_call (started_step s)) started) with
  | Some e => Some e
  | None => head (omap (λ s, rejected_later (started_step s))
                    (in_settling_order started))
  end.

Definition is_hung (step : Step) : bool :=
  match step with StepHung _ => true | _ => false end.

(** The reaction of an awaited step is run: not before it is due, and not
    before the thread is free. *)
Definition serve (s : Started) (w : World) : World :=
  step_settle (started_type s) (builderStartTime s) (started_step s)
    (tick (due s - clock w) w).

(** [ParallelExecutionStrategy.executeBatch]: every member is started on the
    dataset as it is when the batch starts; [Promise.all] then waits for all
    of them (or for the first rejection), and the results are added in the
    order of the batch. *)
Definition executeBatch (reg : BuilderRegistry) (options : ExecutionOptions)
  (batch : list string) (st : DataSetImpl * World) : Settled (DataSetImpl * World) :=
  let called := call_all reg options st.1 batch st.2 in
  match first_rejection called.1 with
  | Some e => Rejected e
  | None =>
      if existsb (λ s, is_hung (started_step s)) called.1 then Pending
      else
        Resolved (foldl (λ dataSet s, add_result (step_value (started_step s)) dataSet)
                    st.1 called.1,
                  foldl (λ w s, serve s w) called.2 (in_settling_order called.1))
  end.

(** [level.slice(i, i + maxConcurrency)] for [i = 0, maxConcurrency, ...] *)
Fixpoint batches (fuel size : nat) (level : list string) : list (list string) :=
  match fuel, level with
  | S fuel', _ :: _ => take size level :: batches fuel' size (drop size level)
  | _, _ => []
  end.

(** The batches [executeLevel] runs one after another
    ([options.maxConcurrency || level.length]). *)
Definition level_batches (options : ExecutionOptions) (level : list string)
  : list (list string) :=
  let maxConcurrency :=
    match options_maxConcurrency options with
    | Some (S n) => S n
    | Some 0 | None => length level
    end in
  if decide (length level ≤ maxConcurrency) then [level]
  else batches (length level) maxConcurrency level.

Definition executeLevel (reg : BuilderRegistry) (options : ExecutionOptions)
  (level : list string) (st : DataSetImpl * World) : Settled (DataSetImpl * World) :=
  for_each_await (executeBatch reg options) (level_batches options level) st.

(** The working dataset and the world when the loop of
    [ParallelExecutionStrategy.execute] starts. *)
Definition parallel_start (context : ExecutionContext) (plan : ExecutionPlan)
  (w : World) : DataSetImpl * World :=
  (cloneDataSet (initialData context),
   with_collector
     (λ c, setParallelExecutionInfo (length (parallelExecutionLevels plan))
             (maxConcurrency plan) (startExecution (clock w) c)) w).

(** [ParallelExecutionStrategy.execute] *)
Definition execute_parallel (reg : BuilderRegistry) (context : ExecutionContext)
  (plan : ExecutionPlan) (options : ExecutionOptions) (w : World)
  : Settled (ExecutionResult.t * World) :=
  finish plan
    (for_each_await (executeLevel reg options) (parallelExecutionLevels plan)
       (parallel_start context plan w)).

Definition fresh_world : World :=
  {| collector := {| startTime := 0; builderExecutionTimes := ∅;
                     buildersExecuted := 0; skipCount := 0;
                     parallelExecution := false; parallelLevels := None;
                     collector_maxConcurrency := None |};
     console := []; invoked := []; clock := 0 |}.

Definition default_options : ExecutionOptions :=
  {| options_maxConcurrency := None; builderTimeout := None;
     continueOnError := false |}.

Definition continue_options : ExecutionOptions :=
  {| options_maxConcurrency := None; builderTimeout := None;
     continueOnError := true |}.

Definition timeout_options : ExecutionOptions :=
  {| options_maxConcurrency := None; builderTimeout := Some 100%N;
     continueOnError := false |}.

Definition empty_context : ExecutionContext :=
  {| initialData := IsDataSetImpl ∅ |}.

Definition seeded_context : ExecutionContext :=
  {| initialData := IsDataSetImpl {[ "user" := existing_user ]} |}.

(** A plan that names a type the registry [[UserBuilder]] has no builder
    for. *)
Definition unregistered_plan : ExecutionPlan :=
  {| executionOrder := ["user"; "report"];
     parallelExecutionLevels := [["user"; "report"]];
     missingBuilders := []; cycles := []; isValid := true;
     totalBuilders := 2; maxConcurrency := 2;
     dependencyGraph := [] |}.

(** A plan that a caller of [execute] puts together by hand: the types of
    [level], run in that order by the sequential strategy and as one level
    by the parallel one. *)
Definition one_level_plan (level : list string) : ExecutionPlan :=
  {| executionOrder := level;
     parallelExecutionLevels := [level];
     missingBuilders := []; cycles := []; isValid := true;
     totalBuilders := length level; maxConcurrency := length level;
     dependencyGraph := [] |}.

(** *** Vocabulary for the execution strategies *)

(** Every value a builder of the registry returns carries the type the
    builder provides. *)
Definition honest_registry (reg : BuilderRegistry) : Prop :=
  ∀ dataType builder dataSet busy elapsed data,
    registry_get reg dataType = Some builder →
    build builder dataSet = BuildReturns busy (Fulfils elapsed (Some data)) →
    type data = dataType.

(** Every awaited build promise settles, by itself or through the timer. *)
Definition settling_registry (reg : BuilderRegistry) (options : ExecutionOptions)
  : Prop :=
  ∀ dataType builder dataSet busy promise,
    registry_get reg dataType = Some builder →
    build builder dataSet = BuildReturns busy promise →
    apply_timeout options dataType promise ≠ NeverSettles.

(** [dataSet'] extends [dataSet], and differs from it on [keys] only. *)
Definition only_adds (keys : list string) (dataSet dataSet' : DataSetImpl) : Prop :=
  dataSet ⊆ dataSet' ∧ ∀ k, k ∉ keys → dataSet' !! k = dataSet !! k.

(** The batches of a parallel run, in the order in which they are run. *)
Definition plan_batches (options : ExecutionOptions) (plan : ExecutionPlan)
  : list (list string) :=
  concat (level_batches options <$> parallelExecutionLevels plan).

(** The members of a batch whose step on [dataSet] hands over a value. *)
Definition batch_writes (reg : BuilderRegistry) (options : ExecutionOptions)
  (dataSet : DataSetImpl) (batch : list string) : list string :=
  filter (λ dataType,
            is_Some (step_value (executeBuilder reg options dataType dataSet)))
    batch.

(** The sequential run gets as far as the step of [dataType], which then
    starts in the state [st]. *)
Definition sequential_reaches (reg : BuilderRegistry) (options : ExecutionOptions)
  (context : ExecutionContext) (plan : ExecutionPlan) (w : World)
  (dataType : string) (st : DataSetImpl * World) : Prop :=
  ∃ pre post,
    executionOrder plan = pre ++ dataType :: post ∧
    for_each_await (sequential_step reg options) pre (sequential_start context w)
      = Resolved st.

(** The parallel run gets as far as [batch], which then starts in the state
    [st]. *)
Definition parallel_reaches (reg : BuilderRegistry) (options : ExecutionOptions)
  (context : ExecutionContext) (plan : ExecutionPlan) (w : World)
  (batch : list string) (st : DataSetImpl * World) : Prop :=
  ∃ pre post,
    plan_batches options plan = pre ++ batch :: post ∧
    for_each_await (executeBatch reg options) pre (parallel_start context plan w)
      = Resolved st.

(** The promise settles no later than the timer of [ms] milliseconds. *)
Definition settles_within (promise : BuildPromise) (ms : nat) : Prop :=
  match promise with
  | Fulfils elapsed _ | RejectsWith elapsed _ => elapsed ≤ ms
  | NeverSettles => False
  end.

(** The call of [build] fails with [thrown]: the call throws it, or the
    promise that the call returns rejects with it, by itself or through the
    timer. *)
Definition build_throws (options : ExecutionOptions) (dataType : string)
  (call : BuildCall) (thrown : Thrown) : Prop :=
  match call with
  | BuildThrows _ error => error = thrown
  | BuildReturns _ promise =>
      ∃ elapsed, apply_timeout options dataType promise = RejectsWith elapsed thrown
  end.

(** The error of a step whose promise is rejected, whenever that is. *)
Definition rejection (step : Step) : option JsError :=
  match step with
  | StepNoBuilder e | StepFailed _ _ e => Some e
  | _ => None
  end.

(** ** Vocabulary for the runs *)

(** Every build that fulfils hands over a value ([null] and [undefined] are
    not values). *)
Definition productive_registry (reg : BuilderRegistry) : Prop :=
  ∀ dataType builder dataSet busy elapsed value,
    registry_get reg dataType = Some builder →
    build builder dataSet = BuildReturns busy (Fulfils elapsed value) →
    is_Some value.

(** The steps a world has accounted for since the collector was reset:
    builds recorded, skips recorded, and failures warned about. *)
Definition accounted (w : World) : nat :=
  buildersExecuted (collector w) + skipCount (collector w) + length (console w).

(** The settings of the collector that no step touches. *)
Definition collector_settings (c : ExecutionStatisticsCollector)
  : nat * bool * option nat * option nat :=
  (startTime c, parallelExecution c, parallelLevels c, collector_maxConcurrency c).

(** A step that is counted when it is called, and one that is counted when
    its promise settles. *)
Definition counted_at_call (step : Step) : nat :=
  match step with
  | StepSkipped _ | StepContinued _ DuringCall _ _ => 1
  | _ => 0
  end.

Definition counted_at_settle (step : Step) : nat :=
  match step with
  | StepBuilt _ _ _ | StepContinued _ (Awaited _) _ _ => 1
  | _ => 0
  end.

(** The warning of a step that is written when it is called, and of one that
    is written when its promise settles. *)
Definition warnings_at_call (step : Step) : list (string * string) :=
  match step with StepContinued _ DuringCall warning _ => [warning] | _ => [] end.

Definition warnings_at_settle (step : Step) : list (string * string) :=
  match step with StepContinued _ (Awaited _) warning _ => [warning] | _ => [] end.

(** ** DataFlowEngine.ts *)

(** [new DataFlowExecutionError(message, cause)]: the cause is stored. *)
Definition DataFlowExecutionError (msg : string) (caught : JsError) : JsError :=
  {| error_name := "DataFlowExecutionError"; message := msg;
     cause := Some caught |}.

Inductive ExecutionMode :=
  | SEQUENTIAL
  | PARALLEL.

(** [DataFlowExecutionOptions extends ExecutionOptions] by [mode?]. *)
Record DataFlowExecutionOptions := {
  mode : option ExecutionMode;
  strategy_options : ExecutionOptions;
}.

(** [context.dataFlow], the part of the context that only the engine reads. *)
Record DataFlow := {
  flow_name : string;
  targetData : list string;
}.

(** [dataSet.contains(dataType)], through the [DataSet] interface. *)
Definition contains (dataSet : DataSet) (dataType : string) : bool :=
  match dataSet with
  | IsDataSetImpl data | OtherDataSet data => bool_decide (is_Some (data !! dataType))
  end.

(** The closure [addDependencies] of [executeWithOptions]; the state is
    [(visited, needed)]. *)
Fixpoint addDependencies (reg : BuilderRegistry) (initialData : DataSet)
  (availableBuilders : gset string) (fuel : nat) (dataType : string)
  (st : gset string * list string) : option (gset string * list string) :=
  match fuel with
  | 0 => None
  | S fuel' =>
      if decide (dataType ∈ st.1) then Some st
      else
        let st1 := ({[dataType]} ∪ st.1, st.2) in
        if decide (dataType ∈ availableBuilders) then
          match registry_get reg dataType with
          | Some builder =>
              match
                for_each
                  (λ dep st,
                     if contains initialData dep then Some st
                     else addDependencies reg initialData availableBuilders fuel' dep st)
                  (builder_consumes builder) st1
              with
              | Some st2 => Some (st2.1, set_add dataType st2.2)
              | None => None
              end
          | None => Some st1
          end
        else Some st1
  end.

(** The execution order that [executeWithOptions] builds itself when the
    planner's plan is invalid only for missing builders that the initial data
    make up for. *)
Definition forced_order (reg : BuilderRegistry) (initialData : DataSet)
  (targetData : list string) : option (list string) :=
  let availableBuilders : gset string :=
    list_to_set (provides <$> getAllMetadata reg) in
  snd <$>
    for_each (addDependencies reg initialData availableBuilders (S (length reg)))
      targetData (∅, []).

(** The [catch] block of [executeWithOptions]: the three error classes it
    names are passed on, anything else is wrapped.  The errors that reach it
    are built by [validateExecutionPlan] and by the strategies, so the class
    of each is the one its [name] says. *)
Definition rethrow {A : Type} (run : Settled A) : Settled A :=
  match run with
  | Rejected error =>
      if bool_decide (error_name error ∈
           ["CircularDependencyError"; "MissingBuilderError"; "BuilderExecutionError"])
      then Rejected error
      else Rejected (DataFlowExecutionError
                       ("Unexpected error during execution: " +:+ message error)
                       error)
  | _ => run
  end.

(** [plan.missingBuilders.filter(type => !context.initialData.contains(type))] *)
Definition unsatisfiedMissing (context : ExecutionContext) (plan : ExecutionPlan)
  : list string :=
  filter (λ type, contains (initialData context) type = false) (missingBuilders plan).

(** The plan that [executeWithOptions] validates and executes. *)
Definition modifiedPlan (context : ExecutionContext) (plan : ExecutionPlan)
  (executionOrder : list string) : ExecutionPlan :=
  {| executionOrder := executionOrder;
     parallelExecutionLevels := parallelExecutionLevels plan;
     missingBuilders := unsatisfiedMissing context plan;
     cycles := cycles plan;
     isValid := bool_decide (length (cycles plan) = 0 ∧
                             length (unsatisfiedMissing context plan) = 0);
     totalBuilders := totalBuilders plan;
     maxConcurrency := maxConcurrency plan;
     dependencyGraph := dependencyGraph plan |}.

(** [strategy.execute(context, plan, options)] for the strategy that
    [ExecutionStrategyFactory.createStrategy] returns. *)
Definition strategy_execute (strategyName : ExecutionMode) (reg : BuilderRegistry)
  (context : ExecutionContext) (plan : ExecutionPlan) (options : ExecutionOptions)
  (w : World) : Settled (ExecutionResult.t * World) :=
  match strategyName with
  | SEQUENTIAL => execute_sequential reg context plan options w
  | PARALLEL => execute_parallel reg context plan options w
  end.

Definition executeWithOptions (reg : BuilderRegistry) (dataFlow : DataFlow)
  (context : ExecutionContext) (options : DataFlowExecutionOptions) (w : World)
  : option (Settled (ExecutionResult.t * World)) :=
  match createExecutionPlan reg (targetData dataFlow) with
  | None => None
  | Some plan =>
      let executionOrder :=
        if negb (isValid plan)
           && bool_decide (length (cycles plan) = 0)
           && bool_decide (length (unsatisfiedMissing context plan) = 0)
        then forced_order reg (initialData context) (targetData dataFlow)
        else Some (executionOrder plan) in
      match executionOrder with
      | None => None
      | Some executionOrder =>
          let modifiedPlan := modifiedPlan context plan executionOrder in
          Some (rethrow
                  match (validateExecutionPlan reg modifiedPlan).1 with
                  | Throws error => Rejected error
                  | Returns _ =>
                      let strategyName := default SEQUENTIAL (mode options) in
                      strategy_execute strategyName reg context modifiedPlan
                        (strategy_options options) w
                  end)
      end
  end.

(** [executeSimpleWithOptions(targetData, initialData, options)] *)
Definition executeSimpleWithOptions (reg : BuilderRegistry)
  (targetData : list string) (initialData : option DataSet)
  (options : DataFlowExecutionOptions) (w : World)
  : option (Settled (ExecutionResult.t * World)) :=
  executeWithOptions reg
    {| flow_name := "simple-flow-with-options"; targetData := targetData |}
    {| initialData := default (IsDataSetImpl ∅) initialData |}
    options w.

(** What [addDependencies] keeps.  [needed] holds, without duplicates, visited
    types that have a builder; a visited type that has a builder is in
    [needed] or is one of the calls still in progress ([pending]), never
    both; [R] holds of every visited type; and whatever the builder of a type
    in [needed] consumes is visited or held by the initial data. *)
Definition forced_inv (reg : BuilderRegistry) (initialData : DataSet)
  (R : string → Prop) (pending : gset string) (st : gset string * list string)
  : Prop :=
  NoDup st.2 ∧
  (∀ x, x ∈ st.2 → x ∈ st.1 ∧ is_Some (registry_get reg x) ∧ x ∉ pending) ∧
  (∀ x, x ∈ st.1 → is_Some (registry_get reg x) → x ∈ pending ∨ x ∈ st.2) ∧
  (∀ x, x ∈ pending → x ∈ st.1) ∧
  (∀ x, x ∈ st.1 → R x) ∧
  (∀ x b c, x ∈ st.2 → registry_get reg x = Some b → c ∈ builder_consumes b →
     contains initialData c = false → c ∈ st.1).

(** [needs reg initialData a c]: the builder of [a] consumes [c], and the
    initial data do not hold [c]. *)
Definition needs (reg : BuilderRegistry) (initialData : DataSet) (a c : string)
  : Prop :=
  ∃ b, registry_get reg a = Some b ∧ c ∈ builder_consumes b ∧
       contains initialData c = false.

(** * Properties *)

(** ** Loops *)

Section loops.
Context {A S : Type}.

Lemma for_each_app (f : A → S → option S) l1 l2 s :
  for_each f (l1 ++ l2) s = for_each f l1 s ≫= for_each f l2.
Proof.
  revert s. induction l1 as [|x l1 IH]; intros s; simpl; [done|].
  destruct (f x s); simpl; auto.
Qed.

(** An invariant that every iteration preserves holds when the loop ends. *)
Lemma for_each_inv (P : S → Prop) (f : A → S → option S) l s s' :
  (∀ x t t', x ∈ l → P t → f x t = Some t' → P t') →
  P s → for_each f l s = Some s' → P s'.
Proof.
  revert s. induction l as [|x l IH]; intros s Hstep Hs Hrun; simpl in *.
  - by simplify_eq.
  - destruct (f x s) as [t|] eqn:Hf; [|done].
    apply (IH t); [|by eapply Hstep; [left| |]|done].
    intros y u u' Hy. apply Hstep. by right.
Qed.

(** A loop whose body never fails under an invariant never fails. *)
Lemma for_each_is_Some (P : S → Prop) (f : A → S → option S) l s :
  (∀ x t, x ∈ l → P t → ∃ t', f x t = Some t' ∧ P t') →
  P s → ∃ s', for_each f l s = Some s' ∧ P s'.
Proof.
  revert s. induction l as [|x l IH]; intros s Hstep Hs; simpl.
  - eauto.
  - destruct (Hstep x s) as (t & -> & Ht); [by left|done|].
    apply IH; [|done]. intros y u Hy. apply Hstep. by right.
Qed.

(** A preorder on states that every iteration respects relates the state
    before the loop to the state after it. *)
Lemma for_each_preorder (R : relation S) `{!PreOrder R}
    (f : A → S → option S) l s s' :
  (∀ x t t', x ∈ l → f x t = Some t' → R t t') →
  for_each f l s = Some s' → R s s'.
Proof.
  intros Hstep. apply (for_each_inv (R s)); [|done].
  intros x t t' Hx Ht Hf. etrans; [done|]. by eapply Hstep.
Qed.
End loops.


Lemma getNode_Some_key g k n : getNode g k = Some n → node_key n = k.
Proof.
  induction g as [|m g IH]; simpl; [done|].
  case_decide; naive_solver.
Qed.

Lemma getNode_is_Some g k : is_Some (getNode g k) ↔ k ∈ graph_keys g.
Proof.
  unfold graph_keys. induction g as [|m g IH]; simpl.
  - rewrite elem_of_nil. split; [by intros [? ?]|done].
  - rewrite elem_of_cons. case_decide as Hk.
    + split; [by left|eauto].
    + rewrite IH. split; [by right|]. by intros [?|?].
Qed.

Lemma deps_no_node g k : k ∉ graph_keys g → deps g k = [].
Proof.
  intros Hk. unfold deps. destruct (getNode g k) eqn:E; [|done].
  destruct Hk. apply getNode_is_Some. eauto.
Qed.

Lemma size_list_to_set_le (l : list string) :
  size (list_to_set l : gset string) ≤ length l.
Proof.
  induction l as [|x l IH].
  - by rewrite list_to_set_nil, size_empty.
  - rewrite list_to_set_cons, size_union_alt, size_singleton. simpl.
    assert (size (list_to_set l ∖ {[x]} : gset string) ≤ size (list_to_set l : gset string))
      by (apply subseteq_size; set_solver).
    lia.
Qed.

Lemma size_key_set g : size (key_set g) ≤ length g.
Proof.
  unfold key_set, graph_keys. etrans; [apply size_list_to_set_le|].
  by rewrite length_fmap.
Qed.

(** Marking an unmarked node of the graph shrinks the unmarked part. *)
Lemma size_unmarked_lt (K V : gset string) k :
  k ∈ K → k ∉ V → size (K ∖ ({[k]} ∪ V)) < size (K ∖ V).
Proof.
  intros HK HV. apply subset_size. set_solver.
Qed.

Lemma size_unmarked_mono (K V V' : gset string) :
  V ⊆ V' → size (K ∖ V') ≤ size (K ∖ V).
Proof. intros HV. apply subseteq_size. set_solver. Qed.

(** ** [getExecutionOrder]: termination *)

Section visit_terminates.
Variable g : DependencyGraph.

(** [visit] only ever adds to [visited], and it returns as soon as the fuel
    exceeds the number of graph nodes that are not yet visited. *)
Lemma visit_is_Some fuel node (st : gset string * list string) :
  size (key_set g ∖ st.1) < fuel →
  ∃ st', visit g fuel node st = Some st' ∧ st.1 ⊆ st'.1.
Proof.
  revert node st. induction fuel as [|fuel IH]; intros node st Hfuel; [lia|].
  simpl. case_decide as Hvis; [by eauto|].
  destruct (decide (node ∈ graph_keys g)) as [Hin|Hout].
  - destruct (for_each_is_Some
      (λ t : gset string * list string, {[node]} ∪ st.1 ⊆ t.1)
      (visit g fuel) (deps g node) ({[node]} ∪ st.1, st.2))
      as (st' & -> & Hst'); [|done|].
    + intros d t _ Ht. destruct (IH d t) as (t' & Ht' & Hsub).
      * eapply Nat.le_lt_trans; [by apply size_unmarked_mono|].
        pose proof (size_unmarked_lt (key_set g) st.1 node) as Hlt.
        unfold key_set in Hlt at 1. rewrite elem_of_list_to_set in Hlt.
        specialize (Hlt Hin Hvis). lia.
      * exists t'. split; [done|]. set_solver.
    + eexists; split; [done|]. simpl in *. set_solver.
  - rewrite deps_no_node by done. simpl. eexists; split; [done|].
    simpl. set_solver.
Qed.

Lemma visit_target_is_Some fuel target (st : gset string * list string) :
  size (key_set g) < fuel → is_Some (visit_target g fuel target st).
Proof.
  intros Hfuel. unfold visit_target. destruct (getNode g target); [|done].
  destruct (visit_is_Some fuel target st) as (st' & -> & _); [|done].
  eapply Nat.le_lt_trans; [|done]. apply subseteq_size. set_solver.
Qed.

(** [getExecutionOrder] returns for every graph, cyclic or not. *)
Lemma getExecutionOrder_is_Some targets :
  is_Some (getExecutionOrder g targets).
Proof.
  unfold getExecutionOrder.
  destruct (for_each_is_Some (λ _, True) (visit_target g (S (length g)))
              targets (∅, [])) as (st & -> & _); [|done|done].
  intros t st _ _.
  destruct (visit_target_is_Some (S (length g)) t st) as [st' Hst'];
    [|by eauto].
  pose proof (size_key_set g). lia.
Qed.
End visit_terminates.

(** ** [getExecutionOrder]: the order respects the dependencies *)

Lemma dependency_respecting_snoc g order node :
  dependency_respecting g order →
  (∀ d, d ∈ deps g node → d ∈ order) →
  dependency_respecting g (order ++ [node]).
Proof.
  intros Hord Hdeps i x d Hi Hd.
  destruct (decide (i < length order)) as [Hlt|Hge].
  - rewrite lookup_app_l in Hi by done.
    destruct (Hord i x d Hi Hd) as (j & Hj & Hjd).
    exists j. split; [done|]. rewrite lookup_app_l; [done|lia].
  - rewrite lookup_app_r in Hi by lia.
    apply list_lookup_singleton_Some in Hi as [Hi <-].
    apply Hdeps, list_elem_of_lookup in Hd as [j Hj].
    exists j. pose proof (lookup_lt_Some _ _ _ Hj).
    split; [lia|]. by rewrite lookup_app_l.
Qed.

Lemma dependency_respecting_app g order new :
  dependency_respecting g (order ++ new) → dependency_respecting g order.
Proof.
  intros Hord i x d Hi Hd.
  pose proof (lookup_lt_Some _ _ _ Hi).
  destruct (Hord i x d) as (j & Hj & Hjd); [by rewrite lookup_app_l|done|].
  exists j. split; [done|]. rewrite lookup_app_l in Hjd; [done|lia].
Qed.

Section visit_correct.
Variable g : DependencyGraph.
Hypothesis Hacyclic : acyclic g.


Lemma visit_deps_spec fuel :
  (∀ node st st', visit g fuel node st = Some st' →
     visit_pre g [node] st → visit_post g node st st') →
  ∀ ds st st', for_each (visit g fuel) ds st = Some st' →
    visit_pre g ds st →
    ∃ new,
      st'.2 = st.2 ++ new ∧
      st'.1 = st.1 ∪ list_to_set new ∧
      (∀ x, x ∈ new → x ∉ st.1) ∧
      NoDup st'.2 ∧
      (∀ x, x ∈ st'.2 → x ∈ st'.1) ∧
      dependency_respecting g st'.2 ∧
      (∀ d, d ∈ ds → d ∈ st'.2).
Proof.
  intros IH ds. induction ds as [|d ds IHds]; intros st st' Hrun Hpre; simpl in *.
  - simplify_eq. destruct Hpre as (Hnd & Hsub & Hord & _).
    exists []. rewrite app_nil_r, list_to_set_nil, (right_id_L ∅ (∪)).
    repeat split; try done; by intros ? ?%elem_of_nil.
  - destruct (visit g fuel d st) as [st1|] eqn:Hd; [|done].
    destruct Hpre as (Hnd & Hsub & Hord & Hclosed).
    destruct (IH d st st1 Hd) as (new1 & HR1 & HV1 & Hfresh1 & Hnd1 & Hsub1 & Hord1 & Hd1).
    { repeat split; try done. intros d' m ->%list_elem_of_singleton.
      apply Hclosed. by left. }
    destruct (IHds st1 st' Hrun) as (new2 & HR2 & HV2 & Hfresh2 & Hnd2 & Hsub2 & Hord2 & Hds2).
    { repeat split; try done. intros d' m Hd' Hreach.
      rewrite HV1, HR1, elem_of_union, elem_of_app, elem_of_list_to_set.
      intros [Hm|Hm]; [left|by right].
      eapply Hclosed; [by right|done|done]. }
    exists (new1 ++ new2).
    rewrite HR2, HR1, HV2, HV1, list_to_set_app_L, (assoc_L (++)), (assoc_L (∪)).
    repeat split; try done.
    + intros x [Hx|Hx]%elem_of_app; [by apply Hfresh1|].
      apply Hfresh2 in Hx. rewrite HV1 in Hx. set_solver.
    + by rewrite <-HR1, <-HR2.
    + intros x Hx. rewrite <-HV1, <-HV2. apply Hsub2. by rewrite HR2, HR1.
    + by rewrite <-HR1, <-HR2.
    + intros d' [->|Hd']%elem_of_cons.
      * rewrite <-HR1. rewrite elem_of_app. by left.
      * rewrite <-HR1, <-HR2. by apply Hds2.
Qed.

Lemma visit_spec fuel node st st' :
  visit g fuel node st = Some st' →
  visit_pre g [node] st → visit_post g node st st'.
Proof.
  revert node st st'. induction fuel as [|fuel IH]; intros node st st'; [done|].
  simpl. intros Hrun (Hnd & Hsub & Hord & Hclosed).
  case_decide as Hvis.
  - simplify_eq. exists [].
    rewrite app_nil_r, list_to_set_nil, (right_id_L ∅ (∪)).
    repeat split; try done; [by intros ? ?%elem_of_nil|].
    eapply Hclosed; [by left|done|done].
  - destruct (for_each (visit g fuel) (deps g node) ({[node]} ∪ st.1, st.2))
      as [st2|] eqn:Hloop; [|done].
    simplify_eq.
    destruct (visit_deps_spec fuel IH _ _ _ Hloop)
      as (new & HR & HV & Hfresh & Hnd2 & Hsub2 & Hord2 & Hdeps); simpl in *.
    { repeat split; simpl; try done.
      - intros x Hx. apply elem_of_union. right. by apply Hsub.
      - intros d m Hd Hreach [ ->%elem_of_singleton|Hm]%elem_of_union.
        + destruct (Hacyclic node). eapply tc_rtc_r; [|done]. by apply tc_once.
        + eapply Hclosed; [by left| |done]. by eapply rtc_l. }
    assert (node ∉ st2.2) as Hfreshnode.
    { rewrite HR, elem_of_app. intros [Hn|Hn].
      - by apply Hvis, Hsub.
      - apply Hfresh in Hn. set_solver. }
    exists (new ++ [node]). simpl. split_and!.
    + by rewrite HR, (assoc_L (++)).
    + rewrite HV, list_to_set_app_L. set_solver.
    + intros x [Hx| ->%list_elem_of_singleton]%elem_of_app; [|done].
      apply Hfresh in Hx. set_solver.
    + apply NoDup_app. split_and!; [done| |apply NoDup_singleton].
      by intros x Hx ->%list_elem_of_singleton.
    + intros x [Hx| ->%list_elem_of_singleton]%elem_of_app.
      * by apply Hsub2.
      * rewrite HV. set_solver.
    + apply dependency_respecting_snoc; [done|]. apply Hdeps.
    + rewrite elem_of_app. right. by left.
Qed.
End visit_correct.

(** When the loop over the targets ends on an acyclic graph, every visited
    node is in [result], and [result] is a duplicate-free order in which every
    dependency of an entry precedes the entry. *)
Lemma visit_targets_spec g fuel targets st :
  acyclic g →
  for_each (visit_target g fuel) targets (∅, []) = Some st →
  st.1 = list_to_set st.2 ∧ NoDup st.2 ∧ dependency_respecting g st.2.
Proof.
  intros Hacyclic.
  apply (for_each_inv (λ st : gset string * list string,
    st.1 = list_to_set st.2 ∧ NoDup st.2 ∧ dependency_respecting g st.2)).
  - intros t s s' _ (HV & Hnd & Hord) Hstep. unfold visit_target in Hstep.
    destruct (getNode g t); [|by simplify_eq].
    apply (visit_spec g Hacyclic) in Hstep
      as (new & HR & HV' & _ & Hnd' & _ & Hord' & _).
    + split_and!; [|done|done].
      by rewrite HV', HR, HV, list_to_set_app_L.
    + split_and!; [done| |done|].
      * intros x. rewrite HV. apply elem_of_list_to_set.
      * intros _ m _ _. rewrite HV. apply elem_of_list_to_set.
  - split_and!; [done|constructor|]. by intros i x d Hi.
Qed.

(** ** [detectCycles] *)

Section first_true_loops.
Context {A S : Type}.

Lemma first_true_is_Some (P : S → Prop) (f : A → S → option (bool * S)) l s :
  (∀ x t, x ∈ l → P t → ∃ b t', f x t = Some (b, t') ∧ P t') →
  P s → ∃ b s', first_true f l s = Some (b, s') ∧ P s'.
Proof.
  revert s. induction l as [|x l IH]; intros s Hstep Hs; simpl.
  - eauto.
  - destruct (Hstep x s) as ([] & t & -> & Ht); [by left|done| |]; [by eauto|].
    apply IH; [|done]. intros y u Hy. apply Hstep. by right.
Qed.

(** A preorder on states that every iteration respects relates the state
    before the loop to the state after it. *)
Lemma first_true_preorder (R : relation S) `{!PreOrder R}
    (f : A → S → option (bool * S)) l s b s' :
  (∀ x t c t', x ∈ l → f x t = Some (c, t') → R t t') →
  first_true f l s = Some (b, s') → R s s'.
Proof.
  revert s. induction l as [|x l IH]; intros s Hstep Hrun; simpl in *.
  - by simplify_eq.
  - destruct (f x s) as [[[] t]|] eqn:Hf; [| |done].
    + simplify_eq. eapply Hstep; [by left|done].
    + etrans; [eapply Hstep; [by left|done]|].
      apply IH; [|done]. intros y u c u' Hy. apply Hstep. by right.
Qed.
End first_true_loops.

Section dfs_terminates.
Variable g : DependencyGraph.

Lemma dfs_is_Some fuel path nodeKey st :
  size (key_set g ∖ cs_visited st) < fuel →
  ∃ b st', dfs g fuel path nodeKey st = Some (b, st') ∧
    cs_visited st ⊆ cs_visited st'.
Proof.
  revert path nodeKey st.
  induction fuel as [|fuel IH]; intros path nodeKey st Hfuel; [lia|].
  simpl. case_decide as Hstack; [by eauto|].
  case_decide as Hvis; [by eauto|].
  destruct (decide (nodeKey ∈ graph_keys g)) as [Hin|Hout].
  - match goal with |- context [first_true ?f ?l ?s] =>
      destruct (first_true_is_Some
        (λ t, {[nodeKey]} ∪ cs_visited st ⊆ cs_visited t) f l s)
        as (b & st' & -> & Hst')
    end; [|done|].
    + intros d t _ Ht. destruct (IH (path ++ [nodeKey]) d t) as (b & t' & Ht' & Hsub).
      * eapply Nat.le_lt_trans; [by apply size_unmarked_mono|].
        pose proof (size_unmarked_lt (key_set g) (cs_visited st) nodeKey) as Hlt.
        unfold key_set in Hlt at 1. rewrite elem_of_list_to_set in Hlt.
        specialize (Hlt Hin Hvis). lia.
      * exists b, t'. split; [done|]. set_solver.
    + destruct b; eexists _, _; (split; [done|]); simpl; set_solver.
  - rewrite deps_no_node by done. simpl. eexists _, _; split; [done|].
    simpl. set_solver.
Qed.

(** [detectCycles] returns for every graph. *)
Lemma detectCycles_is_Some : is_Some (detectCycles g).
Proof.
  unfold detectCycles.
  match goal with |- context [for_each ?f ?l ?s] =>
    destruct (for_each_is_Some (λ _, True) f l s) as (st & -> & _)
  end; [|done|done].
  intros k st _ _. unfold dfs_root. case_decide; [by eauto|].
  destruct (dfs_is_Some (S (length g)) [] k st) as (b & st' & -> & _);
    [|by eauto].
  pose proof (size_key_set g).
  assert (size (key_set g ∖ cs_visited st) ≤ size (key_set g))
    by (apply subseteq_size; set_solver).
  lia.
Qed.
End dfs_terminates.

Lemma tc_first_step {A} (R : relation A) x z :
  tc R x z → ∃ y, R x y ∧ rtc R y z.
Proof.
  intros Htc. inversion Htc as [? ? Hxz|? y ? Hxy Hyz]; simplify_eq.
  - by exists z.
  - exists y. split; [done|]. by apply tc_rtc.
Qed.


#[global] Instance cycles_extend_preorder : PreOrder cycles_extend.
Proof.
  split.
  - intros st. exists []. by rewrite app_nil_r.
  - intros s1 s2 s3 [e1 H1] [e2 H2]. exists (e1 ++ e2).
    by rewrite H2, H1, (assoc_L (++)).
Qed.

Section dfs_correct.
Variable g : DependencyGraph.


Lemma dfs_cycles_extend fuel path nodeKey st b st' :
  dfs g fuel path nodeKey st = Some (b, st') → cycles_extend st st'.
Proof.
  revert path nodeKey st b st'.
  induction fuel as [|fuel IH]; intros path nodeKey st b st'; [done|].
  simpl. case_decide; [intros; simplify_eq; by eexists|].
  case_decide; [by intros; simplify_eq|].
  destruct (first_true _ _ _) as [[[] st2]|] eqn:Hloop; intros; simplify_eq.
  - eapply (first_true_preorder cycles_extend) in Hloop; [done|]. eauto.
  - eapply (first_true_preorder cycles_extend) in Hloop; [done|]. eauto.
Qed.

Lemma finished_closed st x y :
  dfs_inv g st → finished st x → rtc (edge g) x y → finished st y.
Proof.
  intros Hinv Hx Hreach. induction Hreach as [|x y z Hxy _ IH]; [done|].
  apply IH. by apply (Hinv x).
Qed.


Lemma dfs_deps_spec fuel path :
  (∀ nodeKey st b st', dfs g fuel path nodeKey st = Some (b, st') →
     dfs_inv g st → cs_cycles st' = [] →
     b = false ∧ dfs_post g st st' ∧ finished st' nodeKey) →
  ∀ ds st b st', first_true (dfs g fuel path) ds st = Some (b, st') →
    dfs_inv g st → cs_cycles st' = [] →
    b = false ∧ dfs_post g st st' ∧ ∀ d, d ∈ ds → finished st' d.
Proof.
  intros IH ds. induction ds as [|d ds IHds]; intros st b st' Hrun Hinv Hnil;
    simpl in *.
  - simplify_eq. split_and!; try done. by intros ? ?%elem_of_nil.
  - destruct (dfs g fuel path d st) as [[c st1]|] eqn:Hd; [|done].
    assert (cs_cycles st1 = []) as Hnil1.
    { destruct c; [by simplify_eq|].
      eapply (first_true_preorder cycles_extend) in Hrun as [extra Hextra].
      - rewrite Hnil in Hextra. symmetry in Hextra.
        by apply app_eq_nil in Hextra as [? _].
      - intros ? ? ? ? _. apply dfs_cycles_extend. }
    destruct (IH d st c st1 Hd Hinv Hnil1) as (-> & (Hst1 & Hvis1 & Hinv1) & Hfin1).
    destruct (IHds st1 b st' Hrun Hinv1 Hnil) as (-> & (Hst2 & Hvis2 & Hinv2) & Hfin2).
    split_and!; [done| |].
    + split_and!; [congruence|set_solver|done].
    + intros d' [->|Hd']%elem_of_cons; [|by apply Hfin2].
      destruct Hfin1 as [Hv Hs]. split; [set_solver|congruence].
Qed.

Lemma dfs_spec fuel path nodeKey st b st' :
  dfs g fuel path nodeKey st = Some (b, st') →
  dfs_inv g st → cs_cycles st' = [] →
  b = false ∧ dfs_post g st st' ∧ finished st' nodeKey.
Proof.
  revert path nodeKey st b st'.
  induction fuel as [|fuel IH]; intros path nodeKey st b st'; [done|].
  simpl. case_decide as Hstack.
  { intros ? _ Hnil. simplify_eq. simpl in Hnil.
    by apply app_eq_nil in Hnil as [_ ?]. }
  case_decide as Hvis.
  { intros ? Hinv _. simplify_eq. split_and!; try done. }
  destruct (first_true _ _ _) as [[c st2]|] eqn:Hloop; [|done].
  intros Hrun Hinv Hnil.
  assert (cs_cycles st2 = []) as Hnil2 by (by destruct c; simplify_eq).
  eapply dfs_deps_spec in Hloop
    as (-> & (Hstack2 & Hvis2 & Hinv2) & Hdeps); [|by eauto| |done].
  2:{ intros x [Hx Hxs]. simpl in *.
      assert (x ≠ nodeKey ∧ finished st x) as [Hne Hfin].
      { split; [set_solver|]. split; set_solver. }
      destruct (Hinv x Hfin) as [Hclosed Hnocycle]. split; [|done].
      intros d Hd. destruct (Hclosed d Hd) as [? ?]. split; set_solver. }
  simplify_eq. simpl in *.
  assert (¬ finished st2 nodeKey) as Hopen.
  { intros [_ Hn]. rewrite Hstack2 in Hn. set_solver. }
  split_and!; [done| |]; [split_and!|]; simpl.
  - rewrite Hstack2. set_solver.
  - set_solver.
  - intros x [Hx Hxs]. simpl in *.
    destruct (decide (x = nodeKey)) as [->|Hne].
    + split.
      * intros d Hd. destruct (Hdeps d Hd) as [? ?]. split; simpl; set_solver.
      * intros (d & Hd & Hback)%tc_first_step. apply Hopen.
        eapply finished_closed; [done| |done]. by apply Hdeps.
    + assert (finished st2 x) as Hfin by (split; set_solver).
      destruct (Hinv2 x Hfin) as [Hclosed Hnocycle]. split; [|done].
      intros d Hd. destruct (Hclosed d Hd) as [? ?]. split; simpl; set_solver.
  - split; simpl; set_solver.
Qed.
End dfs_correct.

Section detectCycles_sound.
Variable g : DependencyGraph.

Lemma dfs_root_cycles_extend fuel nodeKey st st' :
  dfs_root g fuel nodeKey st = Some st' → cycles_extend st st'.
Proof.
  unfold dfs_root. case_decide; [by intros; simplify_eq|].
  destruct (dfs _ _ _ _ _) as [[b st1]|] eqn:Hdfs; [|done].
  simpl. intros; simplify_eq. by eapply dfs_cycles_extend.
Qed.

Lemma dfs_roots_spec fuel keys st st' :
  for_each (dfs_root g fuel) keys st = Some st' →
  cs_cycles st' = [] →
  dfs_inv g st → cs_recursionStack st = ∅ →
  dfs_inv g st' ∧ cs_recursionStack st' = ∅ ∧
  cs_visited st ⊆ cs_visited st' ∧
  ∀ k, k ∈ keys → k ∈ cs_visited st'.
Proof.
  revert st. induction keys as [|k keys IH]; intros st Hrun Hnil Hinv Hstack;
    simpl in *.
  - simplify_eq. split_and!; try done. by intros ? ?%elem_of_nil.
  - destruct (dfs_root g fuel k st) as [st1|] eqn:Hk; [|done].
    assert (cs_cycles st1 = []) as Hnil1.
    { eapply (for_each_preorder (cycles_extend)) in Hrun as [extra Hextra].
      - rewrite Hnil in Hextra. symmetry in Hextra.
        by apply app_eq_nil in Hextra as [? _].
      - intros ? ? ? _. apply dfs_root_cycles_extend. }
    assert (dfs_inv g st1 ∧ cs_recursionStack st1 = ∅ ∧
            cs_visited st ⊆ cs_visited st1 ∧ k ∈ cs_visited st1)
      as (Hinv1 & Hstack1 & Hvis1 & Hk1).
    { unfold dfs_root in Hk. case_decide as Hvis; [by simplify_eq|].
      destruct (dfs _ _ _ _ _) as [[b st2]|] eqn:Hdfs; [|done].
      simpl in Hk. simplify_eq.
      apply dfs_spec in Hdfs as (_ & (Hs & Hv & Hi) & [Hkv _]); try done.
      split_and!; try done. congruence. }
    destruct (IH st1 Hrun Hnil Hinv1 Hstack1) as (Hinv' & Hstack' & Hvis' & Hkeys).
    split_and!; [done|done|set_solver|].
    intros k' [->|Hk']%elem_of_cons; [set_solver|by apply Hkeys].
Qed.

(** If [detectCycles] reports nothing, the graph has no cycle. *)
Lemma detectCycles_nil_acyclic : detectCycles g = Some [] → acyclic g.
Proof.
  unfold detectCycles. intros Hrun a Hcycle.
  destruct (for_each _ _ _) as [st|] eqn:Hloop; [|done].
  simpl in Hrun. simplify_eq.
  apply dfs_roots_spec in Hloop as (Hinv & Hstack & _ & Hkeys); try done.
  - destruct (decide (a ∈ graph_keys g)) as [Hin|Hout].
    + destruct (Hinv a) as [_ Hno]; [|done].
      split; [by apply Hkeys|]. rewrite Hstack. set_solver.
    + apply tc_first_step in Hcycle as (d & Hd & _).
      unfold edge in Hd. rewrite deps_no_node in Hd by done.
      by apply elem_of_nil in Hd.
  - intros x [Hx _]. simpl in Hx. set_solver.
Qed.
End detectCycles_sound.

(** ** [findMissingDependencies]: termination *)

Section checkDependencies_terminates.
Variable g : DependencyGraph.

Lemma checkDependencies_is_Some fuel nodeKey (st : gset string * list string) :
  size (key_set g ∖ st.1) < fuel →
  ∃ st', checkDependencies g fuel nodeKey st = Some st' ∧ st.1 ⊆ st'.1.
Proof.
  revert nodeKey st.
  induction fuel as [|fuel IH]; intros nodeKey st Hfuel; [lia|].
  simpl. case_decide as Hvis; [by eauto|].
  destruct (getNode g nodeKey) as [n|] eqn:Hnode.
  - assert (nodeKey ∈ graph_keys g) as Hin by (apply getNode_is_Some; eauto).
    destruct (for_each_is_Some
      (λ t : gset string * list string, {[nodeKey]} ∪ st.1 ⊆ t.1)
      (checkDependencies g fuel) (consumes (meta n)) ({[nodeKey]} ∪ st.1, st.2))
      as (st' & -> & Hst'); [|done|].
    + intros d t _ Ht. destruct (IH d t) as (t' & Ht' & Hsub).
      * eapply Nat.le_lt_trans; [by apply size_unmarked_mono|].
        pose proof (size_unmarked_lt (key_set g) st.1 nodeKey) as Hlt.
        unfold key_set in Hlt at 1. rewrite elem_of_list_to_set in Hlt.
        specialize (Hlt Hin Hvis). lia.
      * exists t'. split; [done|]. set_solver.
    + eexists; split; [done|]. simpl in *. set_solver.
  - eexists; split; [done|]. simpl. set_solver.
Qed.

Lemma findMissingDependencies_is_Some targets :
  is_Some (findMissingDependencies g targets).
Proof.
  unfold findMissingDependencies.
  destruct (for_each_is_Some (λ _, True) (checkDependencies g (S (length g)))
              targets (∅, [])) as (st & -> & _); [|done|done].
  intros t st _ _.
  destruct (checkDependencies_is_Some (S (length g)) t st) as (st' & ? & _);
    [|by eauto].
  pose proof (size_key_set g).
  assert (size (key_set g ∖ st.1) ≤ size (key_set g))
    by (apply subseteq_size; set_solver).
  lia.
Qed.
End checkDependencies_terminates.

(** ** [calculateParallelLevels] *)


Lemma elem_of_concat {A} (ls : list (list A)) x :
  x ∈ concat ls ↔ ∃ i l, ls !! i = Some l ∧ x ∈ l.
Proof.
  induction ls as [|l ls IH]; simpl.
  - split; [by intros ?%elem_of_nil|by intros (i & l & ? & _)].
  - rewrite elem_of_app, IH. split.
    + intros [Hx|(i & l' & Hi & Hx)]; [by exists 0, l|by exists (S i), l'].
    + intros ([|i] & l' & Hi & Hx); simpl in *; [left; by simplify_eq|].
      right. by exists i, l'.
Qed.

Section levels.
Variable g : DependencyGraph.
Variable order : list string.

Lemma currentLevel_elem processed x :
  x ∈ currentLevel g order processed ↔
  ((x ∉ processed) ∧ Forall (λ dep, dep ∈ processed) (deps g x)) ∧ x ∈ order.
Proof. unfold currentLevel. by rewrite list_elem_of_filter. Qed.

(** The loop stops after at most [size remaining] rounds. *)
Lemma levels_loop_is_Some fuel levels processed remaining :
  remaining = list_to_set order ∖ processed →
  size remaining ≤ fuel →
  is_Some (levels_loop g order fuel levels processed remaining).
Proof.
  revert levels processed remaining.
  induction fuel as [|fuel IH]; intros levels processed remaining Hrem Hfuel;
    simpl; case_decide as Hsize; try done; [lia|].
  destruct (currentLevel g order processed) as [|y level] eqn:Hlevel; [done|].
  apply IH; [set_solver|].
  assert (y ∈ currentLevel g order processed) as Hy
    by (rewrite Hlevel; by left).
  apply currentLevel_elem in Hy as [[Hy _] Hyo].
  assert (size (remaining ∖ ({[y]} ∪ list_to_set level)) < size remaining); [|lia].
  apply subset_size. set_solver.
Qed.

Lemma calculateParallelLevels_is_Some :
  is_Some (calculateParallelLevels g order).
Proof.
  apply levels_loop_is_Some; [set_solver|]. apply size_list_to_set_le.
Qed.

Hypothesis Hnodup : NoDup order.
Hypothesis Hrespecting : dependency_respecting g order.

(** While an entry of the order is unprocessed, the next level is not
    empty: the [break] of the loop is never taken on a valid order. *)
Lemma currentLevel_progress processed i x :
  order !! i = Some x → x ∉ processed →
  currentLevel g order processed ≠ [].
Proof.
  revert x. induction (lt_wf i) as [i _ IH]. intros x Hi Hx.
  destruct (decide (Forall (λ dep, dep ∈ processed) (deps g x))) as [Hall|Hsome].
  - intros Hnil.
    assert (x ∈ currentLevel g order processed) as Hin.
    { apply currentLevel_elem. split; [done|]. by eapply list_elem_of_lookup_2. }
    rewrite Hnil in Hin. by apply elem_of_nil in Hin.
  - apply not_Forall_Exists in Hsome; [|apply _].
    apply Exists_exists in Hsome as (d & Hd & Hdp).
    destruct (Hrespecting i x d Hi Hd) as (j & Hj & Hjd).
    by apply (IH j Hj d).
Qed.

Lemma levels_done levels :
  size (list_to_set order ∖ list_to_set (concat levels) : gset string) = 0 →
  NoDup (concat levels) →
  (∀ x, x ∈ concat levels → x ∈ order) →
  levels_ordered g levels →
  NoDup (concat levels) ∧
  (∀ x, x ∈ concat levels ↔ x ∈ order) ∧
  levels_ordered g levels.
Proof.
  intros Hsize%size_empty_inv Hnd Hsub Hord.
  split_and!; [done| |done]. intros x. split; [apply Hsub|].
  intros Hx. destruct (decide (x ∈ concat levels)) as [|Hout]; [done|].
  assert (x ∈ (∅ : gset string)) as []%elem_of_empty.
  rewrite <-Hsize, elem_of_difference, !elem_of_list_to_set. done.
Qed.

Lemma levels_loop_spec fuel levels processed remaining levels' :
  levels_loop g order fuel levels processed remaining = Some levels' →
  remaining = list_to_set order ∖ processed →
  processed = list_to_set (concat levels) →
  NoDup (concat levels) →
  (∀ x, x ∈ concat levels → x ∈ order) →
  levels_ordered g levels →
  NoDup (concat levels') ∧
  (∀ x, x ∈ concat levels' ↔ x ∈ order) ∧
  levels_ordered g levels'.
Proof.
  revert levels processed remaining.
  induction fuel as [|fuel IH];
    intros levels processed remaining Hrun Hrem Hproc Hnd Hsub Hord;
    simpl in Hrun; case_decide as Hsize; try done.
  - simplify_eq. by apply levels_done.
  - simplify_eq. by apply levels_done.
  - subst processed remaining.
    destruct (currentLevel g order (list_to_set (concat levels)))
      as [|y level] eqn:Hlevel.
    { apply size_non_empty_iff, set_choose in Hsize as [x Hx].
      apply elem_of_difference in Hx as [Hx Hxp].
      apply elem_of_list_to_set, list_elem_of_lookup in Hx as [i Hi].
      by destruct (currentLevel_progress _ i x Hi Hxp). }
    rewrite <-Hlevel in Hrun.
    set (cur := currentLevel g order (list_to_set (concat levels))) in *.
    assert (∀ x, x ∈ cur →
      ((x ∉ concat levels) ∧ ∀ d, d ∈ deps g x → d ∈ concat levels) ∧ x ∈ order)
      as Hcur.
    { intros x [[Hx Hd] Hxo]%currentLevel_elem. rewrite elem_of_list_to_set in Hx.
      split_and!; [done| |done]. intros d Hdx.
      rewrite Forall_forall in Hd. apply Hd in Hdx.
      by rewrite elem_of_list_to_set in Hdx. }
    apply IH in Hrun; [done|set_solver| | | |].
    + rewrite concat_app, list_to_set_app_L. simpl. by rewrite app_nil_r, Hlevel.
    + rewrite concat_app; simpl; rewrite app_nil_r.
      apply NoDup_app. split_and!; [done| |by apply NoDup_filter].
      intros x Hx Hxc. by apply Hcur in Hxc as [[? _] _].
    + intros x. rewrite concat_app; simpl; rewrite app_nil_r, elem_of_app.
      intros [Hx|Hx]; [by apply Hsub|by apply Hcur].
    + intros i L x d Hi Hx Hd.
      destruct (decide (i < length levels)) as [Hlt|Hge].
      * rewrite lookup_app_l in Hi by done.
        destruct (Hord i L x d Hi Hx Hd) as (j & L' & Hj & HL' & HdL').
        exists j, L'. split_and!; [done| |done].
        rewrite lookup_app_l; [done|lia].
      * rewrite lookup_app_r in Hi by lia.
        apply list_lookup_singleton_Some in Hi as [Hi <-].
        apply Hcur in Hx as [[_ Hdeps] _].
        apply Hdeps, elem_of_concat in Hd as (j & L' & Hj & HdL').
        exists j, L'. pose proof (lookup_lt_Some _ _ _ Hj).
        split_and!; [lia| |done]. by rewrite lookup_app_l.
Qed.

Lemma calculateParallelLevels_spec levels :
  calculateParallelLevels g order = Some levels →
  NoDup (concat levels) ∧
  (∀ x, x ∈ concat levels ↔ x ∈ order) ∧
  levels_ordered g levels.
Proof.
  intros Hrun. eapply levels_loop_spec in Hrun; [done|set_solver|done| | |].
  - constructor.
  - by intros x ?%elem_of_nil.
  - by intros i L x d Hi.
Qed.
End levels.

(** ** [createExecutionPlan] *)

Lemma createExecutionPlan_is_Some reg targets :
  is_Some (createExecutionPlan reg targets).
Proof.
  unfold createExecutionPlan.
  destruct (detectCycles_is_Some (buildDependencyGraph reg)) as [cs ->].
  destruct (findMissingDependencies_is_Some (buildDependencyGraph reg) targets)
    as [ms ->].
  case_bool_decide; [|done].
  destruct (getExecutionOrder_is_Some (buildDependencyGraph reg) targets)
    as [order ->].
  destruct (calculateParallelLevels_is_Some (buildDependencyGraph reg) order)
    as [levels ->].
  done.
Qed.

(** The fields of a plan, read off the code. *)
Lemma createExecutionPlan_Some reg targets plan :
  createExecutionPlan reg targets = Some plan →
  dependencyGraph plan = buildDependencyGraph reg ∧
  detectCycles (buildDependencyGraph reg) = Some (cycles plan) ∧
  findMissingDependencies (buildDependencyGraph reg) targets
    = Some (missingBuilders plan) ∧
  isValid plan = bool_decide (cycles plan = [] ∧ missingBuilders plan = []) ∧
  if isValid plan then
    getExecutionOrder (buildDependencyGraph reg) targets
      = Some (executionOrder plan) ∧
    calculateParallelLevels (buildDependencyGraph reg) (executionOrder plan)
      = Some (parallelExecutionLevels plan) ∧
    totalBuilders plan = length (executionOrder plan) ∧
    maxConcurrency plan = max_list (length <$> parallelExecutionLevels plan)
  else
    executionOrder plan = [] ∧ parallelExecutionLevels plan = [] ∧
    totalBuilders plan = 0 ∧ maxConcurrency plan = 0.
Proof.
  unfold createExecutionPlan. generalize (buildDependencyGraph reg). intros g Hplan.
  destruct (detectCycles g) as [cs|]; [|done].
  destruct (findMissingDependencies g targets) as [ms|]; [|done].
  assert (bool_decide (length cs = 0 ∧ length ms = 0)
          = bool_decide (cs = [] ∧ ms = [])) as Hvalid.
  { apply bool_decide_ext. by rewrite !length_zero_iff_nil. }
  rewrite Hvalid in Hplan. clear Hvalid.
  destruct (bool_decide (cs = [] ∧ ms = [])) eqn:Hv.
  - destruct (getExecutionOrder g targets) as [order|] eqn:Horder; [|done].
    destruct (calculateParallelLevels g order) as [levels|] eqn:Hlevels; [|done].
    simplify_eq. simpl. rewrite Hv. split_and!; try done.
    case_decide as Hlen; [done|].
    destruct levels; [done|simpl in Hlen; lia].
  - simplify_eq. simpl. by rewrite Hv.
Qed.

Lemma NoDup_concat_unique {A} (ls : list (list A)) i j l l' x :
  NoDup (concat ls) → ls !! i = Some l → ls !! j = Some l' →
  x ∈ l → x ∈ l' → i = j.
Proof.
  revert i j. induction ls as [|l0 ls IH]; intros i j Hnd Hi Hj Hx Hx'; [done|].
  simpl in Hnd. apply NoDup_app in Hnd as (_ & Hdisj & Hnd).
  destruct i as [|i], j as [|j]; simpl in *; simplify_eq.
  - done.
  - destruct (Hdisj x Hx). apply elem_of_concat. eauto.
  - destruct (Hdisj x Hx'). apply elem_of_concat. eauto.
  - f_equal. by apply IH.
Qed.

(** A valid plan was computed on an acyclic graph. *)
Lemma valid_plan_acyclic reg targets plan :
  createExecutionPlan reg targets = Some plan → isValid plan = true →
  acyclic (dependencyGraph plan).
Proof.
  intros (Hg & Hcycles & _ & Hvalid & _)%createExecutionPlan_Some Hv.
  rewrite Hg. apply detectCycles_nil_acyclic.
  rewrite Hv in Hvalid. symmetry in Hvalid.
  apply bool_decide_eq_true in Hvalid as [Hnil _]. by rewrite Hcycles, Hnil.
Qed.

Lemma valid_plan_order reg targets plan :
  createExecutionPlan reg targets = Some plan → isValid plan = true →
  NoDup (executionOrder plan) ∧
  dependency_respecting (dependencyGraph plan) (executionOrder plan).
Proof.
  intros Hplan Hv. pose proof (valid_plan_acyclic _ _ _ Hplan Hv) as Hacyclic.
  apply createExecutionPlan_Some in Hplan as (Hg & _ & _ & _ & Hfields).
  rewrite Hv in Hfields. destruct Hfields as (Horder & _).
  rewrite Hg in *. unfold getExecutionOrder in Horder.
  destruct (for_each _ _ _) as [st|] eqn:Hrun; [|done].
  simpl in Horder. simplify_eq. rewrite <-Horder.
  by apply visit_targets_spec in Hrun as (_ & ? & ?).
Qed.

Lemma valid_plan_levels reg targets plan :
  createExecutionPlan reg targets = Some plan → isValid plan = true →
  NoDup (concat (parallelExecutionLevels plan)) ∧
  (∀ x, x ∈ concat (parallelExecutionLevels plan) ↔ x ∈ executionOrder plan) ∧
  levels_ordered (dependencyGraph plan) (parallelExecutionLevels plan).
Proof.
  intros Hplan Hv.
  destruct (valid_plan_order _ _ _ Hplan Hv) as [Hnd Hresp].
  apply createExecutionPlan_Some in Hplan as (Hg & _ & _ & _ & Hfields).
  rewrite Hv in Hfields. destruct Hfields as (_ & Hlevels & _).
  rewrite <-Hg in Hlevels.
  by apply calculateParallelLevels_spec in Hlevels.
Qed.

(** ** The claims about the planner *)

(** Claim C1.  For every builder set whose dependency graph is acyclic and
    every list of target types (repeated or overlapping targets included),
    [getExecutionOrder] returns a sequence without duplicates in which every
    dependency of an entry appears at a smaller index than the entry. *)
Theorem getExecutionOrder_topological (reg : BuilderRegistry)
    (targetTypes : list string) :
  acyclic (buildDependencyGraph reg) →
  ∃ order,
    getExecutionOrder (buildDependencyGraph reg) targetTypes = Some order ∧
    NoDup order ∧
    ∀ i node dependency,
      order !! i = Some node →
      dependency ∈ deps (buildDependencyGraph reg) node →
      ∃ j, j < i ∧ order !! j = Some dependency.
Proof.
  intros Hacyclic.
  destruct (getExecutionOrder_is_Some (buildDependencyGraph reg) targetTypes)
    as [order Horder].
  exists order. split; [done|].
  unfold getExecutionOrder in Horder.
  destruct (for_each _ _ _) as [st|] eqn:Hrun; [|done].
  simpl in Horder. simplify_eq.
  by apply visit_targets_spec in Hrun as (_ & ? & ?).
Qed.

Lemma getExecutionOrder_topological_witness :
  ∃ order,
    getExecutionOrder (buildDependencyGraph report_registry)
      ["report"; "profile"; "userStats"; "report"] = Some order ∧
    NoDup order ∧
    ∀ i node dependency,
      order !! i = Some node →
      dependency ∈ deps (buildDependencyGraph report_registry) node →
      ∃ j, j < i ∧ order !! j = Some dependency.
Proof.
  apply (getExecutionOrder_topological report_registry).
  apply detectCycles_nil_acyclic. vm_compute. reflexivity.
Defined.

(** Claim C2.  In a valid plan the parallel levels partition the execution
    order exactly: the levels together are a permutation of the order, every
    type of the order lies in exactly one level, the levels hold nothing
    else, and every dependency of a member of level [i] lies in a level of
    strictly smaller index. *)
Theorem parallel_levels_partition (reg : BuilderRegistry)
    (targetData : list string) (plan : ExecutionPlan) :
  createExecutionPlan reg targetData = Some plan →
  isValid plan = true →
  concat (parallelExecutionLevels plan) ≡ₚ executionOrder plan ∧
  (∀ x, x ∈ executionOrder plan →
     ∃ i level, parallelExecutionLevels plan !! i = Some level ∧ x ∈ level ∧
       ∀ j level', parallelExecutionLevels plan !! j = Some level' →
         x ∈ level' → j = i) ∧
  (∀ i level x, parallelExecutionLevels plan !! i = Some level → x ∈ level →
     x ∈ executionOrder plan) ∧
  (∀ i level x d,
     parallelExecutionLevels plan !! i = Some level → x ∈ level →
     d ∈ deps (dependencyGraph plan) x →
     ∃ j level', j < i ∧ parallelExecutionLevels plan !! j = Some level' ∧
       d ∈ level').
Proof.
  intros Hplan Hv.
  destruct (valid_plan_order _ _ _ Hplan Hv) as [Hnd Hresp].
  destruct (valid_plan_levels _ _ _ Hplan Hv) as (Hndl & Hsame & Hord).
  split_and!.
  - by apply NoDup_Permutation.
  - intros x Hx. apply Hsame, elem_of_concat in Hx as (i & level & Hi & Hx).
    exists i, level. split_and!; [done|done|].
    intros j level' Hj Hx'. by eapply NoDup_concat_unique.
  - intros i level x Hi Hx. apply Hsame, elem_of_concat. eauto.
  - apply Hord.
Qed.

Lemma parallel_levels_partition_witness :
  ∃ plan,
    createExecutionPlan report_registry ["report"] = Some plan ∧
    isValid plan = true ∧
    parallelExecutionLevels plan
      = [["user"]; ["profile"; "userStats"]; ["report"]] ∧
    concat (parallelExecutionLevels plan) ≡ₚ executionOrder plan ∧
    (∀ x, x ∈ executionOrder plan →
       ∃ i level, parallelExecutionLevels plan !! i = Some level ∧ x ∈ level ∧
         ∀ j level', parallelExecutionLevels plan !! j = Some level' →
           x ∈ level' → j = i) ∧
    (∀ i level x, parallelExecutionLevels plan !! i = Some level → x ∈ level →
       x ∈ executionOrder plan) ∧
    (∀ i level x d,
       parallelExecutionLevels plan !! i = Some level → x ∈ level →
       d ∈ deps (dependencyGraph plan) x →
       ∃ j level', j < i ∧ parallelExecutionLevels plan !! j = Some level' ∧
         d ∈ level').
Proof.
  eexists. split; [vm_compute; reflexivity|].
  split; [reflexivity|]. split; [reflexivity|].
  apply (parallel_levels_partition report_registry ["report"]);
    [vm_compute; reflexivity|reflexivity].
Defined.

(** Claim C3.  A plan that is not valid, that is, one for which
    [detectCycles] or [findMissingDependencies] returned something, has an
    empty execution order, no parallel levels, and both counts at zero. *)
Theorem invalid_plan_is_empty (reg : BuilderRegistry)
    (targetData : list string) (plan : ExecutionPlan) :
  createExecutionPlan reg targetData = Some plan →
  isValid plan = false →
  (cycles plan ≠ [] ∨ missingBuilders plan ≠ []) ∧
  executionOrder plan = [] ∧
  parallelExecutionLevels plan = [] ∧
  totalBuilders plan = 0 ∧
  maxConcurrency plan = 0.
Proof.
  intros (_ & _ & _ & Hvalid & Hfields)%createExecutionPlan_Some Hv.
  rewrite Hv in Hfields, Hvalid. split; [|done].
  symmetry in Hvalid. apply bool_decide_eq_false in Hvalid.
  destruct (decide (cycles plan = [])); [|by left].
  right. intros ?. by apply Hvalid.
Qed.

Lemma invalid_plan_is_empty_witness :
  ∃ plan,
    createExecutionPlan [UserBuilder; ProfileBuilder] ["profile"; "report"]
      = Some plan ∧
    isValid plan = false ∧
    missingBuilders plan = ["report"] ∧
    (cycles plan ≠ [] ∨ missingBuilders plan ≠ []) ∧
    executionOrder plan = [] ∧
    parallelExecutionLevels plan = [] ∧
    totalBuilders plan = 0 ∧
    maxConcurrency plan = 0.
Proof.
  eexists. split; [vm_compute; reflexivity|].
  split; [reflexivity|]. split; [reflexivity|].
  apply (invalid_plan_is_empty [UserBuilder; ProfileBuilder] ["profile"; "report"]);
    [vm_compute; reflexivity|reflexivity].
Defined.



(** ** Every entry of a valid plan has a builder *)

Section graph_construction.

Lemma getNode_update_node k f g k' :
  (∀ n, node_key (f n) = node_key n) →
  getNode (update_node k f g) k' =
  if decide (k = k') then f <$> getNode g k' else getNode g k'.
Proof.
  intros Hkey. induction g as [|n g IH]; simpl; [by case_decide|].
  destruct (decide (node_key n = k)) as [Hn|Hn]; simpl.
  - rewrite Hkey. subst k. by repeat case_decide.
  - rewrite IH. repeat case_decide; simplify_eq; done.
Qed.

Lemma graph_keys_update_node k f g :
  (∀ n, node_key (f n) = node_key n) →
  graph_keys (update_node k f g) = graph_keys g.
Proof.
  intros Hkey. unfold graph_keys. induction g as [|n g IH]; simpl; [done|].
  case_decide; csimpl; [by rewrite Hkey|by rewrite IH].
Qed.

Lemma graph_keys_addDependency node dependency g :
  graph_keys (addDependency node dependency g) = graph_keys g.
Proof. unfold addDependency. by rewrite !graph_keys_update_node. Qed.

Lemma elem_of_set_add x y s : x ∈ set_add y s → x ∈ s ∨ x = y.
Proof.
  unfold set_add. case_decide; [by left|].
  rewrite elem_of_app, list_elem_of_singleton. tauto.
Qed.

Lemma deps_addDependency node dependency g k x :
  x ∈ deps (addDependency node dependency g) k → x ∈ deps g k ∨ x = dependency.
Proof.
  unfold deps, addDependency. rewrite !getNode_update_node by done.
  repeat case_decide; destruct (getNode g k); simpl;
    eauto using elem_of_set_add.
Qed.

Lemma graph_keys_clear_edges g : graph_keys (clear_edges g) = graph_keys g.
Proof.
  unfold graph_keys, clear_edges. rewrite <-list_fmap_compose.
  by apply list_fmap_ext.
Qed.

Lemma deps_clear_edges g k : deps (clear_edges g) k = [].
Proof.
  unfold deps, clear_edges. induction g as [|n g IH]; simpl; [done|].
  unfold node_key at 1. simpl. fold (node_key n). by case_decide.
Qed.

Lemma wire_node_wf g n :
  graph_wf g →
  graph_wf (wire_node g n) ∧ graph_keys (wire_node g n) = graph_keys g.
Proof.
  unfold wire_node. generalize (consumes (meta n)). intros cs. revert g.
  induction cs as [|c cs IH]; intros g Hwf; simpl; [done|].
  destruct (getNode g c) as [m|] eqn:Hc; [|by apply IH].
  destruct (IH (addDependency (node_key n) c g)) as [Hwf' Hkeys'].
  - intros k x Hx. rewrite graph_keys_addDependency.
    apply deps_addDependency in Hx as [Hx| ->]; [by eapply Hwf|].
    apply getNode_is_Some. eauto.
  - split; [done|]. by rewrite Hkeys', graph_keys_addDependency.
Qed.

Lemma wire_nodes_wf ns g :
  graph_wf g →
  graph_wf (foldl wire_node g ns) ∧ graph_keys (foldl wire_node g ns) = graph_keys g.
Proof.
  revert g. induction ns as [|n ns IH]; intros g Hwf; simpl; [done|].
  destruct (wire_node_wf g n Hwf) as [Hwf' Hkeys'].
  destruct (IH _ Hwf') as [? ?]. split; [done|congruence].
Qed.

Lemma buildGraph_wf g :
  graph_wf (buildGraph g) ∧ graph_keys (buildGraph g) = graph_keys g.
Proof.
  unfold buildGraph.
  destruct (wire_nodes_wf (clear_edges g) (clear_edges g)) as [Hwf Hkeys].
  { intros k x. rewrite deps_clear_edges. by intros ?%elem_of_nil. }
  split; [done|]. by rewrite Hkeys, graph_keys_clear_edges.
Qed.

Lemma graph_keys_addBuilders metas g x :
  x ∈ graph_keys (foldl (λ g m, addBuilder m g) g metas) ↔
  x ∈ graph_keys g ∨ x ∈ provides <$> metas.
Proof.
  revert g. induction metas as [|m metas IH]; intros g; csimpl.
  - rewrite elem_of_nil. tauto.
  - rewrite IH, elem_of_cons. unfold addBuilder.
    destruct (getNode g (provides m)) as [n|] eqn:Hm.
    + assert (provides m ∈ graph_keys g) by (apply getNode_is_Some; eauto).
      split; [tauto|]. intros [?|[->|?]]; tauto.
    + unfold graph_keys at 1. rewrite fmap_app, elem_of_app. csimpl.
      rewrite list_elem_of_singleton. unfold node_key at 2. simpl.
      fold (graph_keys g). tauto.
Qed.

Lemma registry_get_is_Some reg t :
  is_Some (registry_get reg t) ↔ t ∈ builder_provides <$> reg.
Proof.
  induction reg as [|b reg IH]; csimpl.
  - rewrite elem_of_nil. split; [by intros [? ?]|done].
  - rewrite elem_of_cons. case_decide as Hb.
    + split; [by left|eauto].
    + rewrite IH. split; [by right|]. by intros [?|?].
Qed.

Lemma buildDependencyGraph_keys reg t :
  t ∈ graph_keys (buildDependencyGraph reg) ↔ is_Some (registry_get reg t).
Proof.
  unfold buildDependencyGraph.
  destruct (buildGraph_wf (foldl (λ g m, addBuilder m g) [] (getAllMetadata reg)))
    as [_ ->].
  rewrite graph_keys_addBuilders, registry_get_is_Some.
  unfold getAllMetadata. rewrite <-list_fmap_compose.
  change (graph_keys []) with (@nil string). rewrite elem_of_nil.
  split; [by intros [[]|?]|by right].
Qed.

Lemma buildDependencyGraph_wf reg : graph_wf (buildDependencyGraph reg).
Proof. unfold buildDependencyGraph. apply buildGraph_wf. Qed.

End graph_construction.

Section order_in_graph.
Variable g : DependencyGraph.
Hypothesis Hwf : graph_wf g.

Lemma visit_in_graph fuel node (st st' : gset string * list string) :
  visit g fuel node st = Some st' →
  node ∈ graph_keys g →
  (∀ x, x ∈ st.2 → x ∈ graph_keys g) →
  ∀ x, x ∈ st'.2 → x ∈ graph_keys g.
Proof.
  revert node st st'. induction fuel as [|fuel IH]; intros node st st'; [done|].
  simpl. case_decide; [by intros ? ? ?; simplify_eq|].
  destruct (for_each _ _ _) as [st2|] eqn:Hloop; [|done].
  intros ? Hnode Hst; simplify_eq. simpl.
  intros x [Hx| ->%list_elem_of_singleton]%elem_of_app; [|done].
  revert x Hx.
  eapply (for_each_inv (λ t : gset string * list string,
                          ∀ x, x ∈ t.2 → x ∈ graph_keys g)); [| |exact Hloop].
  - intros d t t' Hd Ht Hvisit. eapply IH; [done| |done]. by eapply Hwf.
  - done.
Qed.

Lemma getExecutionOrder_in_graph targets order :
  getExecutionOrder g targets = Some order →
  ∀ x, x ∈ order → x ∈ graph_keys g.
Proof.
  unfold getExecutionOrder.
  destruct (for_each _ _ _) as [st|] eqn:Hloop; [|done]. simpl.
  intros; simplify_eq. revert x H0.
  eapply (for_each_inv (λ t : gset string * list string,
                          ∀ x, x ∈ t.2 → x ∈ graph_keys g)); [| |exact Hloop].
  - intros t s s' _ Hs Hstep. unfold visit_target in Hstep.
    destruct (getNode g t) eqn:Ht; [|by simplify_eq].
    eapply visit_in_graph; [done| |done]. apply getNode_is_Some. eauto.
  - by intros x ?%elem_of_nil.
Qed.
End order_in_graph.

Lemma valid_plan_has_builders reg targets plan :
  createExecutionPlan reg targets = Some plan → isValid plan = true →
  ∀ t, t ∈ executionOrder plan → is_Some (registry_get reg t).
Proof.
  intros (_ & _ & _ & _ & Hfields)%createExecutionPlan_Some Hv t Ht.
  rewrite Hv in Hfields. destruct Hfields as (Horder & _).
  apply buildDependencyGraph_keys.
  eapply getExecutionOrder_in_graph; [apply buildDependencyGraph_wf|done|done].
Qed.

(** ** Plan statistics *)

Lemma levels_loop_nonempty g order fuel levels processed remaining levels' :
  levels_loop g order fuel levels processed remaining = Some levels' →
  (∀ level, level ∈ levels → level ≠ []) →
  ∀ level, level ∈ levels' → level ≠ [].
Proof.
  revert levels processed remaining.
  induction fuel as [|fuel IH]; intros levels processed remaining Hrun Hne;
    simpl in Hrun; case_decide; try done; [by simplify_eq|by simplify_eq|].
  destruct (currentLevel g order processed) as [|y level] eqn:Hlevel;
    [by simplify_eq|].
  eapply IH; [done|].
  intros l [Hl| ->%list_elem_of_singleton]%elem_of_app; [by apply Hne|done].
Qed.

Lemma valid_plan_levels_nonempty reg targets plan :
  createExecutionPlan reg targets = Some plan → isValid plan = true →
  (∀ level, level ∈ parallelExecutionLevels plan → level ≠ []) ∧
  (executionOrder plan ≠ [] → parallelExecutionLevels plan ≠ []).
Proof.
  intros Hplan Hv.
  destruct (valid_plan_levels _ _ _ Hplan Hv) as (_ & Hsame & _).
  apply createExecutionPlan_Some in Hplan as (_ & _ & _ & _ & Hfields).
  rewrite Hv in Hfields. destruct Hfields as (_ & Hlevels & _).
  split.
  - eapply levels_loop_nonempty; [exact Hlevels|]. by intros l ?%elem_of_nil.
  - intros Horder Hnil. rewrite Hnil in Hsame. simpl in Hsame.
    destruct (executionOrder plan) as [|x order]; [done|].
    assert (x ∈ @nil string) as []%elem_of_nil. apply Hsame. by left.
Qed.

Section real_sums.
Local Open Scope R_scope.

Lemma js_div_Some x y : y ≠ 0 → js_div x y = Some (x / y).
Proof. intros Hy. unfold js_div. by destruct (Req_dec_T y 0). Qed.

Lemma js_div_by_zero x : js_div x 0 = None.
Proof. unfold js_div. by destruct (Req_dec_T 0 0). Qed.

Lemma foldl_Rplus_fmap {A} (f : A → R) (xs : list A) (acc : R) :
  foldl Rplus acc (f <$> xs) = foldl (λ sum x, sum + f x) acc xs.
Proof. revert acc. induction xs as [|x xs IH]; intros acc; csimpl; auto. Qed.

Lemma foldl_Rplus_pos (xs : list R) (acc : R) :
  Forall (λ x, 0 < x) xs → 0 < acc → 0 < foldl Rplus acc xs.
Proof.
  revert acc. induction xs as [|x xs IH]; intros acc Hxs Hacc; simpl; [done|].
  apply Forall_cons in Hxs as [Hx Hxs]. apply IH; [done|lra].
Qed.

Lemma sum_sizes_pos (levels : list (list string)) :
  levels ≠ [] → (∀ level, level ∈ levels → level ≠ []) →
  0 < foldl Rplus 0 ((λ level, INR (length level)) <$> levels).
Proof.
  intros Hne Hlevels. destruct levels as [|l levels]; [done|]. csimpl.
  assert (∀ level : list string, level ≠ [] → 0 < INR (length level)) as Hpos.
  { intros level Hl. apply lt_0_INR. destruct level; [done|simpl; lia]. }
  apply foldl_Rplus_pos.
  - apply Forall_fmap, Forall_forall. intros level Hl. apply Hpos, Hlevels.
    by right.
  - rewrite Rplus_0_l. apply Hpos, Hlevels. by left.
Qed.

(** From two levels on, the code computes the coefficient of variation of
    the level sizes. *)
Lemma calculateConcurrencyVariance_many (levels : list (list string)) :
  (1 < length levels)%nat →
  calculateConcurrencyVariance levels
    = coefficient_of_variation ((λ level, INR (length level)) <$> levels).
Proof.
  intros Hmany. unfold calculateConcurrencyVariance, coefficient_of_variation.
  rewrite decide_False by lia. simpl.
  change (foldl (λ sum c : R, sum + c) 0) with (foldl Rplus 0).
  destruct (js_div _ _) as [mean|]; simpl; [|done].
  by rewrite (foldl_Rplus_fmap (λ x, (x - mean) * ((x - mean) * 1))).
Qed.

(** The coefficient of variation of the level sizes is defined as soon as
    there is a level and no level is empty; for a single level it is 0. *)
Lemma coefficient_of_variation_sizes (levels : list (list string)) :
  levels ≠ [] → (∀ level, level ∈ levels → level ≠ []) →
  ∃ cv,
    coefficient_of_variation ((λ level, INR (length level)) <$> levels) = Some cv ∧
    (length levels = 1%nat → cv = 0).
Proof.
  intros Hne Hlevels.
  pose proof (sum_sizes_pos levels Hne Hlevels) as Hsum.
  assert (0 < INR (length ((λ level, INR (length level)) <$> levels))) as Hlen.
  { rewrite length_fmap. apply lt_0_INR. destruct levels; [done|simpl; lia]. }
  unfold coefficient_of_variation.
  rewrite (js_div_Some _ _ (Rgt_not_eq _ _ Hlen)). simpl.
  rewrite (js_div_Some _ _ (Rgt_not_eq _ _ Hlen)). simpl.
  rewrite js_div_Some by (apply Rgt_not_eq, Rdiv_lt_0_compat; lra).
  eexists. split; [done|]. intros Hone.
  destruct levels as [|l [|l' levels]]; [done| |done]. simpl.
  match goal with |- context [sqrt ?x] => replace x with 0 by field end.
  rewrite sqrt_0. unfold Rdiv. by rewrite Rmult_0_l.
Qed.

Lemma calculateConcurrencyVariance_spec (levels : list (list string)) :
  levels ≠ [] → (∀ level, level ∈ levels → level ≠ []) →
  ∃ cv,
    coefficient_of_variation ((λ level, INR (length level)) <$> levels) = Some cv ∧
    calculateConcurrencyVariance levels = Some cv.
Proof.
  intros Hne Hlevels.
  destruct (coefficient_of_variation_sizes levels Hne Hlevels) as (cv & Hcv & Hone).
  exists cv. split; [done|].
  destruct (decide (1 < length levels)%nat) as [Hmany|Hfew].
  - by rewrite calculateConcurrencyVariance_many.
  - unfold calculateConcurrencyVariance. rewrite decide_True by lia.
    rewrite Hone; [done|]. destruct levels; [done|simpl in *; lia].
Qed.
End real_sums.

(** Claim C8, as the code has it.  For a plan that is not valid all
    statistics are zero.  For a valid plan, whoever made it:
    - [sequentialEstimate] is the plan's [totalBuilders], which is the number
      of entries of [executionOrder] in every plan of the planner;
    - [averageConcurrency] is [totalBuilders] divided by the number of levels
      when [totalBuilders] is positive, and 0 when [totalBuilders] is 0;
    - [complexityScore] is [totalBuilders] times the number of levels times
      [1 + c], where [c] is the coefficient of variation of the level sizes
      when there are at least two levels and 0 when there are fewer (the
      coefficient of variation of one level that is not empty is 0 as well).
    So the formulas of the claim hold for every valid plan of the planner
    that has an entry. *)
Theorem plan_statistics (plan : ExecutionPlan) :
  (isValid plan = false →
     getExecutionPlanStats plan
       = {| sequentialEstimate := 0; stats_parallelLevels := 0;
            averageConcurrency := Some 0%R; dependencyDepth := 0;
            complexityScore := Some 0%R |}) ∧
  (isValid plan = true →
     sequentialEstimate (getExecutionPlanStats plan) = totalBuilders plan ∧
     stats_parallelLevels (getExecutionPlanStats plan)
       = length (parallelExecutionLevels plan) ∧
     dependencyDepth (getExecutionPlanStats plan)
       = length (parallelExecutionLevels plan) ∧
     (0 < totalBuilders plan →
        averageConcurrency (getExecutionPlanStats plan)
          = js_div (INR (totalBuilders plan))
                   (INR (length (parallelExecutionLevels plan)))) ∧
     (totalBuilders plan = 0 →
        averageConcurrency (getExecutionPlanStats plan) = Some 0%R) ∧
     (1 < length (parallelExecutionLevels plan) →
        complexityScore (getExecutionPlanStats plan)
          = (λ cv, INR (totalBuilders plan)
                   * INR (length (parallelExecutionLevels plan)) * (1 + cv))%R
            <$> coefficient_of_variation (level_sizes plan)) ∧
     (length (parallelExecutionLevels plan) ≤ 1 →
        complexityScore (getExecutionPlanStats plan)
          = Some (INR (totalBuilders plan)
                  * INR (length (parallelExecutionLevels plan)) * (1 + 0))%R) ∧
     (∀ level, parallelExecutionLevels plan = [level] → level ≠ [] →
        coefficient_of_variation (level_sizes plan) = Some 0%R) ∧
     (∀ reg targetData,
        createExecutionPlan reg targetData = Some plan →
        sequentialEstimate (getExecutionPlanStats plan)
          = length (executionOrder plan) ∧
        (executionOrder plan ≠ [] →
           length (parallelExecutionLevels plan) ≠ 0 ∧
           averageConcurrency (getExecutionPlanStats plan)
             = Some (INR (totalBuilders plan)
                     / INR (length (parallelExecutionLevels plan)))%R ∧
           ∃ cv,
             coefficient_of_variation (level_sizes plan) = Some cv ∧
             complexityScore (getExecutionPlanStats plan)
               = Some (INR (totalBuilders plan)
                       * INR (length (parallelExecutionLevels plan))
                       * (1 + cv))%R))).
Proof.
  split.
  - intros Hv. unfold getExecutionPlanStats. by rewrite Hv.
  - intros Hv. unfold getExecutionPlanStats. rewrite Hv. simpl.
    split_and!; [done|done|done| | | | | |].
    + intros Hpos. by rewrite decide_True.
    + intros ->. by rewrite decide_False by lia.
    + intros Hmany. by rewrite calculateConcurrencyVariance_many.
    + intros Hfew. unfold calculateConcurrencyVariance. by rewrite decide_True.
    + intros level Hlevels Hlevel. unfold level_sizes. rewrite Hlevels.
      destruct (coefficient_of_variation_sizes [level]) as (cv & -> & Hone);
        [done|by intros l ->%list_elem_of_singleton|].
      by rewrite Hone.
    + intros reg targetData Hplan.
      destruct (valid_plan_levels_nonempty _ _ _ Hplan Hv) as [Hlevels Hsome].
      apply createExecutionPlan_Some in Hplan as (_ & _ & _ & _ & Hfields).
      rewrite Hv in Hfields. destruct Hfields as (_ & _ & Htotal & _).
      split; [done|].
      intros Horder. specialize (Hsome Horder).
      assert (length (parallelExecutionLevels plan) ≠ 0) as Hlen
        by (by destruct (parallelExecutionLevels plan)).
      split_and!; [done| |].
      * rewrite decide_True
          by (rewrite Htotal; destruct (executionOrder plan); [done|simpl; lia]).
        apply js_div_Some. by apply not_0_INR.
      * destruct (calculateConcurrencyVariance_spec _ Hsome Hlevels)
          as (cv & Hcv & ->).
        by exists cv.
Qed.

Lemma plan_statistics_witness :
  ∃ plan,
    createExecutionPlan report_registry ["report"] = Some plan ∧
    sequentialEstimate (getExecutionPlanStats plan) = 4 ∧
    stats_parallelLevels (getExecutionPlanStats plan) = 3 ∧
    averageConcurrency (getExecutionPlanStats plan) = Some (INR 4 / INR 3)%R.
Proof.
  eexists. split; [vm_compute; reflexivity|].
  match goal with |- sequentialEstimate (getExecutionPlanStats ?p) = _ ∧ _ =>
    set (plan := p)
  end.
  destruct (plan_statistics plan) as [_ Hvalid].
  destruct (Hvalid eq_refl) as (_ & Hlevels & _ & _ & _ & _ & _ & _ & Hplanner).
  destruct (Hplanner report_registry ["report"]) as (Hestimate & Hsome);
    [vm_compute; reflexivity|].
  destruct Hsome as (_ & Haverage & _); [discriminate|].
  split; [exact Hestimate|]. split; [exact Hlevels|]. exact Haverage.
Defined.

(** Claim C8 as stated does not hold for every valid plan.  The valid plan
    that the planner makes for an empty target list has no level, so
    "[totalBuilders] divided by the number of parallel levels" and the
    coefficient of variation of the level sizes are not numbers, while the
    code returns 0 for [averageConcurrency] and for [complexityScore].  And
    in a valid plan that was not made by the planner [sequentialEstimate],
    which is read from [totalBuilders], need not be the number of entries of
    [executionOrder]; and if the only level of such a plan is empty, the
    coefficient of variation is not a number either, while the code takes 0
    for it. *)
Lemma average_concurrency_of_empty_plan :
  (∃ plan,
     createExecutionPlan report_registry [] = Some plan ∧
     isValid plan = true ∧
     length (parallelExecutionLevels plan) = 0 ∧
     averageConcurrency (getExecutionPlanStats plan) = Some 0%R ∧
     averageConcurrency (getExecutionPlanStats plan)
       ≠ js_div (INR (totalBuilders plan))
                (INR (length (parallelExecutionLevels plan))) ∧
     coefficient_of_variation (level_sizes plan) = None ∧
     complexityScore (getExecutionPlanStats plan) = Some 0%R) ∧
  (isValid miscounted_plan = true ∧
   sequentialEstimate (getExecutionPlanStats miscounted_plan) = 0 ∧
   length (executionOrder miscounted_plan) = 1) ∧
  (isValid hollow_plan = true ∧
   length (parallelExecutionLevels hollow_plan) = 1 ∧
   coefficient_of_variation (level_sizes hollow_plan) = None ∧
   complexityScore (getExecutionPlanStats hollow_plan) = Some 0%R).
Proof.
  split_and!; [|done|done|done|done|done| |].
  - eexists. split; [vm_compute; reflexivity|].
    split; [reflexivity|]. split; [reflexivity|]. split; [reflexivity|].
    simpl. rewrite js_div_by_zero. split; [discriminate|].
    unfold coefficient_of_variation. simpl. rewrite js_div_by_zero.
    split; [done|]. f_equal. lra.
  - unfold coefficient_of_variation, level_sizes, js_div. simpl.
    destruct (Req_dec_T 1 0) as [|_]; [lra|]. simpl.
    destruct (Req_dec_T 1 0) as [|_]; [lra|]. simpl.
    destruct (Req_dec_T ((0 + 0) / 1) 0) as [|Hne]; [done|]. destruct Hne. lra.
  - simpl. f_equal. lra.
Qed.

(** ** The edges that [buildGraph] records *)

Section graph_edges.

Lemma elem_of_set_add_iff x y s : x ∈ set_add y s ↔ x ∈ s ∨ x = y.
Proof.
  unfold set_add. case_decide.
  - split; [by left|]. by intros [?| ->].
  - by rewrite elem_of_app, list_elem_of_singleton.
Qed.

Lemma deps_addDependency_iff node dependency g k x :
  x ∈ deps (addDependency node dependency g) k ↔
  x ∈ deps g k ∨ (k = node ∧ x = dependency ∧ k ∈ graph_keys g).
Proof.
  rewrite <-getNode_is_Some.
  unfold deps, addDependency. rewrite !getNode_update_node by done.
  repeat case_decide; destruct (getNode g k) as [n|]; simpl;
    rewrite ?elem_of_set_add_iff, ?elem_of_nil;
    split; intros; destruct_or?; destruct_and?; simplify_eq;
    eauto 6; by destruct select (is_Some None).
Qed.

Lemma dependents_addDependency_iff node dependency g k x :
  x ∈ dependents_of (addDependency node dependency g) k ↔
  x ∈ dependents_of g k ∨ (k = dependency ∧ x = node ∧ k ∈ graph_keys g).
Proof.
  rewrite <-getNode_is_Some.
  unfold dependents_of, addDependency. rewrite !getNode_update_node by done.
  repeat case_decide; destruct (getNode g k) as [n|]; simpl;
    rewrite ?elem_of_set_add_iff, ?elem_of_nil;
    split; intros; destruct_or?; destruct_and?; simplify_eq;
    eauto 6; by destruct select (is_Some None).
Qed.

Lemma wire_node_keys g n : graph_keys (wire_node g n) = graph_keys g.
Proof.
  unfold wire_node. generalize (consumes (meta n)). intros cs. revert g.
  induction cs as [|c cs IH]; intros g; simpl; [done|].
  destruct (getNode g c); rewrite IH; [|done].
  apply graph_keys_addDependency.
Qed.

Lemma wire_nodes_keys ns g : graph_keys (foldl wire_node g ns) = graph_keys g.
Proof.
  revert g. induction ns as [|n ns IH]; intros g; simpl; [done|].
  by rewrite IH, wire_node_keys.
Qed.

Lemma deps_wire_node g n k x :
  x ∈ deps (wire_node g n) k ↔
  x ∈ deps g k ∨
  (k = node_key n ∧ x ∈ consumes (meta n) ∧ x ∈ graph_keys g ∧ k ∈ graph_keys g).
Proof.
  unfold wire_node. generalize (consumes (meta n)). intros cs. revert g.
  induction cs as [|c cs IH]; intros g; simpl.
  - rewrite elem_of_nil. tauto.
  - rewrite IH, elem_of_cons. destruct (getNode g c) as [m|] eqn:Hc.
    + assert (c ∈ graph_keys g) by (apply getNode_is_Some; eauto).
      rewrite graph_keys_addDependency, deps_addDependency_iff.
      naive_solver.
    + assert (c ∉ graph_keys g).
      { rewrite <-getNode_is_Some, Hc. by intros [? ?]. }
      naive_solver.
Qed.

Lemma dependents_wire_node g n k x :
  x ∈ dependents_of (wire_node g n) k ↔
  x ∈ dependents_of g k ∨
  (x = node_key n ∧ k ∈ consumes (meta n) ∧ k ∈ graph_keys g).
Proof.
  unfold wire_node. generalize (consumes (meta n)). intros cs. revert g.
  induction cs as [|c cs IH]; intros g; simpl.
  - rewrite elem_of_nil. tauto.
  - rewrite IH, elem_of_cons. destruct (getNode g c) as [m|] eqn:Hc.
    + assert (c ∈ graph_keys g) by (apply getNode_is_Some; eauto).
      rewrite graph_keys_addDependency, dependents_addDependency_iff.
      naive_solver.
    + assert (c ∉ graph_keys g).
      { rewrite <-getNode_is_Some, Hc. by intros [? ?]. }
      naive_solver.
Qed.

Lemma deps_wire_nodes ns g k x :
  x ∈ deps (foldl wire_node g ns) k ↔
  x ∈ deps g k ∨
  ∃ n, n ∈ ns ∧ k = node_key n ∧ x ∈ consumes (meta n) ∧
       x ∈ graph_keys g ∧ k ∈ graph_keys g.
Proof.
  revert g. induction ns as [|n ns IH]; intros g; simpl.
  - split; [by left|]. intros [?|(n & ?%elem_of_nil & _)]; done.
  - rewrite IH, wire_node_keys, deps_wire_node. split.
    + intros [[?|?]|(n' & ? & ?)]; [by left| |].
      * right. exists n. split; [by left|done].
      * right. exists n'. split; [by right|done].
    + intros [?|(n' & [->|?]%elem_of_cons & ?)]; [by left;left|by left; right|].
      right. by exists n'.
Qed.

Lemma dependents_wire_nodes ns g k x :
  x ∈ dependents_of (foldl wire_node g ns) k ↔
  x ∈ dependents_of g k ∨
  ∃ n, n ∈ ns ∧ x = node_key n ∧ k ∈ consumes (meta n) ∧ k ∈ graph_keys g.
Proof.
  revert g. induction ns as [|n ns IH]; intros g; simpl.
  - split; [by left|]. intros [?|(n & ?%elem_of_nil & _)]; done.
  - rewrite IH, wire_node_keys, dependents_wire_node. split.
    + intros [[?|?]|(n' & ? & ?)]; [by left| |].
      * right. exists n. split; [by left|done].
      * right. exists n'. split; [by right|done].
    + intros [?|(n' & [->|?]%elem_of_cons & ?)]; [by left;left|by left; right|].
      right. by exists n'.
Qed.

Lemma dependents_clear_edges g k : dependents_of (clear_edges g) k = [].
Proof.
  unfold dependents_of, clear_edges. induction g as [|n g IH]; simpl; [done|].
  unfold node_key at 1. simpl. fold (node_key n). by case_decide.
Qed.

Lemma elem_of_clear_edges g n :
  n ∈ clear_edges g ↔
  ∃ n0, n0 ∈ g ∧ n = {| meta := meta n0; dependencies := []; dependents := [] |}.
Proof.
  unfold clear_edges. rewrite list_elem_of_fmap. naive_solver.
Qed.

Lemma deps_buildGraph g k x :
  x ∈ deps (buildGraph g) k ↔
  ∃ n, n ∈ g ∧ node_key n = k ∧ x ∈ consumes (meta n) ∧ x ∈ graph_keys g.
Proof.
  unfold buildGraph. rewrite deps_wire_nodes, deps_clear_edges, elem_of_nil.
  rewrite graph_keys_clear_edges. split.
  - intros [[]|(n & (n0 & Hn0 & ->)%elem_of_clear_edges & -> & Hx & Hk & _)].
    by exists n0.
  - intros (n & Hn & <- & Hx & Hk). right.
    exists {| meta := meta n; dependencies := []; dependents := [] |}.
    split_and!; try done.
    + apply elem_of_clear_edges. by exists n.
    + unfold graph_keys. apply list_elem_of_fmap. by exists n.
Qed.

Lemma dependents_buildGraph g k x :
  x ∈ dependents_of (buildGraph g) k ↔
  ∃ n, n ∈ g ∧ node_key n = x ∧ k ∈ consumes (meta n) ∧ k ∈ graph_keys g.
Proof.
  unfold buildGraph.
  rewrite dependents_wire_nodes, dependents_clear_edges, elem_of_nil.
  rewrite graph_keys_clear_edges. split.
  - intros [[]|(n & (n0 & Hn0 & ->)%elem_of_clear_edges & -> & Hx & Hk)].
    by exists n0.
  - intros (n & Hn & <- & Hx & Hk). right.
    exists {| meta := meta n; dependencies := []; dependents := [] |}.
    split_and!; try done. apply elem_of_clear_edges. by exists n.
Qed.

End graph_edges.

Section graph_nodes.

Lemma getNode_snoc g n k :
  getNode (g ++ [n]) k =
  match getNode g k with
  | Some m => Some m
  | None => if decide (node_key n = k) then Some n else None
  end.
Proof.
  induction g as [|m g IH]; simpl; [done|].
  destruct (decide (node_key m = k)); [done|apply IH].
Qed.

Lemma registry_get_provides reg k b :
  registry_get reg k = Some b → builder_provides b = k.
Proof.
  induction reg as [|b' reg IH]; simpl; [done|]. case_decide; naive_solver.
Qed.

Lemma getNode_addBuilders reg g k :
  getNode (foldl (λ g m, addBuilder m g) g (getAllMetadata reg)) k =
  match getNode g k with
  | Some n => Some n
  | None => new_node <$> getMetadata reg k
  end.
Proof.
  revert g. induction reg as [|b reg IH]; intros g; csimpl.
  - by destruct (getNode g k).
  - rewrite IH. unfold addBuilder, getMetadata. simpl.
    destruct (getNode g (builder_provides b)) as [n|] eqn:Hb.
    + destruct (getNode g k) as [m|] eqn:Hk; [done|].
      destruct (decide (builder_provides b = k)); [congruence|done].
    + rewrite getNode_snoc. unfold node_key at 1. simpl.
      destruct (getNode g k) as [m|] eqn:Hk; [done|].
      by destruct (decide (builder_provides b = k)).
Qed.

Lemma addBuilders_NoDup metas g :
  NoDup (graph_keys g) →
  NoDup (graph_keys (foldl (λ g m, addBuilder m g) g metas)).
Proof.
  revert g. induction metas as [|m metas IH]; intros g Hg; simpl; [done|].
  apply IH. unfold addBuilder.
  destruct (getNode g (provides m)) as [n|] eqn:Hm; [done|].
  unfold graph_keys. rewrite fmap_app. apply NoDup_app. split_and!.
  - done.
  - intros x Hx ->%list_elem_of_singleton.
    apply getNode_is_Some in Hx as [? ?]. unfold node_key in *. simpl in *.
    congruence.
  - apply NoDup_singleton.
Qed.

Lemma buildDependencyGraph_NoDup reg :
  NoDup (graph_keys (buildDependencyGraph reg)).
Proof.
  unfold buildDependencyGraph.
  destruct (buildGraph_wf (foldl (λ g m, addBuilder m g) [] (getAllMetadata reg)))
    as [_ ->].
  apply addBuilders_NoDup. constructor.
Qed.

Lemma getNode_NoDup g n :
  NoDup (graph_keys g) → n ∈ g → getNode g (node_key n) = Some n.
Proof.
  unfold graph_keys. induction g as [|m g IH]; csimpl.
  - by intros _ ?%elem_of_nil.
  - intros [Hm Hg]%NoDup_cons [->|Hn]%elem_of_cons; [by case_decide|].
    case_decide as Hk; [|by apply IH].
    destruct Hm. rewrite Hk. apply list_elem_of_fmap. by exists n.
Qed.

Lemma getNode_elem_of g k n : getNode g k = Some n → n ∈ g.
Proof.
  induction g as [|m g IH]; simpl; [done|].
  case_decide; intros; simplify_eq; [by left|]. right. by apply IH.
Qed.

Lemma getNode_meta_update_node k f g k' :
  (∀ n, meta (f n) = meta n) →
  meta <$> getNode (update_node k f g) k' = meta <$> getNode g k'.
Proof.
  intros Hmeta. rewrite getNode_update_node.
  - case_decide; [|done]. destruct (getNode g k'); simpl; [|done].
    by rewrite Hmeta.
  - intros n. unfold node_key. by rewrite Hmeta.
Qed.

Lemma getNode_meta_wire_nodes ns g k :
  meta <$> getNode (foldl wire_node g ns) k = meta <$> getNode g k.
Proof.
  revert g. induction ns as [|n ns IH]; intros g; simpl; [done|].
  rewrite IH. unfold wire_node. generalize (consumes (meta n)). intros cs.
  revert g. induction cs as [|c cs IHcs]; intros g; simpl; [done|].
  rewrite IHcs. destruct (getNode g c); [|done].
  unfold addDependency. by rewrite !getNode_meta_update_node.
Qed.

Lemma getNode_meta_clear_edges g k :
  meta <$> getNode (clear_edges g) k = meta <$> getNode g k.
Proof.
  unfold clear_edges. induction g as [|n g IH]; simpl; [done|].
  unfold node_key at 1. simpl. fold (node_key n).
  destruct (decide (node_key n = k)); [done|apply IH].
Qed.

Lemma getNode_meta_buildGraph g k :
  meta <$> getNode (buildGraph g) k = meta <$> getNode g k.
Proof.
  unfold buildGraph. by rewrite getNode_meta_wire_nodes, getNode_meta_clear_edges.
Qed.

Lemma buildDependencyGraph_meta reg k :
  meta <$> getNode (buildDependencyGraph reg) k = getMetadata reg k.
Proof.
  unfold buildDependencyGraph.
  rewrite getNode_meta_buildGraph, getNode_addBuilders. simpl.
  by destruct (getMetadata reg k).
Qed.

End graph_nodes.

Lemma deps_buildDependencyGraph reg k d :
  d ∈ deps (buildDependencyGraph reg) k ↔
  ∃ b, registry_get reg k = Some b ∧ d ∈ builder_consumes b ∧
       is_Some (registry_get reg d).
Proof.
  pose proof (buildDependencyGraph_meta reg k) as Hmeta.
  unfold deps. destruct (getNode (buildDependencyGraph reg) k) as [n|] eqn:Hn.
  - pose proof (getNode_Some_key _ _ _ Hn) as Hkey.
    assert (d ∈ dependencies n ↔ d ∈ deps (buildDependencyGraph reg) k) as ->
      by (unfold deps; by rewrite Hn).
    unfold buildDependencyGraph at 1. rewrite deps_buildGraph.
    unfold getMetadata in Hmeta.
    destruct (registry_get reg k) as [b|] eqn:Hb; [|done].
    simpl in Hmeta. injection Hmeta as Hmeta.
    assert (∀ x, x ∈ graph_keys (foldl (λ g m, addBuilder m g) [] (getAllMetadata reg))
                 ↔ is_Some (registry_get reg x)) as Hkeys.
    { intros x. rewrite <-buildDependencyGraph_keys. unfold buildDependencyGraph.
      by destruct (buildGraph_wf (foldl (λ g m, addBuilder m g) [] (getAllMetadata reg)))
        as [_ ->]. }
    split.
    + intros (n0 & Hn0 & Hk0 & Hd & Hdk). exists b. split; [done|].
      rewrite <-Hkeys. split; [|done].
      apply getNode_NoDup in Hn0; [|apply addBuilders_NoDup; constructor].
      rewrite Hk0, getNode_addBuilders in Hn0. simpl in Hn0.
      unfold getMetadata in Hn0. rewrite Hb in Hn0. simpl in Hn0.
      by simplify_eq.
    + intros (b' & ? & Hd & Hdk); simplify_eq.
      exists (new_node {| name := builder_name b'; provides := builder_provides b';
                         consumes := builder_consumes b' |}).
      split_and!; [| |done|by apply Hkeys].
      * eapply getNode_elem_of. rewrite getNode_addBuilders. simpl.
        unfold getMetadata. by rewrite Hb.
      * unfold node_key. simpl. by eapply registry_get_provides.
  - unfold getMetadata in Hmeta. destruct (registry_get reg k); [done|].
    rewrite elem_of_nil. naive_solver.
Qed.

(** X1.  The edges of the planner's graph are read off the registry: the node
    of a type depends on exactly those types its builder consumes for which
    a builder is registered, and it carries the builder's metadata. *)
Theorem buildDependencyGraph_edges (reg : BuilderRegistry) (k d : string) :
  (d ∈ deps (buildDependencyGraph reg) k ↔
   ∃ b, registry_get reg k = Some b ∧ d ∈ builder_consumes b ∧
        is_Some (registry_get reg d)) ∧
  meta <$> getNode (buildDependencyGraph reg) k = getMetadata reg k.
Proof.
  split; [apply deps_buildDependencyGraph|apply buildDependencyGraph_meta].
Qed.

(** X2.  [buildGraph] records every edge on both of its ends: a node is among
    the dependents of another exactly when that other node is among its
    dependencies. *)
Theorem buildGraph_dependents_symmetric (g : DependencyGraph) (a d : string) :
  a ∈ dependents_of (buildGraph g) d ↔ d ∈ deps (buildGraph g) a.
Proof. rewrite dependents_buildGraph, deps_buildGraph. naive_solver. Qed.

Section rebuild.

Lemma clear_edges_update_node k f g :
  (∀ n, meta (f n) = meta n) →
  clear_edges (update_node k f g) = clear_edges g.
Proof.
  intros Hmeta. unfold clear_edges. induction g as [|n g IH]; simpl; [done|].
  case_decide; csimpl; [by rewrite Hmeta|by rewrite IH].
Qed.

Lemma clear_edges_wire_nodes ns g :
  clear_edges (foldl wire_node g ns) = clear_edges g.
Proof.
  revert g. induction ns as [|n ns IH]; intros g; simpl; [done|].
  rewrite IH. unfold wire_node. generalize (consumes (meta n)). intros cs.
  revert g. induction cs as [|c cs IHcs]; intros g; simpl; [done|].
  rewrite IHcs. destruct (getNode g c); [|done].
  unfold addDependency. by rewrite !clear_edges_update_node.
Qed.

Lemma clear_edges_idemp g : clear_edges (clear_edges g) = clear_edges g.
Proof.
  unfold clear_edges. rewrite <-list_fmap_compose. by apply list_fmap_ext.
Qed.

End rebuild.

(** X3.  [buildGraph] derives the edges from the metadata of the nodes alone:
    whatever edges the nodes had before are cleared, so two graphs whose
    nodes carry the same metadata are built into the same graph, and the
    node of a type ends up with exactly those types among its dependencies
    that its metadata consume and that have a node.  [buildGraph] keeps the
    nodes and their metadata, and building the graph again changes
    nothing. *)
Theorem buildGraph_idempotent (g : DependencyGraph) :
  buildGraph (buildGraph g) = buildGraph g ∧
  meta <$> buildGraph g = meta <$> g ∧
  (∀ g', meta <$> g' = meta <$> g → buildGraph g' = buildGraph g) ∧
  (∀ k x, x ∈ deps (buildGraph g) k ↔
          ∃ n, n ∈ g ∧ node_key n = k ∧ x ∈ consumes (meta n) ∧ x ∈ graph_keys g).
Proof.
  assert (∀ g1 : DependencyGraph,
            clear_edges g1 = new_node <$> (meta <$> g1)) as Hnew.
  { intros g1. unfold clear_edges. by rewrite <-list_fmap_compose. }
  assert (clear_edges (buildGraph g) = clear_edges g) as Hclear.
  { unfold buildGraph. by rewrite clear_edges_wire_nodes, clear_edges_idemp. }
  split_and!.
  - unfold buildGraph at 1. by rewrite Hclear.
  - transitivity (meta <$> clear_edges (buildGraph g)).
    + unfold clear_edges. rewrite <-list_fmap_compose. by apply list_fmap_ext.
    + rewrite Hclear. unfold clear_edges. rewrite <-list_fmap_compose.
      by apply list_fmap_ext.
  - intros g' Hmeta. unfold buildGraph. by rewrite !Hnew, Hmeta.
  - apply deps_buildGraph.
Qed.

(** ** [detectCycles] reports nothing on an acyclic graph *)

Lemma first_true_all_false {A S} (P : S → Prop)
    (f : A → S → option (bool * S)) l s b s' :
  (∀ x t c t', x ∈ l → P t → f x t = Some (c, t') → c = false ∧ P t') →
  P s → first_true f l s = Some (b, s') → b = false ∧ P s'.
Proof.
  revert s. induction l as [|x l IH]; intros s Hstep Hs Hrun; simpl in *.
  - by simplify_eq.
  - destruct (f x s) as [[c t]|] eqn:Hf; [|done].
    destruct (Hstep x s c t) as [-> Ht]; [by left|done|done|].
    apply (IH t); [|done|done].
    intros y u c u' Hy. apply Hstep. by right.
Qed.

Section dfs_acyclic.
Variable g : DependencyGraph.
Hypothesis Hacyclic : acyclic g.

(** Every node on the recursion stack reaches the node that [dfs] enters, so
    finding that node on the stack closes a cycle. *)
Lemma dfs_acyclic_spec fuel path nodeKey st b st' :
  dfs g fuel path nodeKey st = Some (b, st') →
  cs_cycles st = [] →
  (∀ x, x ∈ cs_recursionStack st → tc (edge g) x nodeKey) →
  b = false ∧ cs_cycles st' = [] ∧ cs_recursionStack st' = cs_recursionStack st.
Proof.
  revert path nodeKey st b st'.
  induction fuel as [|fuel IH]; intros path nodeKey st b st'; [done|].
  simpl. intros Hrun Hcycles Hstack.
  case_decide as Hon; [by destruct (Hacyclic nodeKey); apply Hstack|].
  case_decide as Hvis; [by simplify_eq|].
  destruct (first_true _ _ _) as [[c st2]|] eqn:Hloop; [|done].
  apply (first_true_all_false
           (λ t, cs_cycles t = [] ∧
                 cs_recursionStack t = {[nodeKey]} ∪ cs_recursionStack st))
    in Hloop as (-> & Hcycles2 & Hstack2); [| |done].
  - simplify_eq. simpl. split_and!; [done|done|]. rewrite Hstack2. set_solver.
  - intros d t c2 t2 Hd [Hct Hst] Hdfs.
    apply IH in Hdfs as (-> & ? & Hst'); [|done|].
    + split_and!; [done|done|congruence].
    + intros x. rewrite Hst, elem_of_union, elem_of_singleton.
      intros [->|Hx]; [by apply tc_once|].
      eapply tc_r; [by apply Hstack|done].
Qed.

Lemma detectCycles_acyclic_nil : detectCycles g = Some [].
Proof.
  destruct (detectCycles_is_Some g) as [cycles Hrun]. rewrite Hrun. f_equal.
  unfold detectCycles in Hrun.
  destruct (for_each _ _ _) as [st|] eqn:Hloop; [|done].
  simpl in Hrun. simplify_eq.
  eapply (for_each_inv (λ t, cs_cycles t = [] ∧ cs_recursionStack t = ∅))
    in Hloop as [? _]; [done| |done].
  intros k t t' _ [Hct Hst] Hroot. unfold dfs_root in Hroot.
  case_decide; [by simplify_eq|].
  destruct (dfs _ _ _ _ _) as [[b t2]|] eqn:Hdfs; [|done].
  simpl in Hroot. simplify_eq.
  apply dfs_acyclic_spec in Hdfs as (_ & ? & ?); [|done|].
  - split; congruence.
  - intros x. rewrite Hst. by intros ?%elem_of_empty.
Qed.
End dfs_acyclic.

(** X4.  [detectCycles] is exact: it returns an empty list of reports exactly
    when no node of the graph reaches itself along dependency edges. *)
Theorem detectCycles_exact (g : DependencyGraph) :
  detectCycles g = Some [] ↔ acyclic g.
Proof.
  split; [apply detectCycles_nil_acyclic|apply detectCycles_acyclic_nil].
Qed.

(** ** [findMissingDependencies]: what is reported *)

Lemma for_each_inv_elem {A S} (P : S → Prop) (Q : A → S → Prop)
    (f : A → S → option S) l s s' :
  (∀ x t t', x ∈ l → P t → f x t = Some t' → P t' ∧ Q x t') →
  (∀ x y t t', y ∈ l → P t → Q x t → f y t = Some t' → Q x t') →
  P s → for_each f l s = Some s' → P s' ∧ ∀ x, x ∈ l → Q x s'.
Proof.
  revert s. induction l as [|x l IH]; intros s Hstep Hkeep Hs Hrun; simpl in *.
  - simplify_eq. split; [done|]. by intros ? ?%elem_of_nil.
  - destruct (f x s) as [t|] eqn:Hf; [|done].
    destruct (Hstep x s t) as [Ht Hx]; [by left|done|done|].
    destruct (IH t) as [Hs' Hl]; [| |done|done|].
    { intros y u u' Hy. apply Hstep. by right. }
    { intros y z u u' Hz. apply Hkeep. by right. }
    split; [done|]. intros y [->|Hy]%elem_of_cons; [|by apply Hl].
    eapply (for_each_inv (λ u, P u ∧ Q x u)); [| |exact Hrun]; [|done].
    intros z u u' Hz [Hu Hxu] Hfz. split.
    + eapply Hstep; [by right|done|done].
    + eapply Hkeep; [by right|done|done|done].
Qed.

Lemma NoDup_set_add x s : NoDup s → NoDup (set_add x s).
Proof.
  intros Hs. unfold set_add. case_decide; [done|].
  apply NoDup_app. split_and!; [done| |apply NoDup_singleton].
  by intros y Hy ->%list_elem_of_singleton.
Qed.

Section checkDependencies_correct.
Variable g : DependencyGraph.
Variable R : string → Prop.
Hypothesis HR : ∀ a b, R a → consumes_edge g a b → R b.

Lemma checkDependencies_spec fuel pending nodeKey st st' :
  R nodeKey → check_inv g R pending st →
  checkDependencies g fuel nodeKey st = Some st' →
  check_inv g R pending st' ∧ nodeKey ∈ st'.1 ∧ st.1 ⊆ st'.1.
Proof.
  revert pending nodeKey st st'.
  induction fuel as [|fuel IH]; intros pending nodeKey st st'; [done|].
  simpl. intros Hnode (Hnd & Hmiss & Hreach & Hclosed) Hrun.
  case_decide as Hvis; [by simplify_eq|].
  destruct (getNode g nodeKey) as [n|] eqn:Hn.
  - eapply (for_each_inv_elem
              (λ t, check_inv g R ({[nodeKey]} ∪ pending) t ∧
                    {[nodeKey]} ∪ st.1 ⊆ t.1)
              (λ c t, c ∈ t.1)) in Hrun as [[Hinv Hsub] Hdeps].
    + destruct Hinv as (Hnd' & Hmiss' & Hreach' & Hclosed').
      split_and!; [|set_solver|set_solver].
      split_and!; [done|done|done|].
      intros a b Ha Hpending Hab.
      destruct (decide (a = nodeKey)) as [->|Hne].
      * destruct Hab as (n' & ? & Hb); simplify_eq. by apply Hdeps.
      * eapply Hclosed'; [done|set_solver|done].
    + intros c t t' Hc [Hinv Hsub] Hcall.
      apply (IH ({[nodeKey]} ∪ pending)) in Hcall as (? & ? & ?);
        [|by eapply HR; [|exists n]|done].
      split_and!; [done|set_solver|done].
    + intros c d t t' Hd [Hinv Hsub] Hc Hcall.
      apply (IH ({[nodeKey]} ∪ pending)) in Hcall as (? & ? & ?);
        [|by eapply HR; [|exists n]|done].
      set_solver.
    + split; [|done]. split_and!; simpl; [done| | |].
      * intros x. rewrite Hmiss. split; [set_solver|].
        intros [[->%elem_of_singleton|?]%elem_of_union ?]; [congruence|done].
      * intros x [->%elem_of_singleton|?]%elem_of_union; auto.
      * intros a b Ha Hpending. apply not_elem_of_union in Hpending as [Hne ?].
        intros Hab. apply elem_of_union. right.
        apply (Hclosed a b); [set_solver|done|done].
  - simplify_eq. simpl. split_and!; [|set_solver|set_solver].
    split_and!; simpl.
    + by apply NoDup_set_add.
    + intros x. rewrite elem_of_set_add_iff, Hmiss. split; [|set_solver].
      intros [[? ?]| ->]; [set_solver|]. split; [set_solver|done].
    + intros x [->%elem_of_singleton|?]%elem_of_union; auto.
    + intros a b [->%elem_of_singleton|Ha]%elem_of_union Hpending Hab.
      * destruct Hab as (n & ? & _). congruence.
      * apply elem_of_union. right. eauto.
Qed.
End checkDependencies_correct.

(** When the loop over the targets ends, the visited types are the types
    that a target reaches, and [missing] holds those of them without a
    node. *)
Lemma checkDependencies_targets_spec g fuel targetTypes st :
  for_each (checkDependencies g fuel) targetTypes (∅, []) = Some st →
  NoDup st.2 ∧
  (∀ t, t ∈ st.2 ↔ t ∈ st.1 ∧ getNode g t = None) ∧
  (∀ t, t ∈ st.1 ↔
        ∃ target, target ∈ targetTypes ∧ rtc (consumes_edge g) target t).
Proof.
  intros Hloop.
  set (R := λ x, ∃ target, target ∈ targetTypes ∧ rtc (consumes_edge g) target x).
  assert (∀ a b, R a → consumes_edge g a b → R b) as HR.
  { intros a b (target & ? & ?) Hab. exists target. split; [done|].
    by eapply rtc_r. }
  eapply (for_each_inv_elem (check_inv g R ∅) (λ c t, c ∈ t.1))
    in Hloop as [(Hnd & Hmiss & Hreach & Hclosed) Htargets].
  - split; [done|]. split; [done|]. intros t. split; [apply Hreach|].
    intros (target & Htarget & Hpath). apply Htargets in Htarget.
    induction Hpath as [|a b c Hab _ IH]; [done|].
    apply IH. apply (Hclosed a b); [done|set_solver|done].
  - intros c t t' Hc Hinv Hcall.
    eapply (checkDependencies_spec g R HR) in Hcall as (? & ? & ?);
      [done|by exists c|done].
  - intros c d t t' Hd Hinv Hc Hcall.
    eapply (checkDependencies_spec g R HR) in Hcall as (? & ? & ?);
      [set_solver|by exists d|done].
  - split_and!; simpl; [constructor| | |]; set_solver.
Qed.

Lemma findMissingDependencies_spec g targetTypes missing :
  findMissingDependencies g targetTypes = Some missing →
  NoDup missing ∧
  ∀ t, t ∈ missing ↔
       getNode g t = None ∧
       ∃ target, target ∈ targetTypes ∧ rtc (consumes_edge g) target t.
Proof.
  intros Hrun. unfold findMissingDependencies in Hrun.
  destruct (for_each _ _ _) as [st|] eqn:Hloop; [|done].
  simpl in Hrun. simplify_eq.
  apply checkDependencies_targets_spec in Hloop as (Hnd & Hmiss & Hvisited).
  split; [done|]. intros t. rewrite Hmiss, Hvisited. tauto.
Qed.

(** X5.  [findMissingDependencies] returns, without duplicates, exactly the
    types that have no node and that a target reaches by following what the
    nodes consume (a target without a node is reported itself). *)
Theorem findMissingDependencies_reachable (g : DependencyGraph)
    (targetTypes : list string) :
  ∃ missing,
    findMissingDependencies g targetTypes = Some missing ∧
    NoDup missing ∧
    ∀ t, t ∈ missing ↔
         getNode g t = None ∧
         ∃ target, target ∈ targetTypes ∧ rtc (consumes_edge g) target t.
Proof.
  destruct (findMissingDependencies_is_Some g targetTypes) as [missing Hrun].
  exists missing. split; [done|]. by apply findMissingDependencies_spec.
Qed.

(** ** [getExecutionOrder] on any graph: what is in the order *)

Section visit_any.
Variable g : DependencyGraph.
Variable R : string → Prop.
Hypothesis HR : ∀ a b, R a → edge g a b → R b.

Lemma visit_any_spec fuel pending node st st' :
  R node → visit_inv g R pending st →
  visit g fuel node st = Some st' →
  visit_inv g R pending st' ∧ node ∈ st'.1 ∧ st.1 ⊆ st'.1.
Proof.
  revert pending node st st'.
  induction fuel as [|fuel IH]; intros pending node st st'; [done|].
  simpl. intros Hnode (Hnd & Hres & Hvis & Hpend & Hreach & Hclosed) Hrun.
  case_decide as Hin; [by simplify_eq|].
  destruct (for_each _ _ _) as [st2|] eqn:Hloop; [|done]. simplify_eq.
  eapply (for_each_inv_elem
            (λ t, visit_inv g R ({[node]} ∪ pending) t ∧ {[node]} ∪ st.1 ⊆ t.1)
            (λ d t, d ∈ t.1)) in Hloop as [[Hinv Hsub] Hdeps].
  - destruct Hinv as (Hnd' & Hres' & Hvis' & Hpend' & Hreach' & Hclosed').
    simpl. split_and!; [|set_solver|set_solver].
    assert (node ∉ st2.2) as Hfresh by (intros ?%Hres'; set_solver).
    assert (node ∉ pending) as Hnotpending by (intros ?%Hpend; done).
    split_and!; simpl.
    + apply NoDup_app. split_and!; [done| |apply NoDup_singleton].
      by intros x Hx ->%list_elem_of_singleton.
    + intros x [Hx| ->%list_elem_of_singleton]%elem_of_app.
      * apply Hres' in Hx. set_solver.
      * split; [set_solver|done].
    + intros x Hx. rewrite elem_of_app, list_elem_of_singleton.
      destruct (Hvis' x Hx) as [[->%elem_of_singleton|?]%elem_of_union|?]; auto.
    + set_solver.
    + done.
    + intros a b [Ha| ->%list_elem_of_singleton]%elem_of_app Hab.
      * by eapply Hclosed'.
      * by apply Hdeps.
  - intros d t t' Hd [Hinv Hsub] Hcall.
    apply (IH ({[node]} ∪ pending)) in Hcall as (? & ? & ?);
      [|by eapply HR|done].
    split_and!; [done|set_solver|done].
  - intros c d t t' Hd [Hinv Hsub] Hc Hcall.
    apply (IH ({[node]} ∪ pending)) in Hcall as (? & ? & ?);
      [|by eapply HR|done].
    set_solver.
  - split; [|done]. split_and!; simpl; [done| | | |set_solver|].
    + intros x Hx. apply Hres in Hx as [? ?]. split; [set_solver|].
      apply not_elem_of_union. split; [|done].
      intros ->%elem_of_singleton. done.
    + intros x [?|Hx]%elem_of_union; [left; set_solver|].
      destruct (Hvis x Hx); [left; set_solver|by right].
    + intros x [?|Hx]%elem_of_union; [set_solver|].
      apply elem_of_union. right. by apply Hpend.
    + intros a b Ha Hab. apply elem_of_union. right. by eapply Hclosed.
Qed.
End visit_any.

Lemma getExecutionOrder_spec g targetTypes order :
  getExecutionOrder g targetTypes = Some order →
  NoDup order ∧
  ∀ x, x ∈ order ↔
       ∃ t, t ∈ targetTypes ∧ is_Some (getNode g t) ∧ rtc (edge g) t x.
Proof.
  intros Hrun. unfold getExecutionOrder in Hrun.
  destruct (for_each _ _ _) as [st|] eqn:Hloop; [|done].
  simpl in Hrun. simplify_eq.
  set (R := λ x, ∃ t, t ∈ targetTypes ∧ is_Some (getNode g t) ∧ rtc (edge g) t x).
  assert (∀ a b, R a → edge g a b → R b) as HR.
  { intros a b (t & ? & ? & ?) Hab. exists t. split_and!; [done|done|].
    by eapply rtc_r. }
  eapply (for_each_inv_elem (visit_inv g R ∅)
            (λ t s, is_Some (getNode g t) → t ∈ s.1))
    in Hloop as [(Hnd & Hres & Hvis & _ & Hreach & Hclosed) Htargets].
  - split; [done|]. intros x. split.
    + intros Hx. apply Hreach. by apply Hres.
    + intros (t & Ht & Hnode & Hpath).
      assert (∀ y, y ∈ st.1 → y ∈ st.2) as Hall.
      { intros y Hy. destruct (Hvis y Hy) as [?|?]; [set_solver|done]. }
      apply Hall. specialize (Htargets t Ht Hnode). clear Ht Hnode.
      induction Hpath as [|a b c Hab _ IH]; [done|].
      apply IH. apply (Hclosed a b); [by apply Hall|done].
  - intros t s s' Ht Hinv Hstep. unfold visit_target in Hstep.
    destruct (getNode g t) as [n|] eqn:Hn.
    + eapply (visit_any_spec g R HR) in Hstep as (? & ? & ?); [done| |done].
      exists t. split_and!; [done|by rewrite Hn|done].
    + simplify_eq. split; [done|]. by intros [? ?].
  - intros c t s s' Ht Hinv Hc Hstep Hnode. unfold visit_target in Hstep.
    destruct (getNode g t) as [n|] eqn:Hn; [|by simplify_eq; auto].
    eapply (visit_any_spec g R HR) in Hstep as (? & ? & ?); [set_solver| |done].
    exists t. split_and!; [done|by rewrite Hn|done].
  - split_and!; simpl; [constructor| | | | |]; set_solver.
Qed.

(** X6.  On any graph, cyclic or not, [getExecutionOrder] returns each node
    at most once, and it returns exactly the nodes that a target with a node
    reaches along dependency edges; targets without a node are ignored. *)
Theorem getExecutionOrder_reachable (g : DependencyGraph)
    (targetTypes : list string) :
  ∃ order,
    getExecutionOrder g targetTypes = Some order ∧
    NoDup order ∧
    ∀ x, x ∈ order ↔
         ∃ t, t ∈ targetTypes ∧ is_Some (getNode g t) ∧ rtc (edge g) t x.
Proof.
  destruct (getExecutionOrder_is_Some g targetTypes) as [order Hrun].
  exists order. split; [done|]. by apply getExecutionOrder_spec.
Qed.

(** ** Valid plans, in terms of the registry *)

Lemma consumes_edge_registry reg a c :
  consumes_edge (buildDependencyGraph reg) a c ↔
  ∃ b, registry_get reg a = Some b ∧ c ∈ builder_consumes b.
Proof.
  pose proof (buildDependencyGraph_meta reg a) as Hmeta.
  unfold consumes_edge, getMetadata in *.
  destruct (getNode (buildDependencyGraph reg) a) as [n|],
    (registry_get reg a) as [b|]; simplify_eq/=; [|naive_solver].
  split.
  - intros (n' & ? & Hc); simplify_eq. exists b. split; [done|].
    by rewrite Hmeta in Hc.
  - intros (b' & ? & Hc); simplify_eq. exists n. split; [done|].
    by rewrite Hmeta.
Qed.

Lemma edge_consumes_edge reg a c :
  edge (buildDependencyGraph reg) a c → consumes_edge (buildDependencyGraph reg) a c.
Proof.
  unfold edge. rewrite deps_buildDependencyGraph, consumes_edge_registry.
  naive_solver.
Qed.

Section valid_plans.
Variable reg : BuilderRegistry.
Variable targetData : list string.
Variable plan : ExecutionPlan.
Hypothesis Hplan : createExecutionPlan reg targetData = Some plan.
Hypothesis Hvalid : isValid plan = true.

Lemma valid_plan_fields :
  dependencyGraph plan = buildDependencyGraph reg ∧
  findMissingDependencies (buildDependencyGraph reg) targetData = Some [] ∧
  getExecutionOrder (buildDependencyGraph reg) targetData
    = Some (executionOrder plan) ∧
  calculateParallelLevels (buildDependencyGraph reg) (executionOrder plan)
    = Some (parallelExecutionLevels plan) ∧
  totalBuilders plan = length (executionOrder plan) ∧
  maxConcurrency plan = max_list (length <$> parallelExecutionLevels plan).
Proof.
  destruct (createExecutionPlan_Some _ _ _ Hplan)
    as (Hg & _ & Hmissing & Hv & Hfields).
  rewrite Hvalid in Hv, Hfields. symmetry in Hv.
  apply bool_decide_eq_true in Hv as [_ Hnil]. rewrite Hnil in Hmissing.
  by destruct Hfields as (? & ? & ? & ?).
Qed.

(** Whatever a target needs, directly or not, has a builder. *)
Lemma valid_plan_needed_has_builder t c :
  t ∈ targetData → rtc (consumes_edge (buildDependencyGraph reg)) t c →
  is_Some (registry_get reg c).
Proof.
  intros Ht Hpath. destruct valid_plan_fields as (_ & Hmissing & _).
  apply findMissingDependencies_spec in Hmissing as [_ Hmissing].
  apply buildDependencyGraph_keys, getNode_is_Some.
  destruct (getNode (buildDependencyGraph reg) c) as [n|] eqn:Hc; [by eauto|].
  assert (c ∈ @nil string) as []%elem_of_nil. apply Hmissing. eauto.
Qed.

Lemma valid_plan_entry_needed x :
  x ∈ executionOrder plan →
  ∃ t, t ∈ targetData ∧ rtc (consumes_edge (buildDependencyGraph reg)) t x.
Proof.
  intros Hx. destruct valid_plan_fields as (_ & _ & Horder & _).
  apply getExecutionOrder_spec in Horder as [_ Horder].
  apply Horder in Hx as (t & Ht & _ & Hpath). exists t. split; [done|].
  eapply rtc_subrel; [|done]. intros a b. apply edge_consumes_edge.
Qed.

(** In a valid plan, what the builder of an entry consumes is what the node
    of the entry depends on. *)
Lemma valid_plan_consumes_deps x b c :
  x ∈ executionOrder plan → registry_get reg x = Some b →
  c ∈ builder_consumes b → c ∈ deps (buildDependencyGraph reg) x.
Proof.
  intros Hx Hb Hc. apply deps_buildDependencyGraph. exists b.
  split_and!; [done|done|].
  destruct (valid_plan_entry_needed x Hx) as (t & Ht & Hpath).
  apply (valid_plan_needed_has_builder t); [done|].
  eapply rtc_r; [done|]. apply consumes_edge_registry. eauto.
Qed.

Lemma valid_plan_targets t : t ∈ targetData → t ∈ executionOrder plan.
Proof.
  intros Ht. destruct valid_plan_fields as (_ & _ & Horder & _).
  apply getExecutionOrder_spec in Horder as [_ Horder]. apply Horder.
  exists t. split_and!; [done| |done].
  apply getNode_is_Some, buildDependencyGraph_keys.
  by apply (valid_plan_needed_has_builder t).
Qed.
End valid_plans.

(** X7.  A valid plan, read against the registry: the execution order holds
    every target; every entry is a target or is consumed, directly or
    through other builders, by the builder of a target; and every type
    that the builder of an entry consumes stands before that entry. *)
Theorem valid_plan_consumed_first (reg : BuilderRegistry)
    (targetData : list string) (plan : ExecutionPlan) :
  createExecutionPlan reg targetData = Some plan →
  isValid plan = true →
  (∀ t, t ∈ targetData → t ∈ executionOrder plan) ∧
  (∀ x, x ∈ executionOrder plan →
     ∃ t, t ∈ targetData ∧
       rtc (λ a c, ∃ b, registry_get reg a = Some b ∧ c ∈ builder_consumes b) t x) ∧
  (∀ i x b c,
     executionOrder plan !! i = Some x → registry_get reg x = Some b →
     c ∈ builder_consumes b →
     ∃ j, j < i ∧ executionOrder plan !! j = Some c).
Proof.
  intros Hplan Hv. split_and!.
  - by eapply valid_plan_targets.
  - intros x Hx.
    destruct (valid_plan_entry_needed _ _ _ Hplan Hv x Hx) as (t & Ht & Hpath).
    exists t. split; [done|]. eapply rtc_subrel; [|done].
    intros a c. by rewrite consumes_edge_registry.
  - intros i x b c Hi Hb Hc.
    destruct (valid_plan_order _ _ _ Hplan Hv) as [_ Hresp].
    apply (Hresp i x c Hi).
    destruct (valid_plan_fields _ _ _ Hplan Hv) as (-> & _).
    eapply valid_plan_consumes_deps; [done|done| |done|done].
    by eapply list_elem_of_lookup_2.
Qed.

Lemma valid_plan_consumed_first_witness :
  ∃ plan,
    createExecutionPlan report_registry ["report"] = Some plan ∧
    executionOrder plan = ["user"; "profile"; "userStats"; "report"] ∧
    (∀ t, t ∈ ["report"] → t ∈ executionOrder plan) ∧
    (∀ i x b c,
       executionOrder plan !! i = Some x → registry_get report_registry x = Some b →
       c ∈ builder_consumes b →
       ∃ j, j < i ∧ executionOrder plan !! j = Some c).
Proof.
  eexists. split; [vm_compute; reflexivity|]. split; [reflexivity|].
  match goal with |- (∀ t, _ → t ∈ executionOrder ?p) ∧ _ => set (plan := p) end.
  destruct (valid_plan_consumed_first report_registry ["report"] plan)
    as (Htargets & _ & Hfirst); [vm_compute; reflexivity|reflexivity|].
  split; [exact Htargets|exact Hfirst].
Defined.

(** ** The levels are filled as early as possible *)

Section level_filling.
Variable g : DependencyGraph.
Variable order : list string.

(** Every level is what one pass of the [for] loop selects once the levels
    before it are processed. *)
Lemma levels_loop_each fuel levels processed remaining levels' :
  levels_loop g order fuel levels processed remaining = Some levels' →
  processed = list_to_set (concat levels) →
  (∀ i level, levels !! i = Some level →
     level = currentLevel g order (list_to_set (concat (take i levels)))) →
  ∀ i level, levels' !! i = Some level →
    level = currentLevel g order (list_to_set (concat (take i levels'))).
Proof.
  revert levels processed remaining.
  induction fuel as [|fuel IH]; intros levels processed remaining Hrun Hproc Hall;
    simpl in Hrun; case_decide; try done; [by simplify_eq|by simplify_eq|].
  destruct (currentLevel g order processed) as [|y level] eqn:Hlevel;
    [by simplify_eq|].
  eapply IH; [done| |].
  - rewrite concat_app, list_to_set_app_L. simpl. by rewrite app_nil_r, Hproc.
  - intros i l Hi. destruct (decide (i < length levels)) as [Hlt|Hge].
    + rewrite lookup_app_l in Hi by done.
      rewrite take_app_le by lia. by apply Hall.
    + rewrite lookup_app_r in Hi by lia.
      apply list_lookup_singleton_Some in Hi as [Hi <-].
      assert (i = length levels) as -> by lia.
      rewrite take_app_length. by rewrite <-Hproc.
Qed.

Lemma calculateParallelLevels_each levels i level :
  calculateParallelLevels g order = Some levels →
  levels !! i = Some level →
  level = currentLevel g order (list_to_set (concat (take i levels))).
Proof.
  intros Hrun. eapply levels_loop_each; [done|done|]. by intros j l.
Qed.

Lemma currentLevel_sublist processed :
  sublist (currentLevel g order processed) order.
Proof. apply sublist_filter. Qed.

Lemma calculateParallelLevels_first levels level x :
  calculateParallelLevels g order = Some levels →
  levels !! 0 = Some level →
  x ∈ level ↔ x ∈ order ∧ deps g x = [].
Proof.
  intros Hrun Hlevel.
  rewrite (calculateParallelLevels_each levels 0 level Hrun Hlevel).
  rewrite currentLevel_elem, take_0. change (concat []) with (@nil string).
  rewrite list_to_set_nil. split.
  - intros [[_ Hdeps] ?]. split; [done|].
    destruct (deps g x) as [|d ds]; [done|].
    apply Forall_cons in Hdeps as [[]%elem_of_empty _].
  - intros [? ->]. split; [|done]. split; [set_solver|constructor].
Qed.

Lemma calculateParallelLevels_next levels i level x :
  calculateParallelLevels g order = Some levels →
  levels !! S i = Some level → x ∈ level →
  ∃ level' d, levels !! i = Some level' ∧ d ∈ level' ∧ d ∈ deps g x.
Proof.
  intros Hrun Hlevel Hx.
  assert (is_Some (levels !! i)) as [level' Hlevel'].
  { apply lookup_lt_is_Some. apply lookup_lt_Some in Hlevel. lia. }
  exists level'.
  rewrite (calculateParallelLevels_each levels (S i) level Hrun Hlevel) in Hx.
  apply currentLevel_elem in Hx as [[Hnew Hdeps] Horder].
  rewrite (take_S_r _ _ level') in Hnew, Hdeps by done.
  rewrite concat_app, list_to_set_app_L in Hnew, Hdeps.
  simpl in Hnew, Hdeps. rewrite app_nil_r in Hnew, Hdeps.
  destruct (decide (Forall (λ dep, dep ∈ (list_to_set (concat (take i levels)) : gset string))
                      (deps g x))) as [Hall|Hsome].
  - assert (x ∉ (list_to_set (concat (take i levels)) : gset string)) as Hfresh
      by set_solver.
    destruct Hnew. apply elem_of_union. right. apply elem_of_list_to_set.
    rewrite (calculateParallelLevels_each levels i level' Hrun Hlevel').
    apply currentLevel_elem. by split.
  - apply not_Forall_Exists in Hsome; [|apply _].
    apply Exists_exists in Hsome as (d & Hd & Hearlier).
    exists d. split_and!; [done| |done].
    rewrite Forall_forall in Hdeps. apply Hdeps in Hd. set_solver.
Qed.
End level_filling.

(** X8.  The levels of a valid plan are filled as early as possible: the
    first level holds exactly the planned types without dependencies, every
    member of a later level has a dependency in the level just before it,
    and inside a level the types stand in their execution order. *)
Theorem levels_are_earliest (reg : BuilderRegistry) (targetData : list string)
    (plan : ExecutionPlan) :
  createExecutionPlan reg targetData = Some plan →
  isValid plan = true →
  (∀ level x, parallelExecutionLevels plan !! 0 = Some level →
     x ∈ level ↔ x ∈ executionOrder plan ∧ deps (dependencyGraph plan) x = []) ∧
  (∀ i level x, parallelExecutionLevels plan !! S i = Some level → x ∈ level →
     ∃ level' d, parallelExecutionLevels plan !! i = Some level' ∧
       d ∈ level' ∧ d ∈ deps (dependencyGraph plan) x) ∧
  (∀ level, level ∈ parallelExecutionLevels plan →
     sublist level (executionOrder plan)).
Proof.
  intros Hplan Hv.
  destruct (valid_plan_fields _ _ _ Hplan Hv) as (-> & _ & _ & Hlevels & _).
  split_and!.
  - intros level x Hlevel. by eapply calculateParallelLevels_first.
  - intros i level x. by eapply calculateParallelLevels_next.
  - intros level [i Hi]%list_elem_of_lookup.
    rewrite (calculateParallelLevels_each _ _ _ i level Hlevels Hi).
    apply currentLevel_sublist.
Qed.

Lemma levels_are_earliest_witness :
  ∃ plan,
    createExecutionPlan report_registry ["report"] = Some plan ∧
    parallelExecutionLevels plan
      = [["user"]; ["profile"; "userStats"]; ["report"]] ∧
    (∀ i level x, parallelExecutionLevels plan !! S i = Some level → x ∈ level →
       ∃ level' d, parallelExecutionLevels plan !! i = Some level' ∧
         d ∈ level' ∧ d ∈ deps (dependencyGraph plan) x).
Proof.
  eexists. split; [vm_compute; reflexivity|]. split; [reflexivity|].
  match goal with
  | |- ∀ i level x, parallelExecutionLevels ?p !! _ = _ → _ => set (plan := p)
  end.
  destruct (levels_are_earliest report_registry ["report"] plan)
    as (_ & Hnext & _); [vm_compute; reflexivity|reflexivity|].
  exact Hnext.
Defined.

(** ** The counts of a valid plan *)

Lemma length_concat_sum {A} (ls : list (list A)) :
  length (concat ls) = sum_list (length <$> ls).
Proof.
  induction ls as [|l ls IH]; csimpl; [done|]. by rewrite length_app, IH.
Qed.

(** X9.  The counts of a valid plan agree with its lists: [totalBuilders] is
    the length of the execution order and the sum of the level sizes,
    [maxConcurrency] is the size of a largest level, no level is empty, and
    there are at most as many levels as builders. *)
Theorem plan_counts (reg : BuilderRegistry) (targetData : list string)
    (plan : ExecutionPlan) :
  createExecutionPlan reg targetData = Some plan →
  isValid plan = true →
  totalBuilders plan = length (executionOrder plan) ∧
  totalBuilders plan = sum_list (length <$> parallelExecutionLevels plan) ∧
  (∀ level, level ∈ parallelExecutionLevels plan →
     0 < length level ≤ maxConcurrency plan) ∧
  (parallelExecutionLevels plan ≠ [] →
     ∃ level, level ∈ parallelExecutionLevels plan ∧
       length level = maxConcurrency plan) ∧
  maxConcurrency plan ≤ totalBuilders plan ∧
  length (parallelExecutionLevels plan) ≤ totalBuilders plan.
Proof.
  intros Hplan Hv.
  destruct (valid_plan_fields _ _ _ Hplan Hv) as (_ & _ & _ & _ & Htotal & Hmax).
  destruct (valid_plan_order _ _ _ Hplan Hv) as [Hnd _].
  destruct (valid_plan_levels _ _ _ Hplan Hv) as (Hndl & Hsame & _).
  destruct (valid_plan_levels_nonempty _ _ _ Hplan Hv) as [Hne _].
  assert (totalBuilders plan = sum_list (length <$> parallelExecutionLevels plan))
    as Hsum.
  { rewrite Htotal, <-length_concat_sum. symmetry.
    by apply Permutation_length, NoDup_Permutation. }
  assert (∀ level, level ∈ parallelExecutionLevels plan →
            0 < length level ≤ maxConcurrency plan) as Hsizes.
  { intros level Hlevel. split.
    - specialize (Hne level Hlevel). destruct level; [done|simpl; lia].
    - rewrite Hmax. apply max_list_elem_of_le, list_elem_of_fmap. eauto. }
  split_and!; [done|done|done| | |].
  - intros Hlevels. rewrite Hmax.
    pose proof (max_list_elem_of (length <$> parallelExecutionLevels plan)) as Hin.
    apply list_elem_of_fmap in Hin as (level & -> & ?); [by eauto|].
    by destruct (parallelExecutionLevels plan).
  - rewrite Hsum, Hmax. clear.
    induction (parallelExecutionLevels plan) as [|l ls IH]; csimpl; lia.
  - rewrite Hsum. clear -Hsizes.
    induction (parallelExecutionLevels plan) as [|l ls IH]; csimpl; [lia|].
    assert (0 < length l) by (apply Hsizes; by left).
    assert (length ls ≤ sum_list (length <$> ls)); [|lia].
    apply IH. intros level Hlevel. apply Hsizes. by right.
Qed.

Lemma plan_counts_witness :
  ∃ plan,
    createExecutionPlan report_registry ["report"] = Some plan ∧
    totalBuilders plan = 4 ∧ maxConcurrency plan = 2 ∧
    totalBuilders plan = sum_list (length <$> parallelExecutionLevels plan) ∧
    length (parallelExecutionLevels plan) ≤ totalBuilders plan.
Proof.
  eexists. split; [vm_compute; reflexivity|].
  split; [reflexivity|]. split; [reflexivity|].
  match goal with
  | |- totalBuilders ?p = _ ∧ _ => set (plan := p)
  end.
  destruct (plan_counts report_registry ["report"] plan)
    as (_ & Hsum & _ & _ & _ & Hlevels); [vm_compute; reflexivity|reflexivity|].
  split; [exact Hsum|exact Hlevels].
Defined.

(** ** [analyzeDependencies] *)

Section collect.
Variable g : DependencyGraph.

Lemma collect_is_Some fuel node collected :
  graph_wf g →
  size (key_set g ∖ list_to_set collected) < fuel →
  ∃ collected', collectTransitiveDependencies g fuel node collected = Some collected' ∧
    collected ⊆ collected'.
Proof.
  intros Hwf. revert node collected.
  induction fuel as [|fuel IH]; intros node collected Hfuel; [lia|]. simpl.
  match goal with |- context [for_each ?f ?l ?s] =>
    destruct (for_each_is_Some (λ t, collected ⊆ t) f l s) as (c' & -> & ?)
  end; [|done|by eauto].
  intros d t Hd Ht. case_decide as Hin; [by eauto|].
  destruct (IH d (set_add d t)) as (t' & -> & Hsub).
  - unfold set_add. rewrite decide_False by done.
    assert ((list_to_set (t ++ [d]) : gset string) = {[d]} ∪ list_to_set t) as ->
      by set_solver.
    pose proof (size_unmarked_lt (key_set g) (list_to_set t) d) as Hlt.
    unfold key_set in Hlt at 1. rewrite !elem_of_list_to_set in Hlt.
    specialize (Hlt (Hwf node d Hd) Hin).
    assert (size (key_set g ∖ list_to_set t) ≤ size (key_set g ∖ list_to_set collected))
      by (apply size_unmarked_mono; set_solver).
    lia.
  - eexists. split; [done|]. etrans; [done|]. etrans; [|done].
    unfold set_add. rewrite decide_False by done. set_solver.
Qed.

Lemma collect_grows fuel node collected collected' :
  collectTransitiveDependencies g fuel node collected = Some collected' →
  collected ⊆ collected'.
Proof.
  revert node collected collected'.
  induction fuel as [|fuel IH]; intros node collected collected'; [done|].
  simpl. apply for_each_preorder; [apply _|].
  intros d t t' _. case_decide as Hin; [by intros; simplify_eq|].
  intros Hstep%IH. etrans; [|done].
  unfold set_add. rewrite decide_False by done. set_solver.
Qed.

Lemma collect_spec fuel pending node collected collected' :
  collectTransitiveDependencies g fuel node collected = Some collected' →
  NoDup collected → collected_closed g pending collected →
  collected ⊆ collected' ∧ NoDup collected' ∧
  (∀ b, edge g node b → b ∈ collected') ∧
  collected_closed g pending collected' ∧
  (∀ x, x ∈ collected' → x ∈ collected ∨ tc (edge g) node x).
Proof.
  revert pending node collected collected'.
  induction fuel as [|fuel IH]; intros pending node collected collected'; [done|].
  simpl. intros Hrun Hnd Hclosed.
  eapply (for_each_inv_elem
            (λ t, collected ⊆ t ∧ NoDup t ∧ collected_closed g pending t ∧
                  ∀ x, x ∈ t → x ∈ collected ∨ tc (edge g) node x)
            (λ d t, d ∈ t)) in Hrun as [(? & ? & ? & ?) ?];
    [by split_and!; auto| | |by split_and!; auto].
  - intros d t t' Hd (Hsub & Hndt & Hct & Hsound) Hstep.
    case_decide as Hin; [by simplify_eq|].
    unfold set_add in Hstep. rewrite decide_False in Hstep by done.
    apply (IH ({[d]} ∪ pending)) in Hstep
      as (Hsub' & Hnd' & Hedges' & Hclosed' & Hsound').
    + split; [|set_solver]. split_and!; [set_solver|done| |].
      * intros a b Ha Hpending Hab. destruct (decide (a = d)) as [->|Hne].
        -- by apply Hedges'.
        -- apply (Hclosed' a b); [done|set_solver|done].
      * intros x Hx. destruct (Hsound' x Hx) as [Hx'|Hx'].
        -- apply elem_of_app in Hx' as [?| ->%list_elem_of_singleton]; [auto|].
           right. by apply tc_once.
        -- right. by eapply tc_l.
    + apply NoDup_app. split_and!; [done| |apply NoDup_singleton].
      by intros x Hx ->%list_elem_of_singleton.
    + intros a b Ha Hpending Hab. apply elem_of_app. left.
      apply elem_of_app in Ha as [Ha| ->%list_elem_of_singleton]; [|set_solver].
      apply (Hct a b); [done|set_solver|done].
  - intros c d t t' Hd (Hsub & Hndt & Hct & Hsound) Hc Hstep.
    case_decide as Hin; [by simplify_eq|].
    apply (collect_grows fuel d (set_add d t) t' Hstep).
    unfold set_add. rewrite decide_False by done. set_solver.
Qed.
End collect.

Lemma map_set_fresh {V} k (v : V) m :
  k ∉ m.*1 → map_set k v m = m ++ [(k, v)].
Proof.
  induction m as [|[k' v'] m IH]; csimpl; [done|].
  intros [Hne Hk]%not_elem_of_cons. rewrite decide_False by done.
  by rewrite IH.
Qed.

(** From a node, [collectTransitiveDependencies] gathers what the node
    reaches along one or more dependency edges. *)
Lemma collect_tc g x :
  graph_wf g →
  ∃ all, collectTransitiveDependencies g (S (length g)) x [] = Some all ∧
    NoDup all ∧ ∀ d, d ∈ all ↔ tc (edge g) x d.
Proof.
  intros Hwf.
  destruct (collect_is_Some g (S (length g)) x [] Hwf) as (all & Hrun & _).
  { pose proof (size_key_set g).
    assert (size (key_set g ∖ list_to_set []) ≤ size (key_set g))
      by (apply subseteq_size; set_solver).
    lia. }
  exists all. split; [done|].
  apply (collect_spec g _ ∅) in Hrun as (_ & Hnd & Hedges & Hclosed & Hsound);
    [|constructor|by intros a b ?%elem_of_nil].
  split; [done|]. intros d. split.
  - intros Hd. by destruct (Hsound d Hd) as [?%elem_of_nil|?].
  - assert (∀ y, y ∈ all → tc (edge g) y d → d ∈ all) as Hall.
    { intros y Hy Hpath. induction Hpath as [a b Hab|a b c Hab _ IH].
      - apply (Hclosed a b); [done|set_solver|done].
      - apply IH. apply (Hclosed a b); [done|set_solver|done]. }
    intros Hpath. inversion Hpath as [? ? Hab|? b ? Hab Hrest]; simplify_eq.
    + by apply Hedges.
    + apply (Hall b); [by apply Hedges|done].
Qed.

Section analysis.
Variable g : DependencyGraph.
Variable targetData : list string.
Hypothesis Hwf : graph_wf g.

Lemma analyze_nodes_spec nodes acc a :
  for_each (analyze_node g targetData) nodes acc = Some a →
  NoDup ((directDependencies acc).*1 ++ nodes) →
  NoDup ((transitiveDependencies acc).*1 ++ nodes) →
  NoDup ((dependencyTree acc).*1 ++ nodes) →
  directDependencies a
    = directDependencies acc ++ ((λ x, (x, deps g x)) <$> nodes) ∧
  transitiveDependencies a
    = transitiveDependencies acc ++
      ((λ x, (x, default [] (collectTransitiveDependencies g (S (length g)) x [])))
         <$> nodes) ∧
  dependencyTree a
    = dependencyTree acc ++
      ((λ x, (x, default [] (collectTransitiveDependencies g (S (length g)) x [])))
         <$> nodes) ∧
  leafNodes a
    = leafNodes acc ++
      filter (λ x, dependents_of g x = [] ∧ x ∈ targetData) nodes ∧
  rootNodes a = rootNodes acc ++ filter (λ x, deps g x = []) nodes.
Proof.
  revert acc. induction nodes as [|x nodes IH]; intros acc Hrun Hd Ht Htree.
  - simpl in Hrun. simplify_eq. by rewrite !app_nil_r.
  - simpl in Hrun.
    destruct (analyze_node g targetData x acc) as [acc1|] eqn:Hnode; [|done].
    unfold analyze_node in Hnode.
    destruct (collectTransitiveDependencies g (S (length g)) x []) as [all|] eqn:Hall;
      [|done].
    assert (∀ {V} (m : list (string * V)), NoDup (m.*1 ++ x :: nodes) → x ∉ m.*1)
      as Hfresh.
    { intros V m [_ [Hdisj _]]%NoDup_app Hx. apply (Hdisj x Hx). by left. }
    rewrite !map_set_fresh in Hnode by auto.
    simplify_eq.
    apply IH in Hrun as (-> & -> & -> & -> & ->);
      cbn [directDependencies transitiveDependencies dependencyTree
           leafNodes rootNodes].
    + rewrite !filter_cons, !fmap_cons, Hall, <-!(assoc_L (++)).
      cbn [default].
      split_and!; [done|done|done| |];
        repeat case_decide; try done;
        repeat match goal with
               | H : context [length _ = 0] |- _ => rewrite length_zero_iff_nil in H
               end;
        first [by rewrite <-(assoc_L (++))|naive_solver].
    + by rewrite fmap_app, <-(assoc_L (++)).
    + by rewrite fmap_app, <-(assoc_L (++)).
    + by rewrite fmap_app, <-(assoc_L (++)).
Qed.

Lemma analyze_nodes_is_Some nodes acc :
  is_Some (for_each (analyze_node g targetData) nodes acc).
Proof.
  destruct (for_each_is_Some (λ _, True) (analyze_node g targetData) nodes acc)
    as (a & -> & _); [|done|done].
  intros x t _ _. unfold analyze_node.
  destruct (collect_tc g x Hwf) as (all & -> & _). eauto.
Qed.
End analysis.

(** X10.  [analyzeDependencies] describes the nodes of the execution order,
    in that order: for each of them its direct dependencies and, without
    duplicates, exactly the types it reaches along one or more dependency
    edges; the roots are the nodes without dependencies, the leaves the
    targets that nothing depends on. *)
Theorem analyzeDependencies_spec (reg : BuilderRegistry)
    (targetData : list string) :
  ∃ analysis order,
    analyzeDependencies reg targetData = Some analysis ∧
    getExecutionOrder (buildDependencyGraph reg) targetData = Some order ∧
    directDependencies analysis
      = (λ x, (x, deps (buildDependencyGraph reg) x)) <$> order ∧
    (transitiveDependencies analysis).*1 = order ∧
    (∀ x all, (x, all) ∈ transitiveDependencies analysis →
       NoDup all ∧ ∀ d, d ∈ all ↔ tc (edge (buildDependencyGraph reg)) x d) ∧
    dependencyTree analysis = transitiveDependencies analysis ∧
    rootNodes analysis
      = filter (λ x, deps (buildDependencyGraph reg) x = []) order ∧
    leafNodes analysis
      = filter (λ x, dependents_of (buildDependencyGraph reg) x = [] ∧
                     x ∈ targetData) order.
Proof.
  set (g := buildDependencyGraph reg).
  pose proof (buildDependencyGraph_wf reg : graph_wf g) as Hwf.
  destruct (getExecutionOrder_is_Some g targetData) as [order Horder].
  destruct (getExecutionOrder_spec _ _ _ Horder) as [Hnd _].
  unfold analyzeDependencies. fold g. rewrite Horder.
  match goal with |- context [for_each ?f ?l ?s] =>
    destruct (analyze_nodes_is_Some g targetData Hwf l s) as [a Ha]
  end.
  exists a, order. rewrite Ha. split; [done|]. split; [done|].
  apply (analyze_nodes_spec g targetData) in Ha as (-> & -> & -> & -> & ->);
    [|done|done|done].
  cbn [directDependencies transitiveDependencies dependencyTree
       leafNodes rootNodes app].
  split_and!; [done| |  |done|done|done].
  - rewrite <-list_fmap_compose. by rewrite list_fmap_id.
  - intros x all (y & ? & Hy)%list_elem_of_fmap. simplify_eq.
    destruct (collect_tc g y Hwf) as (all & -> & ? & ?). by simpl.
Qed.

(** ** [removeBuilder] *)

Section remove.

Lemma elem_of_set_delete x y s : x ∈ set_delete y s ↔ x ∈ s ∧ x ≠ y.
Proof. unfold set_delete. rewrite list_elem_of_filter. tauto. Qed.

Lemma deps_removeDependency node dependency g a x :
  x ∈ deps (removeDependency node dependency g) a ↔
  x ∈ deps g a ∧ ¬ (a = node ∧ x = dependency).
Proof.
  unfold deps, removeDependency. rewrite !getNode_update_node by done.
  repeat case_decide; destruct (getNode g a) as [n|]; simpl;
    rewrite ?elem_of_set_delete, ?elem_of_nil; naive_solver.
Qed.

Lemma dependents_removeDependency node dependency g a x :
  x ∈ dependents_of (removeDependency node dependency g) a ↔
  x ∈ dependents_of g a ∧ ¬ (a = dependency ∧ x = node).
Proof.
  unfold dependents_of, removeDependency. rewrite !getNode_update_node by done.
  repeat case_decide; destruct (getNode g a) as [n|]; simpl;
    rewrite ?elem_of_set_delete, ?elem_of_nil; naive_solver.
Qed.

Lemma graph_keys_removeDependency node dependency g :
  graph_keys (removeDependency node dependency g) = graph_keys g.
Proof. unfold removeDependency. by rewrite !graph_keys_update_node. Qed.

Lemma getNode_meta_removeDependency node dependency g a :
  meta <$> getNode (removeDependency node dependency g) a = meta <$> getNode g a.
Proof. unfold removeDependency. by rewrite !getNode_meta_update_node. Qed.

(** The first loop of [removeBuilder]. *)
Lemma remove_dependencies_spec k ds g :
  let g1 := foldl (λ acc d, removeDependency k d acc) g ds in
  graph_keys g1 = graph_keys g ∧
  (∀ a, meta <$> getNode g1 a = meta <$> getNode g a) ∧
  (∀ a x, x ∈ deps g1 a ↔ x ∈ deps g a ∧ ¬ (a = k ∧ x ∈ ds)) ∧
  (∀ a x, x ∈ dependents_of g1 a ↔ x ∈ dependents_of g a ∧ ¬ (a ∈ ds ∧ x = k)).
Proof.
  revert g. induction ds as [|d ds IH]; intros g; simpl.
  - split_and!; [done|done| |]; intros a x; rewrite elem_of_nil; tauto.
  - destruct (IH (removeDependency k d g)) as (-> & Hmeta & Hdeps & Hdependents).
    split_and!.
    + apply graph_keys_removeDependency.
    + intros a. by rewrite Hmeta, getNode_meta_removeDependency.
    + intros a x. rewrite Hdeps, deps_removeDependency, elem_of_cons.
      naive_solver.
    + intros a x.
      rewrite Hdependents, dependents_removeDependency, elem_of_cons.
      naive_solver.
Qed.

(** The second loop of [removeBuilder]. *)
Lemma remove_dependents_spec k ds g :
  let g2 := foldl (λ acc d, removeDependency d k acc) g ds in
  graph_keys g2 = graph_keys g ∧
  (∀ a, meta <$> getNode g2 a = meta <$> getNode g a) ∧
  (∀ a x, x ∈ deps g2 a ↔ x ∈ deps g a ∧ ¬ (a ∈ ds ∧ x = k)) ∧
  (∀ a x, x ∈ dependents_of g2 a ↔ x ∈ dependents_of g a ∧ ¬ (a = k ∧ x ∈ ds)).
Proof.
  revert g. induction ds as [|d ds IH]; intros g; simpl.
  - split_and!; [done|done| |]; intros a x; rewrite elem_of_nil; tauto.
  - destruct (IH (removeDependency d k g)) as (-> & Hmeta & Hdeps & Hdependents).
    split_and!.
    + apply graph_keys_removeDependency.
    + intros a. by rewrite Hmeta, getNode_meta_removeDependency.
    + intros a x. rewrite Hdeps, deps_removeDependency, elem_of_cons.
      naive_solver.
    + intros a x.
      rewrite Hdependents, dependents_removeDependency, elem_of_cons.
      naive_solver.
Qed.

Lemma filter_all {A} (P : A → Prop) `{!∀ x, Decision (P x)} (l : list A) :
  Forall P l → filter P l = l.
Proof.
  induction 1 as [|x l Hx _ IH]; [done|]. by rewrite filter_cons_True, IH.
Qed.

Lemma getNode_filter_ne k g a :
  getNode (filter (λ n, node_key n ≠ k) g) a =
  if decide (a = k) then None else getNode g a.
Proof.
  induction g as [|n g IH]; [simpl; by case_decide|].
  unfold DependencyGraph in *.
  rewrite filter_cons. destruct (decide (node_key n ≠ k)) as [Hne|Heq]; simpl.
  - rewrite IH. repeat case_decide; simplify_eq; done.
  - apply dec_stable in Heq. rewrite IH.
    repeat case_decide; simplify_eq; done.
Qed.

Lemma graph_keys_filter_ne k g :
  graph_keys (filter (λ n, node_key n ≠ k) g) = filter (λ x, x ≠ k) (graph_keys g).
Proof.
  unfold graph_keys, DependencyGraph in *.
  induction g as [|n g IH]; [done|].
  rewrite fmap_cons, !filter_cons. fold (node_key n).
  destruct (decide (node_key n ≠ k)); csimpl; by rewrite IH.
Qed.

Lemma buildGraph_symmetric g a d :
  a ∈ dependents_of (buildGraph g) d ↔ d ∈ deps (buildGraph g) a.
Proof. rewrite dependents_buildGraph, deps_buildGraph. naive_solver. Qed.

End remove.

(** X11.  On a graph whose edges are recorded on both ends (as [buildGraph]
    leaves them), [removeBuilder] reports whether the type had a node,
    removes that node and every edge from or to it, and leaves every other
    node, its metadata and every other edge as they were. *)
Theorem removeBuilder_spec (g : DependencyGraph) (dataType : string) :
  (∀ a d, a ∈ dependents_of g d ↔ d ∈ deps g a) →
  (removeBuilder dataType g).1 = bool_decide (dataType ∈ graph_keys g) ∧
  graph_keys (removeBuilder dataType g).2
    = filter (λ x, x ≠ dataType) (graph_keys g) ∧
  (∀ a, a ≠ dataType →
     meta <$> getNode (removeBuilder dataType g).2 a = meta <$> getNode g a) ∧
  (∀ a x, x ∈ deps (removeBuilder dataType g).2 a ↔
          x ∈ deps g a ∧ a ≠ dataType ∧ x ≠ dataType) ∧
  (∀ a x, x ∈ dependents_of (removeBuilder dataType g).2 a ↔
          x ∈ dependents_of g a ∧ a ≠ dataType ∧ x ≠ dataType).
Proof.
  intros Hsym. unfold removeBuilder.
  destruct (getNode g dataType) as [node|] eqn:Hnode.
  - set (g1 := foldl (λ acc d, removeDependency dataType d acc) g (dependencies node)).
    set (g2 := foldl (λ acc d, removeDependency d dataType acc) g1
                 (dependents_of g1 dataType)).
    destruct (remove_dependencies_spec dataType (dependencies node) g)
      as (Hkeys1 & Hmeta1 & Hdeps1 & Hdependents1). fold g1 in Hkeys1, Hmeta1, Hdeps1, Hdependents1.
    destruct (remove_dependents_spec dataType (dependents_of g1 dataType) g1)
      as (Hkeys2 & Hmeta2 & Hdeps2 & Hdependents2). fold g2 in Hkeys2, Hmeta2, Hdeps2, Hdependents2.
    assert (dependencies node = deps g dataType) as Hnodedeps
      by (unfold deps; by rewrite Hnode).
    unfold nodes_delete. simpl. split_and!.
    + by rewrite Hkeys2, Hkeys1.
    + by rewrite graph_keys_filter_ne, Hkeys2, Hkeys1.
    + intros a Ha. rewrite getNode_filter_ne, decide_False by done.
      by rewrite Hmeta2, Hmeta1.
    + intros a x. unfold deps at 1. rewrite getNode_filter_ne.
      case_decide as Ha; [rewrite elem_of_nil; naive_solver|].
      fold (deps g2 a). rewrite Hdeps2, Hdeps1, Hdependents1, Hnodedeps.
      split; [|naive_solver].
      intros ((Hx & _) & Hnot). split_and!; [done|done|].
      intros ->. apply Hnot. split; [|done]. split; [by apply Hsym|].
      naive_solver.
    + intros a x. unfold dependents_of at 1. rewrite getNode_filter_ne.
      case_decide as Ha; [rewrite elem_of_nil; naive_solver|].
      fold (dependents_of g2 a). rewrite Hdependents2, Hdependents1, Hnodedeps.
      split; [|naive_solver].
      intros ((Hx & Hnot) & _). split_and!; [done|done|].
      intros ->. apply Hnot. split; [|done]. by apply Hsym.
  - assert (dataType ∉ graph_keys g) as Hout.
    { rewrite <-getNode_is_Some, Hnode. by intros [? ?]. }
    simpl. rewrite bool_decide_eq_false_2 by done. split_and!; [done| |done| |].
    + symmetry. apply filter_all, Forall_forall. by intros x ? ->.
    + intros a x. split; [|naive_solver]. intros Hx. split_and!; [done| |].
      * intros ->. unfold deps in Hx. rewrite Hnode in Hx.
        by apply elem_of_nil in Hx.
      * intros ->. apply Hsym in Hx. unfold dependents_of in Hx.
        rewrite Hnode in Hx. by apply elem_of_nil in Hx.
    + intros a x. split; [|naive_solver]. intros Hx. split_and!; [done| |].
      * intros ->. unfold dependents_of in Hx. rewrite Hnode in Hx.
        by apply elem_of_nil in Hx.
      * intros ->. apply Hsym in Hx. unfold deps in Hx. rewrite Hnode in Hx.
        by apply elem_of_nil in Hx.
Qed.

Lemma removeBuilder_spec_witness :
  (removeBuilder "user" (buildDependencyGraph report_registry)).1 = true ∧
  graph_keys (removeBuilder "user" (buildDependencyGraph report_registry)).2
    = ["profile"; "userStats"; "report"] ∧
  deps (removeBuilder "user" (buildDependencyGraph report_registry)).2 "profile"
    = [].
Proof.
  destruct (removeBuilder_spec (buildDependencyGraph report_registry) "user")
    as (Hflag & Hkeys & _).
  - intros a d. apply buildGraph_symmetric.
  - split; [exact Hflag|]. split; [exact Hkeys|reflexivity].
Defined.

(** ** The builder registry *)

Section registry.

Lemma registry_get_set b reg t :
  registry_get (registry_set b reg) t =
  if decide (t = builder_provides b) then Some b else registry_get reg t.
Proof.
  induction reg as [|b' reg IH]; simpl.
  - repeat case_decide; simplify_eq; done.
  - destruct (decide (builder_provides b' = builder_provides b)) as [Heq|Hne]; simpl.
    + repeat case_decide; simplify_eq; congruence.
    + rewrite IH. repeat case_decide; simplify_eq; congruence.
Qed.

Lemma provided_registry_set b reg :
  getProvidedTypes (registry_set b reg) =
  if registry_has reg (builder_provides b) then getProvidedTypes reg
  else getProvidedTypes reg ++ [builder_provides b].
Proof.
  unfold getProvidedTypes, registry_has. induction reg as [|b' reg IH]; csimpl.
  - done.
  - destruct (decide (builder_provides b' = builder_provides b)) as [Heq|Hne]; csimpl.
    + by rewrite Heq.
    + rewrite IH. by destruct (bool_decide _).
Qed.

Lemma registry_get_filter t reg t' :
  registry_get (filter (λ b, builder_provides b ≠ t) reg) t' =
  if decide (t' = t) then None else registry_get reg t'.
Proof.
  unfold BuilderRegistry in *.
  induction reg as [|b reg IH]; [simpl; by case_decide|].
  rewrite filter_cons.
  destruct (decide (builder_provides b ≠ t)) as [Hne|Heq]; simpl.
  - rewrite IH. repeat case_decide; simplify_eq; done.
  - apply dec_stable in Heq. rewrite IH.
    repeat case_decide; simplify_eq; done.
Qed.

Lemma register_Returns b allow reg reg' :
  register b allow reg = (Returns (), reg') →
  reg' = registry_set b reg ∧
  (allow = true ∨ registry_get reg (builder_provides b) = None).
Proof.
  unfold register, registry_has.
  destruct (bool_decide _) eqn:Hhas, allow; simpl; intros; simplify_eq;
    (split; [done|]); [by left|by left|right].
  apply bool_decide_eq_false in Hhas.
  destruct (registry_get reg (builder_provides b)); [|done].
  destruct Hhas. eauto.
Qed.

Lemma registerMany_app pre post allow reg :
  registerMany (pre ++ post) allow reg =
  match registerMany pre allow reg with
  | (Returns _, reg1) => registerMany post allow reg1
  | (Throws e, reg1) => (Throws e, reg1)
  end.
Proof.
  revert reg. induction pre as [|b pre IH]; intros reg; simpl; [done|].
  by destruct (register b allow reg) as [[[]|e] reg0].
Qed.

(** Without overwriting, the builders that [registerMany] got through are
    the ones the registry returns, and what was registered before stays. *)
Lemma registerMany_strict builders reg reg1 :
  registerMany builders false reg = (Returns (), reg1) →
  (∀ b, b ∈ builders → registry_get reg1 (builder_provides b) = Some b) ∧
  (∀ t, is_Some (registry_get reg t) → registry_get reg1 t = registry_get reg t).
Proof.
  revert reg. induction builders as [|b builders IH]; intros reg Hrun; simpl in Hrun.
  - simplify_eq. split; [by intros ? ?%elem_of_nil|done].
  - destruct (register b false reg) as [[[]|e] reg0] eqn:Hb; [|done].
    apply register_Returns in Hb as [-> [?|Hfresh]]; [done|].
    apply IH in Hrun as [Hnew Hold]. split.
    + intros b' [->|Hin]%elem_of_cons; [|by apply Hnew].
      rewrite Hold; rewrite registry_get_set, decide_True by done; eauto.
    + intros t Ht. rewrite Hold; rewrite registry_get_set.
      * case_decide as Heq; [|done]. subst. rewrite Hfresh in Ht. by destruct Ht.
      * case_decide; eauto.
Qed.

(** With overwriting, [registerMany] never throws, and the builder that the
    registry returns for a type is the last one of the list that provides
    it. *)
Lemma registerMany_overwrite builders reg :
  ∃ reg1, registerMany builders true reg = (Returns (), reg1) ∧
    ∀ t, registry_get reg1 t =
         match last (filter (λ b, builder_provides b = t) builders) with
         | Some b => Some b
         | None => registry_get reg t
         end.
Proof.
  revert reg. induction builders as [|b builders IH]; intros reg; simpl.
  - by exists reg.
  - unfold register. rewrite andb_false_r.
    destruct (IH (registry_set b reg)) as (reg1 & -> & Hget).
    exists reg1. split; [done|]. intros t. rewrite Hget, registry_get_set.
    rewrite filter_cons.
    destruct (decide (builder_provides b = t)) as [Heq|Hne].
    + rewrite decide_True by done.
      destruct (filter _ builders) as [|b1 bs] eqn:Hf; [done|].
      rewrite last_cons_cons. destruct (last (b1 :: bs)) eqn:Hl; [done|].
      by apply last_None in Hl.
    + by rewrite decide_False by done.
Qed.
End registry.

(** X20.  [register] and lookup: after a registration that goes through,
    [get] returns the registered builder for its type and what it returned
    before for every other type, and the provided types keep their order (a
    new type goes last, an overwritten one stays in place); registering a
    type that is taken, without [allowOverwrite], throws a
    [DuplicateBuilderError] and leaves the registry as it was. *)
Theorem register_lookup (reg : BuilderRegistry) (b : DataBuilder)
    (allowOverwrite : bool) :
  (registry_get reg (builder_provides b) = None ∨ allowOverwrite = true →
   (register b allowOverwrite reg).1 = Returns () ∧
   registry_get (register b allowOverwrite reg).2 (builder_provides b) = Some b ∧
   (∀ t, t ≠ builder_provides b →
      registry_get (register b allowOverwrite reg).2 t = registry_get reg t) ∧
   getProvidedTypes (register b allowOverwrite reg).2
   = if registry_has reg (builder_provides b) then getProvidedTypes reg
     else getProvidedTypes reg ++ [builder_provides b]) ∧
  (is_Some (registry_get reg (builder_provides b)) → allowOverwrite = false →
   register b allowOverwrite reg
   = (Throws (DuplicateBuilderError (builder_provides b)), reg)).
Proof.
  split.
  - intros Hok.
    assert (register b allowOverwrite reg = (Returns (), registry_set b reg)) as ->.
    { unfold register, registry_has. destruct Hok as [Hnone| ->].
      - rewrite Hnone. by rewrite bool_decide_eq_false_2 by (by intros [? ?]).
      - by rewrite andb_false_r. }
    simpl. split_and!; [done| | |apply provided_registry_set].
    + by rewrite registry_get_set, decide_True.
    + intros t Ht. by rewrite registry_get_set, decide_False.
  - intros Hsome ->. unfold register, registry_has.
    by rewrite bool_decide_eq_true_2.
Qed.

(** X21.  [registerMany] is not all-or-nothing.  Without [allowOverwrite] it
    stops at the first builder whose type is taken and throws the
    [DuplicateBuilderError] of that type, while the builders before it stay
    registered; with [allowOverwrite] it never throws, and for each type the
    last builder of the list wins. *)
Theorem registerMany_partial (reg : BuilderRegistry) (pre post : list DataBuilder)
    (b : DataBuilder) (reg1 : BuilderRegistry) :
  registerMany pre false reg = (Returns (), reg1) →
  is_Some (registry_get reg1 (builder_provides b)) →
  registerMany (pre ++ b :: post) false reg
  = (Throws (DuplicateBuilderError (builder_provides b)), reg1) ∧
  (∀ b', b' ∈ pre → registry_get reg1 (builder_provides b') = Some b') ∧
  ∃ reg2,
    registerMany (pre ++ b :: post) true reg = (Returns (), reg2) ∧
    ∀ t, registry_get reg2 t =
         match last (filter (λ b', builder_provides b' = t) (pre ++ b :: post)) with
         | Some b' => Some b'
         | None => registry_get reg t
         end.
Proof.
  intros Hpre Htaken. split_and!.
  - rewrite registerMany_app, Hpre. simpl. unfold register, registry_has.
    by rewrite bool_decide_eq_true_2.
  - by apply registerMany_strict in Hpre as [? _].
  - apply registerMany_overwrite.
Qed.

Lemma registerMany_partial_witness :
  registerMany [UserBuilder; ProfileBuilder; UserBuilder; ReportBuilder] false []
  = (Throws (DuplicateBuilderError "user"), [UserBuilder; ProfileBuilder]).
Proof.
  apply (registerMany_partial [] [UserBuilder; ProfileBuilder] [ReportBuilder]
           UserBuilder [UserBuilder; ProfileBuilder]).
  - reflexivity.
  - simpl. eauto.
Defined.

(** X22.  [unregister] reports whether the type had a builder; afterwards
    [get] returns nothing for that type and what it returned before for
    every other type; and unregistering a builder that was registered under
    a free type gives back the lookups of the registry before. *)
Theorem unregister_lookup (reg : BuilderRegistry) (dataType : string) :
  (unregister dataType reg).1 = bool_decide (is_Some (registry_get reg dataType)) ∧
  registry_get (unregister dataType reg).2 dataType = None ∧
  (∀ t, t ≠ dataType →
     registry_get (unregister dataType reg).2 t = registry_get reg t) ∧
  (∀ b, builder_provides b = dataType → registry_get reg dataType = None →
     ∀ t, registry_get (unregister dataType (register b false reg).2).2 t
          = registry_get reg t).
Proof.
  unfold unregister. simpl. split_and!.
  - done.
  - by rewrite registry_get_filter, decide_True.
  - intros t Ht. by rewrite registry_get_filter, decide_False.
  - intros b <- Hfree t. rewrite registry_get_filter.
    case_decide as Ht; [by subst|].
    unfold register, registry_has. rewrite Hfree.
    rewrite bool_decide_eq_false_2 by (by intros [? ?]). simpl.
    by rewrite registry_get_set, decide_False.
Qed.

(** ** [checkBuilderAvailability] and the planner *)

Lemma for_each_fmap_sim {A S S'} (proj : S → S') (f : A → S → option S)
    (f' : A → S' → option S') l s :
  (∀ x s, proj <$> f x s = f' x (proj s)) →
  proj <$> for_each f l s = for_each f' l (proj s).
Proof.
  intros Hsim. revert s. induction l as [|x l IH]; intros s; simpl; [done|].
  rewrite <-Hsim. destruct (f x s) as [t|]; simpl; [apply IH|done].
Qed.

Lemma for_each_weaken {A S} (f f' : A → S → option S) l s r :
  (∀ x s r, f x s = Some r → f' x s = Some r) →
  for_each f l s = Some r → for_each f' l s = Some r.
Proof.
  intros Hweak. revert s. induction l as [|x l IH]; intros s; simpl; [done|].
  destruct (f x s) as [t|] eqn:Hf; [|done].
  rewrite (Hweak _ _ _ Hf). apply IH.
Qed.

Lemma checkDependencies_fuel_mono g fuel fuel' nodeKey st r :
  fuel ≤ fuel' →
  checkDependencies g fuel nodeKey st = Some r →
  checkDependencies g fuel' nodeKey st = Some r.
Proof.
  revert fuel' nodeKey st r.
  induction fuel as [|fuel IH]; intros fuel' nodeKey st r Hle; [done|].
  destruct fuel' as [|fuel']; [lia|]. simpl.
  case_decide; [done|]. destruct (getNode g nodeKey); [|done].
  apply for_each_weaken. intros c s r'. apply IH. lia.
Qed.

Lemma length_buildDependencyGraph reg :
  length (buildDependencyGraph reg) ≤ length reg.
Proof.
  rewrite <-(length_fmap node_key), <-(length_fmap builder_provides reg).
  apply submseteq_length, NoDup_submseteq; [apply buildDependencyGraph_NoDup|].
  intros t Ht. fold (graph_keys (buildDependencyGraph reg)) in Ht.
  by apply buildDependencyGraph_keys, registry_get_is_Some in Ht.
Qed.

Section availability.
Variable reg : BuilderRegistry.

(** Leaving [satisfiable] aside, the registry's [checkDependencies] is the
    graph's. *)
Lemma registry_check_sim fuel dataType st :
  (λ r : gset string * list string * list string, r.1)
    <$> registry_checkDependencies reg fuel dataType st
  = checkDependencies (buildDependencyGraph reg) fuel dataType st.1.
Proof.
  revert dataType st. induction fuel as [|fuel IH]; intros dataType st; [done|].
  simpl. case_decide; [done|].
  pose proof (buildDependencyGraph_meta reg dataType) as Hmeta.
  unfold getMetadata in Hmeta.
  destruct (registry_get reg dataType) as [b|],
    (getNode (buildDependencyGraph reg) dataType) as [n|]; simplify_eq/=; [|done].
  rewrite (for_each_fmap_sim _ _
             (checkDependencies (buildDependencyGraph reg) fuel)) by apply IH.
  simpl. by rewrite Hmeta.
Qed.

Lemma registry_check_satisfiable fuel dataType st st' :
  registry_checkDependencies reg fuel dataType st = Some st' →
  (NoDup st.2 ∧ ∀ x, x ∈ st.2 ↔ x ∈ st.1.1 ∧ is_Some (registry_get reg x)) →
  NoDup st'.2 ∧ ∀ x, x ∈ st'.2 ↔ x ∈ st'.1.1 ∧ is_Some (registry_get reg x).
Proof.
  revert dataType st st'.
  induction fuel as [|fuel IH]; intros dataType st st'; [done|].
  simpl. case_decide as Hvis; [by intros; simplify_eq|].
  destruct (registry_get reg dataType) as [b|] eqn:Hb.
  - intros Hloop [Hnd Hs].
    eapply (for_each_inv
              (λ t : gset string * list string * list string,
                 NoDup t.2 ∧ ∀ x, x ∈ t.2 ↔ x ∈ t.1.1 ∧ is_Some (registry_get reg x)));
      [| |exact Hloop].
    + intros c t t' _ Ht Hcall. by eapply IH.
    + simpl. split; [by apply NoDup_set_add|].
      intros x. rewrite elem_of_set_add_iff, Hs, elem_of_union, elem_of_singleton.
      split; [|naive_solver]. intros [[? ?]| ->]; [by auto|]. split; [by left|eauto].
  - intros ? [Hnd Hs]; simplify_eq. simpl. split; [done|].
    intros x. rewrite Hs, elem_of_union, elem_of_singleton.
    split; [naive_solver|]. intros [[->|?] Hx]; [|done].
    rewrite Hb in Hx. by destruct Hx.
Qed.
End availability.

(** X23.  The registry's availability check agrees with the planner: it
    reports the same missing types, in the same order, that
    [createExecutionPlan] puts into [missingBuilders]; it is valid exactly
    when there are none; and its satisfiable types are, without duplicates,
    the types with a builder that a target reaches by following what
    builders consume. *)
Theorem checkBuilderAvailability_agrees (reg : BuilderRegistry)
    (targetTypes : list string) :
  ∃ availability plan,
    checkBuilderAvailability reg targetTypes = Some availability ∧
    createExecutionPlan reg targetTypes = Some plan ∧
    availability_missingBuilders availability = missingBuilders plan ∧
    availability_isValid availability = bool_decide (missingBuilders plan = []) ∧
    NoDup (satisfiableTypes availability) ∧
    ∀ t, t ∈ satisfiableTypes availability ↔
         is_Some (registry_get reg t) ∧
         ∃ target, target ∈ targetTypes ∧
           rtc (λ a c, ∃ b, registry_get reg a = Some b ∧ c ∈ builder_consumes b)
             target t.
Proof.
  destruct (createExecutionPlan_is_Some reg targetTypes) as [plan Hplan].
  pose proof (createExecutionPlan_Some _ _ _ Hplan) as (_ & _ & Hmissing & _).
  unfold findMissingDependencies in Hmissing.
  destruct (for_each _ _ _) as [[visited missing]|] eqn:Hgraph; [|done].
  simpl in Hmissing. simplify_eq.
  eapply (for_each_weaken _
            (checkDependencies (buildDependencyGraph reg) (S (length reg))))
    in Hgraph.
  2:{ intros c s r. apply checkDependencies_fuel_mono.
      pose proof (length_buildDependencyGraph reg). lia. }
  assert ((λ r : gset string * list string * list string, r.1)
            <$> for_each (registry_checkDependencies reg (S (length reg)))
                  targetTypes (∅, [], [])
          = Some (visited, missingBuilders plan)) as Hsim.
  { rewrite <-Hgraph.
    exact (for_each_fmap_sim (λ r : gset string * list string * list string, r.1)
             (registry_checkDependencies reg (S (length reg)))
             (checkDependencies (buildDependencyGraph reg) (S (length reg)))
             targetTypes (∅, [], [])
             (registry_check_sim reg (S (length reg)))). }
  unfold checkBuilderAvailability.
  destruct (for_each (registry_checkDependencies reg (S (length reg))) targetTypes
              (∅, [], [])) as [[[visited' missing'] satisfiable]|] eqn:Hreg; [|done].
  simpl in Hsim. simplify_eq.
  eexists _, plan. split; [done|]. split; [done|]. simpl.
  split; [congruence|]. split.
  { apply bool_decide_ext. rewrite length_zero_iff_nil. split; congruence. }
  assert (NoDup satisfiable ∧
          ∀ x, x ∈ satisfiable ↔ x ∈ visited ∧ is_Some (registry_get reg x))
    as [Hnd Hsat].
  { eapply (for_each_inv
              (λ t : gset string * list string * list string,
                 NoDup t.2 ∧ ∀ x, x ∈ t.2 ↔ x ∈ t.1.1 ∧ is_Some (registry_get reg x)))
      in Hreg; [done| |].
    - intros c t t' _ Ht Hcall. by eapply registry_check_satisfiable.
    - simpl. split; [constructor|]. set_solver. }
  split; [done|]. intros t. rewrite Hsat.
  apply checkDependencies_targets_spec in Hgraph as (_ & _ & Hvisited).
  simpl in Hvisited. rewrite Hvisited.
  assert (∀ a c, consumes_edge (buildDependencyGraph reg) a c ↔
                 ∃ b, registry_get reg a = Some b ∧ c ∈ builder_consumes b) as Hedge
    by apply consumes_edge_registry.
  split.
  - intros [(target & ? & Hpath) ?]. split; [done|]. exists target. split; [done|].
    eapply rtc_subrel; [|done]. intros a c. by rewrite Hedge.
  - intros [? (target & ? & Hpath)]. split; [|done]. exists target. split; [done|].
    eapply rtc_subrel; [|done]. intros a c. by rewrite Hedge.
Qed.

(** ** [validateRegistry] *)

Lemma elem_of_getConsumedTypes reg c :
  c ∈ getConsumedTypes reg ↔ ∃ b, b ∈ reg ∧ c ∈ builder_consumes b.
Proof.
  unfold getConsumedTypes.
  assert (∀ cs acc,
            c ∈ foldl (λ acc c', set_add c' acc) acc cs ↔ c ∈ acc ∨ c ∈ cs) as Hinner.
  { induction cs as [|c' cs IH]; intros acc; simpl.
    - rewrite elem_of_nil. tauto.
    - rewrite IH, elem_of_set_add_iff, elem_of_cons. naive_solver. }
  assert (∀ acc,
            c ∈ foldl (λ acc b, foldl (λ acc c', set_add c' acc) acc (builder_consumes b))
                  acc reg ↔ c ∈ acc ∨ ∃ b, b ∈ reg ∧ c ∈ builder_consumes b) as Houter.
  { induction reg as [|b reg' IH]; intros acc; simpl.
    - split; [by left|]. intros [?|(b & ?%elem_of_nil & _)]; done.
    - rewrite IH, Hinner. split.
      + intros [[?|?]|(b' & ? & ?)]; [by left| |].
        * right. exists b. split; [by left|done].
        * right. exists b'. split; [by right|done].
      + intros [?|(b' & [->|?]%elem_of_cons & ?)]; [by left; left|by left; right|].
        right. by exists b'. }
  rewrite Houter, elem_of_nil. tauto.
Qed.

(** X24.  [validateRegistry] finds the registry valid exactly when every
    type that a builder consumes is provided by a builder; for such a
    registry a plan lacks a builder only for a target that has none: every
    plan for targets with builders has no missing builder. *)
Theorem validateRegistry_spec (reg : BuilderRegistry) :
  (validation_isValid (validateRegistry reg) = true ↔
   ∀ b c, b ∈ reg → c ∈ builder_consumes b → is_Some (registry_get reg c)) ∧
  (validation_isValid (validateRegistry reg) = true →
   ∀ targetData plan,
     createExecutionPlan reg targetData = Some plan →
     (∀ t, t ∈ targetData → is_Some (registry_get reg t)) →
     missingBuilders plan = []).
Proof.
  assert (validation_isValid (validateRegistry reg) = true ↔
          ∀ b c, b ∈ reg → c ∈ builder_consumes b → is_Some (registry_get reg c))
    as Hvalid.
  { unfold validateRegistry. simpl.
    set (unsatisfied := filter (λ type, type ∉ getProvidedTypes reg)
                          (getConsumedTypes reg)).
    assert (unsatisfied = [] ↔
            ∀ b c, b ∈ reg → c ∈ builder_consumes b → is_Some (registry_get reg c))
      as <-.
    { split.
      - intros Hnil b c Hb Hc. apply registry_get_is_Some.
        destruct (decide (c ∈ builder_provides <$> reg)) as [|Hout]; [done|].
        assert (c ∈ unsatisfied) as Hin.
        { apply list_elem_of_filter. split; [done|].
          apply elem_of_getConsumedTypes. eauto. }
        rewrite Hnil in Hin. by apply elem_of_nil in Hin.
      - intros Hall. destruct unsatisfied as [|c cs] eqn:Hu; [done|].
        assert (c ∈ unsatisfied) as Hin by (rewrite Hu; by left).
        apply list_elem_of_filter in Hin as [Hout (b & Hb & Hc)%elem_of_getConsumedTypes].
        destruct Hout. apply registry_get_is_Some. eauto. }
    rewrite bool_decide_eq_true. destruct unsatisfied; simpl; [done|].
    done. }
  split; [done|].
  intros Hv targetData plan Hplan Htargets.
  pose proof (proj1 Hvalid Hv) as Hall.
  pose proof (createExecutionPlan_Some _ _ _ Hplan) as (_ & _ & Hmissing & _).
  apply findMissingDependencies_spec in Hmissing as [_ Hmissing].
  destruct (missingBuilders plan) as [|m ms]; [done|].
  destruct (proj1 (Hmissing m)) as [Hnone (target & Htarget & Hpath)]; [by left|].
  assert (is_Some (registry_get reg m)) as Hm.
  { apply Htargets in Htarget. clear Hnone Hmissing.
    induction Hpath as [|a c d Hac _ IH]; [done|]. apply IH.
    apply consumes_edge_registry in Hac as (b & Hb & Hc).
    apply (Hall b c); [|done].
    clear -Hb. induction reg as [|b' reg' IH]; simpl in Hb; [done|].
    case_decide; simplify_eq; [by left|]. right. by apply IH. }
  apply buildDependencyGraph_keys, getNode_is_Some in Hm.
  rewrite Hnone in Hm. by destruct Hm.
Qed.

(** ** The per-builder step *)

Section await_loops.
Context {A S : Type}.

Lemma for_each_await_app (f : A → S → Settled S) l1 l2 s :
  for_each_await f (l1 ++ l2) s =
  match for_each_await f l1 s with
  | Resolved s' => for_each_await f l2 s'
  | Rejected e => Rejected e
  | Pending => Pending
  end.
Proof.
  revert s. induction l1 as [|x l1 IH]; intros s; simpl; [done|].
  destruct (f x s); auto.
Qed.

Lemma for_each_await_inv (P : S → Prop) (f : A → S → Settled S) l s s' :
  (∀ x t t', x ∈ l → P t → f x t = Resolved t' → P t') →
  P s → for_each_await f l s = Resolved s' → P s'.
Proof.
  revert s. induction l as [|x l IH]; intros s Hstep Hs Hrun; simpl in *.
  - by simplify_eq.
  - destruct (f x s) as [t| |] eqn:Hf; [|done|done].
    apply (IH t); [|by eapply Hstep; [left| |]|done].
    intros y u u' Hy. apply Hstep. by right.
Qed.

Lemma for_each_await_Resolved (P : S → Prop) (f : A → S → Settled S) l s :
  (∀ x t, x ∈ l → P t → ∃ t', f x t = Resolved t' ∧ P t') →
  P s → ∃ s', for_each_await f l s = Resolved s' ∧ P s'.
Proof.
  revert s. induction l as [|x l IH]; intros s Hstep Hs; simpl.
  - eauto.
  - destruct (Hstep x s) as (t & -> & Ht); [by left|done|].
    apply IH; [|done]. intros y u Hy. apply Hstep. by right.
Qed.
End await_loops.

Lemma timer_delay_le timeoutMs :
  timeoutMs ≠ 0%N → 1 ≤ timer_delay timeoutMs ≤ N.to_nat timeoutMs.
Proof. unfold timer_delay. intros Hms. case_decide; lia. Qed.

Lemma apply_timeout_Fulfils options dataType promise elapsed value :
  apply_timeout options dataType promise = Fulfils elapsed value →
  promise = Fulfils elapsed value.
Proof.
  unfold apply_timeout, withTimeout.
  destruct (builderTimeout options) as [ms|]; [|done].
  case_decide; [done|]. destruct promise; [| |done]; by case_decide.
Qed.

Lemma build_failed_cases options builder t busy settles thrown :
  build_failed options builder t busy settles thrown =
  if continueOnError options then
    StepContinued busy settles
      ("Builder " +:+ builder_name builder +:+ " failed for " +:+ t
       +:+ ", continuing execution:", message (to_error thrown))
      {| dataType := t; skipped := false; result := None; executionTime := 0 |}
  else
    StepFailed busy settles
      (BuilderExecutionError (builder_name builder) t (to_error thrown)).
Proof. done. Qed.

(** The step of a type that is not in the dataset and has a builder, by the
    way the call of [build] ends. *)
Lemma executeBuilder_build reg options t ds builder :
  ds !! t = None → registry_get reg t = Some builder →
  executeBuilder reg options t ds =
  match build builder ds with
  | BuildThrows busy thrown => build_failed options builder t busy DuringCall thrown
  | BuildReturns busy buildPromise =>
      match apply_timeout options t buildPromise with
      | Fulfils elapsed value => StepBuilt busy elapsed value
      | RejectsWith elapsed thrown =>
          build_failed options builder t busy (Awaited elapsed) thrown
      | NeverSettles => StepHung busy
      end
  end.
Proof. unfold executeBuilder. by intros -> ->. Qed.

(** The cases of [executeBuilder], read backwards. *)
Lemma executeBuilder_cases reg options t ds :
  (is_Some (ds !! t) ∧
   executeBuilder reg options t ds
   = StepSkipped {| dataType := t; skipped := true; result := None;
                    executionTime := 0 |}) ∨
  (ds !! t = None ∧ registry_get reg t = None ∧
   executeBuilder reg options t ds
   = StepNoBuilder (Error ("No builder found for data type: " +:+ t))) ∨
  (ds !! t = None ∧
   ∃ builder, registry_get reg t = Some builder ∧
     ((∃ busy elapsed value,
         build builder ds = BuildReturns busy (Fulfils elapsed value) ∧
         executeBuilder reg options t ds = StepBuilt busy elapsed value) ∨
      (∃ busy promise,
         build builder ds = BuildReturns busy promise ∧
         apply_timeout options t promise = NeverSettles ∧
         executeBuilder reg options t ds = StepHung busy) ∨
      (∃ busy settles thrown,
         build_throws options t (build builder ds) thrown ∧
         executeBuilder reg options t ds
         = build_failed options builder t busy settles thrown))).
Proof.
  destruct (ds !! t) as [v|] eqn:Hds.
  { left. split; [by eauto|]. unfold executeBuilder. by rewrite Hds. }
  right. destruct (registry_get reg t) as [b|] eqn:Hb.
  2:{ left. split_and!; [done|done|]. unfold executeBuilder. by rewrite Hds, Hb. }
  right. split; [done|]. exists b. split; [done|].
  rewrite (executeBuilder_build _ _ _ _ _ Hds Hb).
  destruct (build b ds) as [busy promise|busy thrown] eqn:Hbuild.
  - destruct (apply_timeout options t promise) as [el v|el thrown|] eqn:Hp.
    + left. exists busy, el, v. split; [|done].
      by rewrite (apply_timeout_Fulfils _ _ _ _ _ Hp).
    + right. right. exists busy, (Awaited el), thrown. split; [|done].
      simpl. by exists el.
    + right. left. by exists busy, promise.
  - right. right. by exists busy, DuringCall, thrown.
Qed.

Lemma executeBuilder_Skipped reg options t ds r :
  executeBuilder reg options t ds = StepSkipped r →
  is_Some (ds !! t) ∧
  r = {| dataType := t; skipped := true; result := None; executionTime := 0 |}.
Proof.
  destruct (executeBuilder_cases reg options t ds)
    as [[? ->]|[(_ & _ & ->)|(_ & b & _ & [(? & ? & ? & _ & ->)
       |[(? & ? & _ & _ & ->)|(? & ? & ? & _ & ->)]])]];
    rewrite ?build_failed_cases; try done.
  - intros; by simplify_eq.
  - by case_match.
Qed.

Lemma executeBuilder_NoBuilder reg options t ds e :
  executeBuilder reg options t ds = StepNoBuilder e →
  ds !! t = None ∧ registry_get reg t = None ∧
  e = Error ("No builder found for data type: " +:+ t).
Proof.
  destruct (executeBuilder_cases reg options t ds)
    as [[? ->]|[(? & ? & ->)|(_ & b & _ & [(? & ? & ? & _ & ->)
       |[(? & ? & _ & _ & ->)|(? & ? & ? & _ & ->)]])]];
    rewrite ?build_failed_cases; try done.
  - intros; by simplify_eq.
  - by case_match.
Qed.

Lemma executeBuilder_Built reg options t ds busy elapsed value :
  executeBuilder reg options t ds = StepBuilt busy elapsed value →
  ds !! t = None ∧
  ∃ builder, registry_get reg t = Some builder ∧
    build builder ds = BuildReturns busy (Fulfils elapsed value).
Proof.
  destruct (executeBuilder_cases reg options t ds)
    as [[? ->]|[(? & ? & ->)|(? & b & ? & [(? & ? & ? & ? & ->)
       |[(? & ? & _ & _ & ->)|(? & ? & ? & _ & ->)]])]];
    rewrite ?build_failed_cases; try done.
  - intros; simplify_eq. eauto.
  - by case_match.
Qed.

Lemma executeBuilder_Continued reg options t ds busy settles warning r :
  executeBuilder reg options t ds = StepContinued busy settles warning r →
  ds !! t = None ∧ continueOnError options = true ∧ result r = None ∧
  ∃ builder thrown, registry_get reg t = Some builder ∧
    build_throws options t (build builder ds) thrown ∧
    warning = ("Builder " +:+ builder_name builder +:+ " failed for " +:+ t
               +:+ ", continuing execution:", message (to_error thrown)).
Proof.
  destruct (executeBuilder_cases reg options t ds)
    as [[? ->]|[(? & ? & ->)|(? & b & ? & [(? & ? & ? & ? & ->)
       |[(? & ? & _ & _ & ->)|(? & ? & thrown & ? & ->)]])]];
    rewrite ?build_failed_cases; try done.
  destruct (continueOnError options); [|done].
  intros; simplify_eq. split_and!; try done. by exists b, thrown.
Qed.

Lemma executeBuilder_Failed reg options t ds busy settles e :
  executeBuilder reg options t ds = StepFailed busy settles e →
  ds !! t = None ∧ continueOnError options = false ∧
  ∃ builder thrown, registry_get reg t = Some builder ∧
    build_throws options t (build builder ds) thrown ∧
    e = BuilderExecutionError (builder_name builder) t (to_error thrown).
Proof.
  destruct (executeBuilder_cases reg options t ds)
    as [[? ->]|[(? & ? & ->)|(? & b & ? & [(? & ? & ? & ? & ->)
       |[(? & ? & _ & _ & ->)|(? & ? & thrown & ? & ->)]])]];
    rewrite ?build_failed_cases; try done.
  destruct (continueOnError options); [done|].
  intros; simplify_eq. split_and!; try done. by exists b, thrown.
Qed.

Lemma executeBuilder_Hung reg options t ds busy :
  executeBuilder reg options t ds = StepHung busy →
  ds !! t = None ∧
  ∃ builder promise, registry_get reg t = Some builder ∧
    build builder ds = BuildReturns busy promise ∧
    apply_timeout options t promise = NeverSettles.
Proof.
  destruct (executeBuilder_cases reg options t ds)
    as [[? ->]|[(? & ? & ->)|(? & b & ? & [(? & ? & ? & ? & ->)
       |[(? & promise & ? & ? & ->)|(? & ? & thrown & ? & ->)]])]];
    rewrite ?build_failed_cases; try done.
  - intros; simplify_eq. split; [done|]. by exists b, promise.
  - by case_match.
Qed.

(** The forward direction, for the three cases the claims are about. *)
Lemma executeBuilder_contains reg options t ds v :
  ds !! t = Some v →
  executeBuilder reg options t ds =
  StepSkipped {| dataType := t; skipped := true; result := None; executionTime := 0 |}.
Proof. unfold executeBuilder. by intros ->. Qed.

Lemma executeBuilder_missing reg options t ds :
  ds !! t = None → registry_get reg t = None →
  executeBuilder reg options t ds =
  StepNoBuilder (Error ("No builder found for data type: " +:+ t)).
Proof. unfold executeBuilder. by intros -> ->. Qed.

Lemma executeBuilder_throws reg options t ds builder thrown :
  ds !! t = None → registry_get reg t = Some builder →
  build_throws options t (build builder ds) thrown →
  ∃ busy settles,
    executeBuilder reg options t ds
    = build_failed options builder t busy settles thrown.
Proof.
  intros Hds Hb Hthrows. rewrite (executeBuilder_build _ _ _ _ _ Hds Hb).
  destruct (build builder ds) as [busy promise|busy error]; simpl in Hthrows.
  - destruct Hthrows as [elapsed ->]. by exists busy, (Awaited elapsed).
  - subst. by exists busy, DuringCall.
Qed.

(** With an honest registry a step writes at most its own key, and only
    when that key is not there yet. *)
Lemma step_value_honest reg options t ds d :
  honest_registry reg →
  step_value (executeBuilder reg options t ds) = Some d →
  type d = t ∧ ds !! t = None.
Proof.
  intros Hhonest Hd.
  destruct (executeBuilder reg options t ds) as [r|e|b el v|b s wn r|b s e|b]
    eqn:Hstep; simplify_eq/=.
  - apply executeBuilder_Skipped in Hstep as [_ ->]. done.
  - apply executeBuilder_Built in Hstep as (Hds & b' & Hb & Hbuild).
    split; [|done]. by eapply Hhonest.
  - apply executeBuilder_Continued in Hstep as (_ & _ & Hnone & _). congruence.
Qed.

Lemma only_adds_refl keys ds : only_adds keys ds ds.
Proof. by split. Qed.

Lemma only_adds_trans keys1 keys2 ds1 ds2 ds3 :
  only_adds keys1 ds1 ds2 → only_adds keys2 ds2 ds3 →
  only_adds (keys1 ++ keys2) ds1 ds3.
Proof.
  intros [Hsub1 Hf1] [Hsub2 Hf2]. split; [by etrans|].
  intros k Hk. rewrite elem_of_app in Hk.
  rewrite Hf2, Hf1; [done|tauto|tauto].
Qed.

Lemma only_adds_insert t d ds :
  ds !! t = None → only_adds [t] ds (<[t := d]> ds).
Proof.
  intros Hds. split; [by apply insert_subseteq|].
  intros k Hk. apply lookup_insert_ne. intros ->. apply Hk. by left.
Qed.

Lemma only_adds_weaken keys keys' ds ds' :
  (∀ k, k ∈ keys → k ∈ keys') → only_adds keys ds ds' → only_adds keys' ds ds'.
Proof. intros Hsub [? Hf]. split; [done|]. intros k Hk. apply Hf. eauto. Qed.

(** ** The sequential strategy *)

Lemma sequential_step_Resolved reg options t ds w ds' w' :
  sequential_step reg options t (ds, w) = Resolved (ds', w') →
  rejection (executeBuilder reg options t ds) = None ∧
  is_hung (executeBuilder reg options t ds) = false ∧
  ds' = add_result (step_value (executeBuilder reg options t ds)) ds ∧
  w' = step_settle t (clock w) (executeBuilder reg options t ds)
         (tick (step_elapsed (executeBuilder reg options t ds))
            (step_call t (executeBuilder reg options t ds) w)).
Proof.
  unfold sequential_step. simpl.
  destruct (executeBuilder reg options t ds); intros; by simplify_eq.
Qed.

Lemma add_result_honest reg options t ds :
  honest_registry reg →
  only_adds [t] ds (add_result (step_value (executeBuilder reg options t ds)) ds).
Proof.
  intros Hhonest.
  destruct (step_value (executeBuilder reg options t ds)) as [d|] eqn:Hd; simpl;
    [|apply only_adds_refl].
  apply step_value_honest in Hd as [<- Hnone]; [|done].
  by apply only_adds_insert.
Qed.

Lemma sequential_step_only_adds reg options t ds w ds' w' :
  honest_registry reg →
  sequential_step reg options t (ds, w) = Resolved (ds', w') →
  only_adds [t] ds ds'.
Proof.
  intros Hhonest (_ & _ & -> & _)%sequential_step_Resolved.
  by apply add_result_honest.
Qed.

Lemma sequential_loop_only_adds reg options order ds w ds' w' :
  honest_registry reg →
  for_each_await (sequential_step reg options) order (ds, w) = Resolved (ds', w') →
  only_adds order ds ds'.
Proof.
  intros Hhonest. revert ds w.
  induction order as [|t order IH]; intros ds w Hrun; simpl in *.
  - simplify_eq. apply only_adds_refl.
  - destruct (sequential_step reg options t (ds, w)) as [[ds1 w1]| |] eqn:Hstep;
      [|done|done].
    apply (only_adds_trans [t] order _ ds1).
    + by eapply sequential_step_only_adds.
    + by eapply IH.
Qed.

(** ** The parallel strategy *)

Lemma batches_concat fuel size level :
  0 < size → length level ≤ fuel → concat (batches fuel size level) = level.
Proof.
  intros Hsize. revert level.
  induction fuel as [|fuel IH]; intros level Hfuel.
  - destruct level; [done|simpl in Hfuel; lia].
  - destruct level as [|x level]; [done|].
    change (take size (x :: level) ++
            concat (batches fuel size (drop size (x :: level))) = x :: level).
    rewrite IH; [apply take_drop|].
    rewrite length_drop. simpl in *. lia.
Qed.

Lemma level_batches_concat options level :
  concat (level_batches options level) = level.
Proof.
  unfold level_batches. case_decide as Hle; simpl; [by rewrite app_nil_r|].
  apply batches_concat; [|done].
  destruct (options_maxConcurrency options) as [[|n]|]; lia.
Qed.

Lemma plan_batches_concat options plan :
  concat (plan_batches options plan) = concat (parallelExecutionLevels plan).
Proof.
  unfold plan_batches.
  induction (parallelExecutionLevels plan) as [|level levels IH]; csimpl; [done|].
  by rewrite concat_app, IH, level_batches_concat.
Qed.

(** The levels are run batch after batch. *)
Lemma executeLevels_batches reg options levels st :
  for_each_await (executeLevel reg options) levels st =
  for_each_await (executeBatch reg options)
    (concat (level_batches options <$> levels)) st.
Proof.
  revert st. induction levels as [|level levels IH]; intros st; csimpl; [done|].
  rewrite for_each_await_app. unfold executeLevel at 1.
  destruct (for_each_await _ (level_batches options level) st); auto.
Qed.

Lemma execute_parallel_batches reg context plan options w :
  execute_parallel reg context plan options w =
  finish plan
    (for_each_await (executeBatch reg options) (plan_batches options plan)
       (parallel_start context plan w)).
Proof. unfold execute_parallel. by rewrite executeLevels_batches. Qed.

Section batch.
Variable reg : BuilderRegistry.
Variable options : ExecutionOptions.
Variable ds : DataSetImpl.

(** The steps that the calls of a batch start are those of its members, each
    on the dataset as it is when the batch starts. *)
Lemma call_all_steps batch w :
  started_step <$> (call_all reg options ds batch w).1
    = (λ t, executeBuilder reg options t ds) <$> batch ∧
  started_type <$> (call_all reg options ds batch w).1 = batch.
Proof.
  revert w. induction batch as [|t batch IH]; intros w; csimpl; [done|].
  destruct (IH (step_call t (executeBuilder reg options t ds) w)) as [-> ->].
  done.
Qed.

Lemma call_all_elem batch w s :
  s ∈ (call_all reg options ds batch w).1 →
  started_type s ∈ batch ∧
  started_step s = executeBuilder reg options (started_type s) ds.
Proof.
  revert w. induction batch as [|t batch IH]; intros w; csimpl.
  - by intros ?%elem_of_nil.
  - intros [->|Hs]%elem_of_cons; simpl; [by split; [left|]|].
    apply IH in Hs as [? ?]. by split; [right|].
Qed.

Lemma elem_of_call_all batch w t :
  t ∈ batch →
  ∃ s, s ∈ (call_all reg options ds batch w).1 ∧ started_type s = t ∧
       started_step s = executeBuilder reg options t ds.
Proof.
  revert w. induction batch as [|x batch IH]; intros w; [by intros ?%elem_of_nil|].
  intros [->|Ht]%elem_of_cons; csimpl.
  - eexists. split; [by left|done].
  - destruct (IH (step_call x (executeBuilder reg options x ds) w) Ht)
      as (s & ? & ? & ?).
    exists s. by split; [right|].
Qed.

Lemma call_all_split pre t post w :
  ∃ spre s spost,
    (call_all reg options ds (pre ++ t :: post) w).1 = spre ++ s :: spost ∧
    started_step s = executeBuilder reg options t ds ∧
    ∀ s', s' ∈ spre →
      ∃ x, x ∈ pre ∧ started_step s' = executeBuilder reg options x ds.
Proof.
  destruct (call_all_steps (pre ++ t :: post) w) as [Hsteps _].
  rewrite fmap_app, fmap_cons in Hsteps.
  apply fmap_app_inv in Hsteps as (spre & rest & Hspre & Hrest & Hsplit).
  destruct rest as [|s spost]; [done|]. csimpl in Hrest.
  exists spre, s, spost. split_and!; [done|by simplify_eq|].
  intros s' Hs'.
  assert (started_step s' ∈ started_step <$> spre) as Hin
    by (apply list_elem_of_fmap; by exists s').
  rewrite <-Hspre in Hin. apply list_elem_of_fmap in Hin as (x & ? & ?). eauto.
Qed.

(** The results of a batch are added in the order of the batch. *)
Lemma call_all_fold batch w acc :
  foldl (λ dataSet s, add_result (step_value (started_step s)) dataSet) acc
    (call_all reg options ds batch w).1
  = foldl (λ dataSet t,
             add_result (step_value (executeBuilder reg options t ds)) dataSet)
      acc batch.
Proof.
  revert w acc. induction batch as [|t batch IH]; intros w acc; csimpl; [done|].
  apply IH.
Qed.

Lemma batch_fold_only_adds batch keys acc :
  honest_registry reg →
  only_adds keys ds acc →
  only_adds (keys ++ batch_writes reg options ds batch) ds
    (foldl (λ dataSet t,
              add_result (step_value (executeBuilder reg options t ds)) dataSet)
       acc batch).
Proof.
  intros Hhonest. revert keys acc. unfold batch_writes.
  induction batch as [|t batch IH]; intros keys acc Hacc; csimpl.
  - by rewrite app_nil_r.
  - rewrite filter_cons.
    destruct (step_value (executeBuilder reg options t ds)) as [d|] eqn:Hv.
    2:{ rewrite decide_False by (by intros [? ?]). by apply IH. }
    rewrite decide_True by eauto.
    rewrite cons_middle, (assoc_L (++)). apply IH.
    destruct (step_value_honest reg options t ds d Hhonest Hv) as [Htype Hnone].
    destruct Hacc as [Hsub Hframe]. simpl. unfold add. rewrite Htype. split.
    + by apply insert_subseteq_r.
    + intros k Hk. rewrite lookup_insert_ne; [apply Hframe|]; set_solver.
Qed.

Lemma executeBatch_Resolved batch w ds' w' :
  executeBatch reg options batch (ds, w) = Resolved (ds', w') →
  first_rejection (call_all reg options ds batch w).1 = None ∧
  existsb (λ s, is_hung (started_step s)) (call_all reg options ds batch w).1
    = false ∧
  ds' = foldl (λ dataSet t,
                 add_result (step_value (executeBuilder reg options t ds)) dataSet)
          ds batch ∧
  w' = foldl (λ w s, serve s w) (call_all reg options ds batch w).2
         (in_settling_order (call_all reg options ds batch w).1).
Proof.
  unfold executeBatch. simpl.
  destruct (first_rejection _) as [?|]; [done|].
  destruct (existsb _ _); [done|]. intros; simplify_eq.
  by rewrite call_all_fold.
Qed.

Lemma executeBatch_only_adds batch w ds' w' :
  honest_registry reg →
  executeBatch reg options batch (ds, w) = Resolved (ds', w') →
  only_adds (batch_writes reg options ds batch) ds ds'.
Proof.
  intros Hhonest (_ & _ & -> & _)%executeBatch_Resolved.
  apply (batch_fold_only_adds batch [] ds Hhonest (only_adds_refl _ _)).
Qed.

Lemma batch_writes_elem batch t :
  t ∈ batch_writes reg options ds batch →
  t ∈ batch ∧ is_Some (step_value (executeBuilder reg options t ds)).
Proof. unfold batch_writes. rewrite list_elem_of_filter. tauto. Qed.
End batch.

Lemma parallel_loop_only_adds reg options bs ds w ds' w' :
  honest_registry reg →
  for_each_await (executeBatch reg options) bs (ds, w) = Resolved (ds', w') →
  only_adds (concat bs) ds ds'.
Proof.
  intros Hhonest. revert ds w.
  induction bs as [|batch bs IH]; intros ds w Hrun; simpl in *.
  - simplify_eq. apply only_adds_refl.
  - destruct (executeBatch reg options batch (ds, w)) as [[ds1 w1]| |] eqn:Hstep;
      [|done|done].
    apply (only_adds_trans batch (concat bs) _ ds1); [|by eapply IH].
    eapply only_adds_weaken; [|by eapply executeBatch_only_adds].
    by intros k [? _]%batch_writes_elem.
Qed.

(** *** Which promise [Promise.all] rejects with *)

Lemma insert_by_due_Permutation s sorted :
  insert_by_due s sorted ≡ₚ s :: sorted.
Proof.
  induction sorted as [|s' sorted IH]; simpl; [done|].
  case_decide; [|done]. rewrite IH. apply Permutation_swap.
Qed.

Lemma in_settling_order_Permutation started : in_settling_order started ≡ₚ started.
Proof.
  unfold in_settling_order.
  assert (∀ acc, foldl (λ sorted s, insert_by_due s sorted) acc started
                 ≡ₚ acc ++ started) as Hfold; [|apply (Hfold [])].
  induction started as [|s started IH]; intros acc; simpl.
  - by rewrite app_nil_r.
  - rewrite IH, insert_by_due_Permutation. simpl. apply Permutation_middle.
Qed.

Lemma elem_of_in_settling_order started s :
  s ∈ in_settling_order started ↔ s ∈ started.
Proof. by rewrite in_settling_order_Permutation. Qed.

(** The first element of a list on which [f] is defined. *)
Lemma head_omap_None {A B} (f : A → option B) l :
  head (omap f l) = None ↔ ∀ x, x ∈ l → f x = None.
Proof.
  induction l as [|x l IH]; csimpl.
  - split; [by intros _ ? ?%elem_of_nil|done].
  - destruct (f x) as [y|] eqn:Hx; simpl.
    + split; [done|]. intros Hall. specialize (Hall x). rewrite Hx in Hall.
      by discriminate Hall; left.
    + rewrite IH. split.
      * intros Hall x' [->|Hx']%elem_of_cons; [done|by apply Hall].
      * intros Hall x' Hx'. apply Hall. by right.
Qed.

Lemma head_omap_Some {A B} (f : A → option B) l y :
  head (omap f l) = Some y ↔
  ∃ pre x post, l = pre ++ x :: post ∧ f x = Some y ∧ ∀ z, z ∈ pre → f z = None.
Proof.
  induction l as [|x l IH]; csimpl.
  - split; [done|]. by intros ([|? ?] & ? & ? & ? & _).
  - destruct (f x) as [y'|] eqn:Hx; simpl.
    + split.
      * intros; simplify_eq. exists [], x, l. split_and!; [done|done|].
        by intros ? ?%elem_of_nil.
      * intros ([|x' pre] & x0 & post & Hl & Hy & Hpre); simplify_eq/=; [congruence|].
        rewrite Hpre in Hx by (by left). done.
    + rewrite IH. split.
      * intros (pre & x0 & post & -> & Hy & Hpre). exists (x :: pre), x0, post.
        split_and!; [done|done|].
        intros z [->|Hz]%elem_of_cons; [done|by apply Hpre].
      * intros ([|x' pre] & x0 & post & Hl & Hy & Hpre); simplify_eq/=;
          try congruence.
        exists pre, x0, post. split_and!; [done|done|].
        intros z Hz. apply Hpre. by right.
Qed.

Lemma rejection_split step :
  rejection step
  = match rejected_in_call step with
    | Some e => Some e
    | None => rejected_later step
    end.
Proof. by destruct step as [| | | | ? []|]. Qed.

Lemma first_rejection_None started :
  first_rejection started = None ↔
  ∀ s, s ∈ started → rejection (started_step s) = None.
Proof.
  unfold first_rejection. split.
  - destruct (head (omap _ started)) eqn:Hcall; [done|].
    intros Hlater s Hs. rewrite rejection_split.
    rewrite head_omap_None in Hcall. rewrite head_omap_None in Hlater.
    rewrite (Hcall s Hs). apply Hlater. by apply elem_of_in_settling_order.
  - intros Hall.
    rewrite (proj2 (head_omap_None (λ s, rejected_in_call (started_step s)) started)).
    + apply head_omap_None. intros s Hs. apply (proj1 (elem_of_in_settling_order _ _)) in Hs.
      specialize (Hall s Hs). rewrite rejection_split in Hall.
      by destruct (rejected_in_call (started_step s)).
    + intros s Hs. specialize (Hall s Hs). rewrite rejection_split in Hall.
      by destruct (rejected_in_call (started_step s)).
Qed.

Lemma first_rejection_elem started e :
  first_rejection started = Some e →
  ∃ s, s ∈ started ∧ rejection (started_step s) = Some e.
Proof.
  unfold first_rejection.
  destruct (head (omap _ started)) as [e'|] eqn:Hcall.
  - intros; simplify_eq.
    apply head_omap_Some in Hcall as (pre & s & post & -> & He & _).
    exists s. split; [set_solver|]. rewrite rejection_split. by rewrite He.
  - intros (pre & s & post & Hl & He & _)%head_omap_Some.
    exists s. split.
    + apply elem_of_in_settling_order. rewrite Hl. set_solver.
    + rewrite rejection_split. rewrite head_omap_None in Hcall.
      rewrite Hcall; [done|].
      apply elem_of_in_settling_order. rewrite Hl. set_solver.
Qed.

(** A promise that is rejected inside the call is served before any awaited
    one, and the first of them in the batch before the others. *)
Lemma first_rejection_in_call started pre s post e :
  started = pre ++ s :: post →
  rejected_in_call (started_step s) = Some e →
  (∀ s', s' ∈ pre → rejected_in_call (started_step s') = None) →
  first_rejection started = Some e.
Proof.
  intros -> He Hpre. unfold first_rejection.
  rewrite (proj2 (head_omap_Some (λ s, rejected_in_call (started_step s))
                    (pre ++ s :: post) e)); [done|].
  by exists pre, s, post.
Qed.

(** *** The world after a batch *)

Lemma step_settle_invoked t start step w :
  invoked (step_settle t start step w) = invoked w.
Proof. by destruct step as [| | |? []| |]. Qed.

Lemma step_settle_skipCount t start step w :
  skipCount (collector (step_settle t start step w)) = skipCount (collector w).
Proof. by destruct step as [| | |? []| |]. Qed.

Lemma settle_phase started w :
  invoked (foldl (λ w s, serve s w) w started) = invoked w ∧
  skipCount (collector (foldl (λ w s, serve s w) w started))
    = skipCount (collector w).
Proof.
  revert w. induction started as [|s started IH]; intros w; simpl; [done|].
  destruct (IH (serve s w)) as [-> ->]. unfold serve.
  by rewrite step_settle_invoked, step_settle_skipCount.
Qed.

Ltac feed_elem H t :=
  let Hin := fresh in
  match type of H with
  | ?x ∈ ?f <$> ?l → _ =>
      assert (x ∈ f <$> l) as Hin by (apply list_elem_of_fmap; by exists t);
      specialize (H Hin); clear Hin
  end.

Section batch_world.
Variable reg : BuilderRegistry.
Variable options : ExecutionOptions.
Variable ds : DataSetImpl.

(** A step calls [build] exactly when the dataset does not hold its type and
    the registry has a builder for it, and it counts a skip exactly when the
    dataset holds its type. *)
Lemma step_call_world t w :
  let w' := step_call t (executeBuilder reg options t ds) w in
  invoked w' =
    invoked w ++
    (if decide (ds !! t = None ∧ is_Some (registry_get reg t)) then [t] else []) ∧
  skipCount (collector w') =
    skipCount (collector w) + (if decide (is_Some (ds !! t)) then 1 else 0).
Proof.
  simpl.
  destruct (executeBuilder_cases reg options t ds)
    as [[[v Hv] ->]|[(Hds & Hb & ->)|(Hds & b & Hb & [(? & ? & ? & _ & ->)
       |[(? & ? & _ & _ & ->)|(? & settles & ? & _ & ->)]])]];
    rewrite ?build_failed_cases; rewrite ?Hv, ?Hds, ?Hb;
    try destruct (continueOnError options); try destruct settles; simpl;
    repeat case_decide; rewrite ?app_nil_r;
    try (split; [done|lia]); exfalso;
    repeat match goal with
           | H : ¬ _ |- _ => destruct H
           | H : _ ∧ _ |- _ => destruct H
           | H : is_Some None |- _ => by destruct H
           end; eauto.
Qed.

Lemma call_phase batch w :
  let w' := (call_all reg options ds batch w).2 in
  invoked w' =
    invoked w ++
    filter (λ t, ds !! t = None ∧ is_Some (registry_get reg t)) batch ∧
  skipCount (collector w') =
    skipCount (collector w) + length (filter (λ t, is_Some (ds !! t)) batch).
Proof.
  revert w. induction batch as [|t batch IH]; intros w; csimpl.
  - rewrite app_nil_r. split; [done|lia].
  - destruct (IH (step_call t (executeBuilder reg options t ds) w)) as [Hi Hs].
    destruct (step_call_world t w) as [Hi1 Hs1].
    rewrite Hi, Hs, Hi1, Hs1, !filter_cons. split.
    + rewrite <-(assoc_L (++)). f_equal. repeat case_decide; first [done|tauto].
    + case_decide; simpl; lia.
Qed.

Lemma filter_ext_in {A} (P Q : A → Prop) `{!∀ x, Decision (P x)}
    `{!∀ x, Decision (Q x)} (l : list A) :
  (∀ x, x ∈ l → P x ↔ Q x) → filter P l = filter Q l.
Proof.
  induction l as [|x l IH]; intros Hext; [done|].
  rewrite !filter_cons, IH by (intros; apply Hext; by right).
  destruct (decide (P x)) as [HP|HP], (decide (Q x)) as [HQ|HQ]; try done.
  - destruct HQ. apply (Hext x); [by left|done].
  - destruct HP. apply (Hext x); [by left|done].
Qed.

(** A batch that resolves has invoked the builders of exactly those members
    that the dataset did not contain when the batch started, and has counted
    one skip for each of the others. *)
Lemma executeBatch_world batch w ds' w' :
  executeBatch reg options batch (ds, w) = Resolved (ds', w') →
  invoked w' = invoked w ++ filter (λ t, ds !! t = None) batch ∧
  skipCount (collector w') =
    skipCount (collector w) + length (filter (λ t, is_Some (ds !! t)) batch).
Proof.
  intros (Hrej & _ & _ & ->)%executeBatch_Resolved.
  match goal with |- context [foldl _ ?w0 (in_settling_order ?started)] =>
    destruct (settle_phase (in_settling_order started) w0) as [-> ->]
  end.
  destruct (call_phase batch w) as [-> ->]. split; [|done]. f_equal.
  apply filter_ext_in. intros t Ht. split; [tauto|]. intros Hds. split; [done|].
  destruct (registry_get reg t) eqn:Hb; [by eauto|].
  rewrite first_rejection_None in Hrej.
  destruct (elem_of_call_all reg options ds batch w t Ht) as (s & Hs & _ & Hstep).
  specialize (Hrej s Hs). rewrite Hstep in Hrej.
  by rewrite (executeBuilder_missing reg options t ds Hds Hb) in Hrej.
Qed.
End batch_world.

(** ** Runs, split at one step *)

Lemma sequential_reaches_run reg options context plan w t st :
  sequential_reaches reg options context plan w t st →
  ∃ pre post,
    executionOrder plan = pre ++ t :: post ∧
    execute_sequential reg context plan options w =
    finish plan
      match sequential_step reg options t st with
      | Resolved st' => for_each_await (sequential_step reg options) post st'
      | Rejected e => Rejected e
      | Pending => Pending
      end.
Proof.
  intros (pre & post & Horder & Hpre). exists pre, post. split; [done|].
  unfold execute_sequential. by rewrite Horder, for_each_await_app, Hpre.
Qed.

Lemma parallel_reaches_run reg options context plan w batch st :
  parallel_reaches reg options context plan w batch st →
  ∃ pre post,
    plan_batches options plan = pre ++ batch :: post ∧
    execute_parallel reg context plan options w =
    finish plan
      match executeBatch reg options batch st with
      | Resolved st' => for_each_await (executeBatch reg options) post st'
      | Rejected e => Rejected e
      | Pending => Pending
      end.
Proof.
  intros (pre & post & Hbatches & Hpre). exists pre, post. split; [done|].
  by rewrite execute_parallel_batches, Hbatches, for_each_await_app, Hpre.
Qed.

Lemma finish_Resolved plan run out w :
  finish plan run = Resolved (out, w) →
  run = Resolved (ExecutionResult.dataSet out, w).
Proof.
  destruct run as [[ds w']| |]; simpl; [|done|done]. by intros; simplify_eq.
Qed.

(** The batches of a valid plan hold each entry of the execution order once,
    and nothing else. *)
Lemma valid_plan_batches reg targets plan options :
  createExecutionPlan reg targets = Some plan → isValid plan = true →
  NoDup (concat (plan_batches options plan)) ∧
  ∀ t, t ∈ concat (plan_batches options plan) → is_Some (registry_get reg t).
Proof.
  intros Hplan Hv. rewrite plan_batches_concat.
  destruct (valid_plan_levels _ _ _ Hplan Hv) as (Hnd & Hsame & _).
  split; [done|]. intros t Ht%Hsame. by eapply valid_plan_has_builders.
Qed.

(** *** Steps that cannot fail *)

Lemma executeBuilder_resolves reg options t ds :
  continueOnError options = true → settling_registry reg options →
  is_Some (registry_get reg t) →
  rejection (executeBuilder reg options t ds) = None ∧
  is_hung (executeBuilder reg options t ds) = false.
Proof.
  intros Hcontinue Hsettling [b Hb].
  destruct (executeBuilder_cases reg options t ds)
    as [[_ ->]|[(_ & Hnone & _)|(_ & b' & Hb' & [(? & ? & ? & _ & ->)
       |[(? & promise & Hbuild & Hp & _)|(? & ? & ? & _ & ->)]])]];
    [done|congruence|done| |].
  - simplify_eq. by destruct (Hsettling _ _ _ _ _ Hb Hbuild Hp).
  - by rewrite build_failed_cases, Hcontinue.
Qed.

Lemma sequential_step_resolves reg options t st :
  continueOnError options = true → settling_registry reg options →
  is_Some (registry_get reg t) →
  ∃ st', sequential_step reg options t st = Resolved st'.
Proof.
  intros Hcontinue Hsettling Hb.
  destruct (executeBuilder_resolves reg options t st.1 Hcontinue Hsettling Hb)
    as [Hrej Hhung].
  unfold sequential_step.
  destruct (executeBuilder reg options t st.1); simplify_eq; eauto.
Qed.

Lemma executeBatch_resolves reg options batch st :
  continueOnError options = true → settling_registry reg options →
  (∀ t, t ∈ batch → is_Some (registry_get reg t)) →
  ∃ st', executeBatch reg options batch st = Resolved st'.
Proof.
  intros Hcontinue Hsettling Hb. unfold executeBatch.
  assert (∀ s, s ∈ (call_all reg options st.1 batch st.2).1 →
            rejection (started_step s) = None ∧ is_hung (started_step s) = false)
    as Hsteps.
  { intros s [Ht ->]%call_all_elem. apply executeBuilder_resolves; auto. }
  rewrite (proj2 (first_rejection_None _)) by (intros; by apply Hsteps).
  destruct (existsb _ _) eqn:Hex; [|by eauto].
  apply existsb_exists in Hex as (s & Hin%list_elem_of_In & Hhung).
  apply Hsteps in Hin as [_ ?]. congruence.
Qed.

(** *** What is in the dataset stays in the dataset *)

Lemma add_result_is_Some result ds k :
  is_Some (ds !! k) → is_Some (add_result result ds !! k).
Proof.
  destruct result as [d|]; simpl; [|done]. unfold add. intros Hk.
  destruct (decide (type d = k)) as [->|];
    [rewrite lookup_insert_eq; eauto|by rewrite lookup_insert_ne].
Qed.

Lemma sequential_loop_keeps reg options order ds w ds' w' k :
  for_each_await (sequential_step reg options) order (ds, w) = Resolved (ds', w') →
  is_Some (ds !! k) → is_Some (ds' !! k).
Proof.
  revert ds w. induction order as [|t order IH]; intros ds w Hrun Hk; simpl in *.
  - by simplify_eq.
  - destruct (sequential_step reg options t (ds, w)) as [[ds1 w1]| |] eqn:Hstep;
      [|done|done].
    apply sequential_step_Resolved in Hstep as (_ & _ & -> & _).
    eapply IH; [done|]. by apply add_result_is_Some.
Qed.

Lemma batch_fold_keeps reg options ds batch acc k :
  is_Some (acc !! k) →
  is_Some (foldl (λ dataSet t,
                    add_result (step_value (executeBuilder reg options t ds)) dataSet)
             acc batch !! k).
Proof.
  revert acc. induction batch as [|t batch IH]; intros acc Hk; simpl; [done|].
  by apply IH, add_result_is_Some.
Qed.

Lemma parallel_loop_keeps reg options bs ds w ds' w' k :
  for_each_await (executeBatch reg options) bs (ds, w) = Resolved (ds', w') →
  is_Some (ds !! k) → is_Some (ds' !! k).
Proof.
  revert ds w. induction bs as [|batch bs IH]; intros ds w Hrun Hk; simpl in *.
  - by simplify_eq.
  - destruct (executeBatch reg options batch (ds, w)) as [[ds1 w1]| |] eqn:Hstep;
      [|done|done].
    apply executeBatch_Resolved in Hstep as (_ & _ & -> & _).
    eapply IH; [done|]. by apply batch_fold_keeps.
Qed.

(** *** Which builders a run invokes *)

(** A builder is invoked only by a step of its own type, and only when the
    dataset does not hold that type: the types that the rest of a run
    invokes are planned types that the dataset does not hold now. *)
Lemma sequential_step_invoked reg options t ds w ds' w' :
  sequential_step reg options t (ds, w) = Resolved (ds', w') →
  invoked w' = invoked w ++ (if decide (ds !! t = None) then [t] else []).
Proof.
  intros (Hrej & _ & _ & ->)%sequential_step_Resolved.
  rewrite step_settle_invoked. simpl.
  destruct (step_call_world reg options ds t w) as [-> _].
  f_equal. destruct (decide (ds !! t = None)) as [Hds|Hds].
  - destruct (registry_get reg t) as [b|] eqn:Hb.
    + rewrite decide_True; [done|]. split; [done|]. eauto.
    + by rewrite (executeBuilder_missing reg options t ds Hds Hb) in Hrej.
  - rewrite decide_False; [done|]. by intros [? _].
Qed.

Lemma sequential_loop_invoked reg options order ds w ds' w' :
  for_each_await (sequential_step reg options) order (ds, w) = Resolved (ds', w') →
  ∃ called, invoked w' = invoked w ++ called ∧
    ∀ t, t ∈ called → t ∈ order ∧ ds !! t = None.
Proof.
  revert ds w. induction order as [|x order IH]; intros ds w Hrun; simpl in *.
  - simplify_eq. exists []. rewrite app_nil_r. split; [done|].
    by intros ? ?%elem_of_nil.
  - destruct (sequential_step reg options x (ds, w)) as [[ds1 w1]| |] eqn:Hstep;
      [|done|done].
    pose proof (sequential_step_invoked _ _ _ _ _ _ _ Hstep) as Hone.
    apply sequential_step_Resolved in Hstep as (_ & _ & Hds1 & _).
    apply IH in Hrun as (called & -> & Hcalled). rewrite Hone.
    eexists. rewrite <-(assoc_L (++)). split; [done|].
    intros t [Ht|Ht]%elem_of_app.
    + case_decide; [|by apply elem_of_nil in Ht].
      apply list_elem_of_singleton in Ht as ->. by split; [left|].
    + destruct (Hcalled t Ht) as [? Hnone]. split; [by right|].
      destruct (ds !! t) eqn:Hds; [|done].
      assert (is_Some (ds1 !! t)) as [? ?]; [|congruence].
      rewrite Hds1. apply add_result_is_Some. eauto.
Qed.

Lemma parallel_loop_invoked reg options bs ds w ds' w' :
  for_each_await (executeBatch reg options) bs (ds, w) = Resolved (ds', w') →
  ∃ called, invoked w' = invoked w ++ called ∧
    ∀ t, t ∈ called → t ∈ concat bs ∧ ds !! t = None.
Proof.
  revert ds w. induction bs as [|batch bs IH]; intros ds w Hrun; simpl in *.
  - simplify_eq. exists []. rewrite app_nil_r. split; [done|].
    by intros ? ?%elem_of_nil.
  - destruct (executeBatch reg options batch (ds, w)) as [[ds1 w1]| |] eqn:Hstep;
      [|done|done].
    destruct (executeBatch_world _ _ _ _ _ _ _ Hstep) as [Hone _].
    apply executeBatch_Resolved in Hstep as (_ & _ & Hds1 & _).
    apply IH in Hrun as (called & -> & Hcalled). rewrite Hone.
    eexists. rewrite <-(assoc_L (++)). split; [done|].
    intros t [Ht|Ht]%elem_of_app.
    + apply list_elem_of_filter in Ht as [? ?]. split; [|done].
      apply elem_of_app. by left.
    + destruct (Hcalled t Ht) as [? Hnone]. split; [apply elem_of_app; by right|].
      destruct (ds !! t) eqn:Hds; [|done].
      assert (is_Some (ds1 !! t)) as [? ?]; [|congruence].
      rewrite Hds1. apply batch_fold_keeps. eauto.
Qed.

(** ** The claims about the execution strategies *)

(** Claim C9.  When the initial dataset of the context is not a
    [DataSetImpl], both strategies start from an empty working dataset: the
    run is the run on an empty [DataSetImpl], whatever the caller seeded, and
    the step that starts on that dataset is never a skip. *)
Theorem foreign_initial_data_is_dropped (reg : BuilderRegistry)
    (plan : ExecutionPlan) (options : ExecutionOptions) (w : World)
    (seeded : gmap string Data) :
  cloneDataSet (OtherDataSet seeded) = ∅ ∧
  (sequential_start {| initialData := OtherDataSet seeded |} w).1 = ∅ ∧
  (parallel_start {| initialData := OtherDataSet seeded |} plan w).1 = ∅ ∧
  execute_sequential reg {| initialData := OtherDataSet seeded |} plan options w
    = execute_sequential reg {| initialData := IsDataSetImpl ∅ |} plan options w ∧
  execute_parallel reg {| initialData := OtherDataSet seeded |} plan options w
    = execute_parallel reg {| initialData := IsDataSetImpl ∅ |} plan options w ∧
  ∀ dataType r,
    executeBuilder reg options dataType (cloneDataSet (OtherDataSet seeded))
      ≠ StepSkipped r.
Proof.
  split_and!; try done.
  intros t r [[v Hv] _]%executeBuilder_Skipped. simpl in Hv.
  by rewrite lookup_empty in Hv.
Qed.

(** The promise of a step is rejected inside the call when the type has no
    builder and is not in the dataset, or when [continueOnError] is off and
    the call of [build] throws. *)
Lemma rejected_in_call_cases reg options t ds e :
  rejected_in_call (executeBuilder reg options t ds) = Some e →
  (registry_get reg t = None ∧ ds !! t = None ∧
   e = Error ("No builder found for data type: " +:+ t)) ∨
  (continueOnError options = false ∧
   ∃ builder busy thrown,
     registry_get reg t = Some builder ∧ ds !! t = None ∧
     build builder ds = BuildThrows busy thrown ∧
     e = BuilderExecutionError (builder_name builder) t (to_error thrown)).
Proof.
  destruct (ds !! t) as [v|] eqn:Hds.
  { by rewrite (executeBuilder_contains _ _ _ _ _ Hds). }
  destruct (registry_get reg t) as [b|] eqn:Hb.
  2:{ rewrite (executeBuilder_missing _ _ _ _ Hds Hb). simpl.
      intros; simplify_eq. by left. }
  rewrite (executeBuilder_build _ _ _ _ _ Hds Hb).
  destruct (build b ds) as [busy promise|busy thrown] eqn:Hbuild.
  - destruct (apply_timeout options t promise); rewrite ?build_failed_cases;
      try done. by destruct (continueOnError options).
  - rewrite build_failed_cases.
    destruct (continueOnError options) eqn:Hc; [done|]. simpl.
    intros; simplify_eq. right. split; [done|]. by exists b, busy, thrown.
Qed.

(** A batch with a member whose promise is rejected inside the call rejects
    with the error of the first such member. *)
Lemma executeBatch_rejected_in_call reg options batch ds w t e :
  t ∈ batch →
  rejected_in_call (executeBuilder reg options t ds) = Some e →
  ∃ pre member post e',
    batch = pre ++ member :: post ∧ t ∉ pre ∧
    (∀ earlier, earlier ∈ pre →
       rejected_in_call (executeBuilder reg options earlier ds) = None) ∧
    rejected_in_call (executeBuilder reg options member ds) = Some e' ∧
    executeBatch reg options batch (ds, w) = Rejected e'.
Proof.
  intros Ht He.
  assert (∃ pre member post e',
            batch = pre ++ member :: post ∧
            (∀ earlier, earlier ∈ pre →
               rejected_in_call (executeBuilder reg options earlier ds) = None) ∧
            rejected_in_call (executeBuilder reg options member ds) = Some e')
    as (pre & member & post & e' & Hbatch & Hpre & Hmember).
  { destruct (head (omap (λ x, rejected_in_call (executeBuilder reg options x ds))
                      batch)) as [e'|] eqn:Hhead.
    - apply head_omap_Some in Hhead as (pre & member & post & ? & ? & ?).
      by exists pre, member, post, e'.
    - rewrite head_omap_None in Hhead. rewrite (Hhead t Ht) in He. done. }
  exists pre, member, post, e'. split_and!; [done| |done|done|].
  { intros Hin. rewrite (Hpre t Hin) in He. done. }
  subst batch. unfold executeBatch. simpl.
  destruct (call_all_split reg options ds pre member post w)
    as (spre & s & spost & Hstarted & Hs & Hspre).
  rewrite (first_rejection_in_call _ spre s spost e' Hstarted); [done| |].
  - by rewrite Hs.
  - intros s' (x & Hx & ->)%Hspre. by apply Hpre.
Qed.

(** Claim C10, as the code has it.  A type of the plan that has no builder in
    the registry and is not in the working dataset makes its step throw the
    plain [Error] "No builder found for data type: ...".  The error is not
    wrapped as a [BuilderExecutionError] and [continueOnError] does not
    suppress it: the sequential run rejects with it, whatever the options.
    The parallel run rejects as well, whatever the options, with the error of
    the first member of the batch whose promise is rejected inside the call:
    the plain [Error] of a member without a builder (this type, or one that
    stands before it in the batch) or, when [continueOnError] is off, the
    [BuilderExecutionError] of a member before them whose [build] throws
    inside the call. *)
Theorem missing_builder_is_fatal (reg : BuilderRegistry)
    (options : ExecutionOptions) (dataType : string) :
  registry_get reg dataType = None →
  (∀ resultDataSet,
     resultDataSet !! dataType = None →
     executeBuilder reg options dataType resultDataSet
       = StepNoBuilder (Error ("No builder found for data type: " +:+ dataType))) ∧
  (∀ context plan w resultDataSet w1,
     sequential_reaches reg options context plan w dataType (resultDataSet, w1) →
     resultDataSet !! dataType = None →
     execute_sequential reg context plan options w
       = Rejected (Error ("No builder found for data type: " +:+ dataType))) ∧
  (∀ context plan w batch resultDataSet w1,
     parallel_reaches reg options context plan w batch (resultDataSet, w1) →
     dataType ∈ batch →
     resultDataSet !! dataType = None →
     (∃ pre member post e,
        batch = pre ++ member :: post ∧ dataType ∉ pre ∧
        (∀ earlier, earlier ∈ pre →
           rejected_in_call (executeBuilder reg options earlier resultDataSet)
             = None) ∧
        execute_parallel reg context plan options w = Rejected e ∧
        ((registry_get reg member = None ∧ resultDataSet !! member = None ∧
          e = Error ("No builder found for data type: " +:+ member)) ∨
         (continueOnError options = false ∧ member ≠ dataType ∧
          ∃ builder busy thrown,
            registry_get reg member = Some builder ∧
            resultDataSet !! member = None ∧
            build builder resultDataSet = BuildThrows busy thrown ∧
            e = BuilderExecutionError (builder_name builder) member
                  (to_error thrown)))) ∧
     (∀ pre post,
        batch = pre ++ dataType :: post →
        (∀ earlier, earlier ∈ pre →
           rejected_in_call (executeBuilder reg options earlier resultDataSet)
             = None) →
        execute_parallel reg context plan options w
          = Rejected (Error ("No builder found for data type: " +:+ dataType)))).
Proof.
  intros Hnone. split_and!.
  - intros ds Hds. by apply executeBuilder_missing.
  - intros context plan w ds w1 Hreach Hds.
    apply sequential_reaches_run in Hreach as (pre & post & _ & ->).
    unfold sequential_step. simpl.
    by rewrite (executeBuilder_missing reg options dataType ds Hds Hnone).
  - intros context plan w batch ds w1 Hreach Hin Hds.
    apply parallel_reaches_run in Hreach as (bpre & bpost & _ & ->).
    pose proof (executeBuilder_missing reg options dataType ds Hds Hnone) as Hstep.
    split.
    + destruct (executeBatch_rejected_in_call reg options batch ds w1 dataType
                  (Error ("No builder found for data type: " +:+ dataType)) Hin)
        as (pre & member & post & e & Hbatch & Hpre & Hearlier & Hmember & ->);
        [by rewrite Hstep|].
      exists pre, member, post, e. split_and!; [done|done|done|done|].
      apply rejected_in_call_cases in Hmember
        as [?|(Hstrict & b & busy & thrown & Hb & ? & ? & ?)]; [by left|].
      right. split; [done|]. split; [congruence|]. by exists b, busy, thrown.
    + intros pre post -> Hearlier. unfold executeBatch. simpl.
      destruct (call_all_split reg options ds pre dataType post w1)
        as (spre & s & spost & Hstarted & Hs & Hspre).
      rewrite (first_rejection_in_call _ spre s spost
                 (Error ("No builder found for data type: " +:+ dataType))
                 Hstarted); [done| |].
      * by rewrite Hs, Hstep.
      * intros s' (x & Hx & ->)%Hspre. by apply Hearlier.
Qed.

Lemma missing_builder_is_fatal_witness :
  execute_sequential [UserBuilder] empty_context unregistered_plan
    continue_options fresh_world
  = Rejected (Error "No builder found for data type: report").
Proof.
  destruct (missing_builder_is_fatal [UserBuilder] continue_options "report" eq_refl)
    as (_ & Hsequential & _).
  eapply Hsequential.
  - exists ["user"], []. split; reflexivity.
  - reflexivity.
Defined.

(** Claim C10 as stated does not hold for every parallel run.  With
    [continueOnError] off, a member of the batch that stands before the type
    and whose [build] throws inside the call has the run reject with its
    [BuilderExecutionError]; and of two types without a builder the run
    rejects with the error of the first, also under [continueOnError]. *)
Lemma missing_builder_error_preempted :
  registry_get [ThrowingBuilder] "ghost" = None ∧
  parallel_reaches [ThrowingBuilder] default_options empty_context
    (one_level_plan ["throwing"; "ghost"]) fresh_world ["throwing"; "ghost"]
    (parallel_start empty_context (one_level_plan ["throwing"; "ghost"])
       fresh_world) ∧
  execute_parallel [ThrowingBuilder] empty_context
    (one_level_plan ["throwing"; "ghost"]) default_options fresh_world
  = Rejected (BuilderExecutionError "ThrowingBuilder" "throwing"
                (Error "Thrown inside the call")) ∧
  parallel_reaches [] continue_options empty_context
    (one_level_plan ["phantom"; "ghost"]) fresh_world ["phantom"; "ghost"]
    (parallel_start empty_context (one_level_plan ["phantom"; "ghost"])
       fresh_world) ∧
  execute_parallel [] empty_context (one_level_plan ["phantom"; "ghost"])
    continue_options fresh_world
  = Rejected (Error "No builder found for data type: phantom") ∧
  Error "No builder found for data type: phantom"
  ≠ Error "No builder found for data type: ghost".
Proof.
  split_and!; [reflexivity| |reflexivity| |reflexivity|discriminate].
  - exists [], []. split; reflexivity.
  - exists [], []. split; reflexivity.
Qed.

Lemma withTimeout_late promise timeoutMs dataType :
  timeoutMs ≠ 0%N →
  ¬ settles_within promise (N.to_nat timeoutMs) →
  withTimeout promise timeoutMs dataType
    = RejectsWith (timer_delay timeoutMs)
        (ThrownError (timeout_error dataType timeoutMs)).
Proof.
  intros Hms. pose proof (timer_delay_le timeoutMs Hms).
  unfold withTimeout, settles_within.
  destruct promise; [| |done]; intros Hlate; rewrite decide_False; (done || lia).
Qed.

(** Claim C7, as the code has it.  With a per-builder timeout configured (a
    truthy [options.builderTimeout]), a promise returned by [build] that does
    not settle within the bound, counted from the moment [build] returned
    it, loses the race against the timer.  The timer runs for the bound, or
    for 1 ms if the bound is more than [setTimeout] takes.  The awaited
    promise then rejects with a plain [Error] that names the data type and
    the bound (the code has no class of its own for it), and the step treats
    that rejection as it treats any thrown error: it rejects with a
    [BuilderExecutionError] that wraps it, or, under [continueOnError], warns
    on the console and resolves with no result. *)
Theorem timeout_is_a_failure (reg : BuilderRegistry) (options : ExecutionOptions)
    (dataType : string) (resultDataSet : DataSetImpl) (builder : DataBuilder)
    (timeoutMs : N) (busy : nat) (promise : BuildPromise) :
  builderTimeout options = Some timeoutMs → timeoutMs ≠ 0%N →
  resultDataSet !! dataType = None →
  registry_get reg dataType = Some builder →
  build builder resultDataSet = BuildReturns busy promise →
  ¬ settles_within promise (N.to_nat timeoutMs) →
  apply_timeout options dataType promise
    = RejectsWith (timer_delay timeoutMs)
        (ThrownError (timeout_error dataType timeoutMs)) ∧
  1 ≤ timer_delay timeoutMs ≤ N.to_nat timeoutMs ∧
  timeout_error dataType timeoutMs
    = {| error_name := "Error";
         message := "Builder for " +:+ dataType +:+ " timed out after "
                    +:+ pretty timeoutMs +:+ "ms";
         cause := None |} ∧
  (continueOnError options = false →
     executeBuilder reg options dataType resultDataSet
       = StepFailed busy (Awaited (timer_delay timeoutMs))
           (BuilderExecutionError (builder_name builder) dataType
              (timeout_error dataType timeoutMs))) ∧
  (continueOnError options = true →
     executeBuilder reg options dataType resultDataSet
       = StepContinued busy (Awaited (timer_delay timeoutMs))
           ("Builder " +:+ builder_name builder +:+ " failed for " +:+ dataType
            +:+ ", continuing execution:",
            message (timeout_error dataType timeoutMs))
           {| dataType := dataType; skipped := false; result := None;
              executionTime := 0 |} ∧
     step_value (executeBuilder reg options dataType resultDataSet) = None) ∧
  (∀ reg' thrower thrown,
     registry_get reg' dataType = Some thrower →
     builder_name thrower = builder_name builder →
     build thrower resultDataSet = BuildReturns busy thrown →
     apply_timeout options dataType thrown
       = RejectsWith (timer_delay timeoutMs)
           (ThrownError (timeout_error dataType timeoutMs)) →
     executeBuilder reg' options dataType resultDataSet
       = executeBuilder reg options dataType resultDataSet).
Proof.
  intros Htimeout Hms Hds Hb Hbuild Hlate.
  assert (apply_timeout options dataType promise
    = RejectsWith (timer_delay timeoutMs)
        (ThrownError (timeout_error dataType timeoutMs))) as Hraced.
  { unfold apply_timeout. rewrite Htimeout, decide_False by done.
    by apply withTimeout_late. }
  assert (executeBuilder reg options dataType resultDataSet
          = build_failed options builder dataType busy
              (Awaited (timer_delay timeoutMs))
              (ThrownError (timeout_error dataType timeoutMs))) as Hstep.
  { by rewrite (executeBuilder_build _ _ _ _ _ Hds Hb), Hbuild, Hraced. }
  split; [done|]. split; [by apply timer_delay_le|]. split; [done|].
  split_and!.
  - intros Hcontinue. by rewrite Hstep, build_failed_cases, Hcontinue.
  - intros Hcontinue. by rewrite Hstep, build_failed_cases, Hcontinue.
  - intros reg' thrower thrown Hb' Hname Hbuild' Hthrows.
    rewrite Hstep, (executeBuilder_build _ _ _ _ _ Hds Hb'), Hbuild', Hthrows.
    by rewrite !build_failed_cases, Hname.
Qed.

Lemma timeout_is_a_failure_witness :
  executeBuilder [SlowBuilder] timeout_options "slow" ∅
  = StepFailed 0 (Awaited 100)
      (BuilderExecutionError "SlowBuilder" "slow" (timeout_error "slow" 100)) ∧
  message (BuilderExecutionError "SlowBuilder" "slow" (timeout_error "slow" 100))
  = "Builder 'SlowBuilder' failed to build data type 'slow': Builder for slow timed out after 100ms".
Proof.
  split; [|reflexivity].
  refine (proj1 (proj2 (proj2 (proj2 (timeout_is_a_failure [SlowBuilder]
    timeout_options "slow" ∅ SlowBuilder 100 0
    (Fulfils 1000 (Some {| type := "slow"; payload := "" |}))
    eq_refl _ eq_refl eq_refl eq_refl _)))) eq_refl).
  - discriminate.
  - simpl. lia.
Defined.

(** Claim C7 as stated does not hold of a build call that outlasts the
    bound inside the call: the timer is set only when [build] has returned,
    so the [ResourceIntensiveBuilder], which works for a second before it
    returns a promise that is settled already, is not timed out by a bound of
    100 ms; its step records an execution time of 1000 ms.  And what the
    timer rejects with is a plain [Error], by its name as well: no
    [TimeoutError]. *)
Lemma busy_call_is_not_timed_out :
  builderTimeout timeout_options = Some 100%N ∧
  build (ResourceIntensiveBuilder 1000) ∅
    = BuildReturns 1000 (Fulfils 0 (Some {| type := "resource0"; payload := "" |})) ∧
  executeBuilder [ResourceIntensiveBuilder 1000] timeout_options "resource0" ∅
    = StepBuilt 1000 0 (Some {| type := "resource0"; payload := "" |}) ∧
  (∃ out w',
     execute_sequential [ResourceIntensiveBuilder 1000] empty_context
       (one_level_plan ["resource0"]) timeout_options fresh_world
     = Resolved (out, w') ∧
     ExecutionStats.builderExecutionTimes (ExecutionResult.stats out) !! "resource0"
     = Some 1000 ∧
     is_Some (ExecutionResult.dataSet out !! "resource0")) ∧
  apply_timeout timeout_options "slow"
    (Fulfils 1000 (Some {| type := "slow"; payload := "" |}))
    = RejectsWith 100 (ThrownError (timeout_error "slow" 100)) ∧
  error_name (timeout_error "slow" 100) = "Error" ∧
  error_name (timeout_error "slow" 100) ≠ "TimeoutError".
Proof.
  split_and!; [reflexivity|reflexivity|reflexivity| |reflexivity|reflexivity
              |discriminate].
  eexists _, _. split; [vm_compute; reflexivity|]. split; [reflexivity|].
  vm_compute. eauto.
Qed.

Lemma report_registry_honest : honest_registry report_registry.
Proof.
  intros t b ds busy elapsed d Hb Hbuild. unfold report_registry in Hb.
  simpl in Hb.
  repeat (case_decide; [simplify_eq; simpl in Hbuild;
                        repeat case_match; by simplify_eq|]).
  done.
Qed.

(** Claim C4, as the code has it.  A step whose type is already in the
    working dataset does not call the builder, counts one skip, and leaves
    the dataset as it is, under either strategy.  From then on the dataset
    holds the type, so no later step of the run calls that builder either;
    if the plan does not list the type before, the builder is never called
    during the run (a plan that lists a type twice can have called it at the
    first entry).  And the value stored under the type is still there,
    unchanged, in the result dataset, provided that every builder returns
    values of the type it provides ([add] stores a value under the value's
    own type). *)
Theorem skip_semantics (reg : BuilderRegistry) (options : ExecutionOptions)
    (dataType : string) (value : Data) :
  (∀ resultDataSet w,
     resultDataSet !! dataType = Some value →
     executeBuilder reg options dataType resultDataSet
       = StepSkipped {| dataType := dataType; skipped := true; result := None;
                        executionTime := 0 |} ∧
     ∃ w',
       sequential_step reg options dataType (resultDataSet, w)
         = Resolved (resultDataSet, w') ∧
       invoked w' = invoked w ∧
       skipCount (collector w') = S (skipCount (collector w))) ∧
  (∀ batch resultDataSet w,
     dataType ∈ batch →
     resultDataSet !! dataType = Some value →
     (∃ called,
        invoked (call_all reg options resultDataSet batch w).2
          = invoked w ++ called ∧ dataType ∉ called) ∧
     dataType ∈ filter (λ member, is_Some (resultDataSet !! member)) batch ∧
     skipCount (collector (call_all reg options resultDataSet batch w).2)
       = skipCount (collector w)
         + length (filter (λ member, is_Some (resultDataSet !! member)) batch) ∧
     ∀ resultDataSet' w',
       executeBatch reg options batch (resultDataSet, w)
         = Resolved (resultDataSet', w') →
       invoked w' = invoked (call_all reg options resultDataSet batch w).2 ∧
       skipCount (collector w')
         = skipCount (collector (call_all reg options resultDataSet batch w).2) ∧
       is_Some (resultDataSet' !! dataType) ∧
       (honest_registry reg → resultDataSet' !! dataType = Some value)) ∧
  (∀ context plan w pre post resultDataSet w1,
     executionOrder plan = pre ++ dataType :: post →
     for_each_await (sequential_step reg options) pre (sequential_start context w)
       = Resolved (resultDataSet, w1) →
     resultDataSet !! dataType = Some value →
     (∀ done next rest resultDataSet' w',
        dataType :: post = done ++ next :: rest →
        for_each_await (sequential_step reg options) done (resultDataSet, w1)
          = Resolved (resultDataSet', w') →
        is_Some (resultDataSet' !! dataType) ∧
        ∃ called,
          invoked (step_call next
                     (executeBuilder reg options next resultDataSet') w')
            = invoked w1 ++ called ∧ dataType ∉ called) ∧
     (dataType ∉ pre →
        ∃ called, invoked w1 = invoked w ++ called ∧ dataType ∉ called) ∧
     (∀ out w',
        execute_sequential reg context plan options w = Resolved (out, w') →
        (∃ called, invoked w' = invoked w1 ++ called ∧ dataType ∉ called) ∧
        is_Some (ExecutionResult.dataSet out !! dataType) ∧
        (honest_registry reg →
           ExecutionResult.dataSet out !! dataType = Some value))) ∧
  (∀ context plan w pre batch post resultDataSet w1,
     plan_batches options plan = pre ++ batch :: post →
     dataType ∈ batch →
     for_each_await (executeBatch reg options) pre (parallel_start context plan w)
       = Resolved (resultDataSet, w1) →
     resultDataSet !! dataType = Some value →
     (∀ done next rest resultDataSet' w',
        batch :: post = done ++ next :: rest →
        for_each_await (executeBatch reg options) done (resultDataSet, w1)
          = Resolved (resultDataSet', w') →
        is_Some (resultDataSet' !! dataType) ∧
        ∃ called,
          invoked (call_all reg options resultDataSet' next w').2
            = invoked w1 ++ called ∧ dataType ∉ called) ∧
     (dataType ∉ concat pre →
        ∃ called, invoked w1 = invoked w ++ called ∧ dataType ∉ called) ∧
     (∀ out w',
        execute_parallel reg context plan options w = Resolved (out, w') →
        (∃ called, invoked w' = invoked w1 ++ called ∧ dataType ∉ called) ∧
        is_Some (ExecutionResult.dataSet out !! dataType) ∧
        (honest_registry reg →
           ExecutionResult.dataSet out !! dataType = Some value))).
Proof.
  split_and!.
  - intros ds w Hds.
    pose proof (executeBuilder_contains reg options dataType ds value Hds) as Hstep.
    split; [done|]. unfold sequential_step. simpl. rewrite Hstep. simpl.
    eexists. split; [done|]. by simpl.
  - intros batch ds w Hin Hds.
    destruct (call_phase reg options ds batch w) as [Hcalls Hskips].
    split_and!; [|by apply list_elem_of_filter|done|].
    + eexists. split; [done|]. rewrite list_elem_of_filter. intros [[Hnone _] _].
      congruence.
    + intros ds' w' Hrun.
      pose proof (executeBatch_only_adds reg options ds batch w ds' w') as Honly.
      pose proof Hrun as (_ & _ & Hds' & Hw')%executeBatch_Resolved.
      rewrite Hw'.
      match goal with |- context [foldl _ ?w0 (in_settling_order ?started)] =>
        destruct (settle_phase (in_settling_order started) w0) as [-> ->]
      end.
      split_and!; [done|done| |].
      * rewrite Hds'. apply batch_fold_keeps. eauto.
      * intros Hhonest. destruct (Honly Hhonest Hrun) as [Hsub _].
        by eapply lookup_weaken.
  - intros context plan w pre post ds w1 Horder Hpre Hds. split_and!.
    + intros done next rest ds' w' Hsplit Hdone. split.
      * eapply sequential_loop_keeps; [done|eauto].
      * destruct (sequential_loop_invoked _ _ _ _ _ _ _ Hdone)
          as (called & Hcalled & Hnew).
        destruct (step_call_world reg options ds' next w') as [-> _].
        rewrite Hcalled, <-(assoc_L (++)). eexists. split; [done|].
        intros [Ht|Ht]%elem_of_app.
        -- apply Hnew in Ht as [_ ?]. congruence.
        -- case_decide as Hcase; [|by apply elem_of_nil in Ht].
           apply list_elem_of_singleton in Ht as <-. destruct Hcase as [Hnone _].
           assert (is_Some (ds' !! dataType)) as [? ?]; [|congruence].
           eapply sequential_loop_keeps; [done|eauto].
    + intros Hfresh.
      destruct (sequential_loop_invoked _ _ _ _ _ _ _ Hpre)
        as (called & Hcalled & Hnew).
      exists called. split; [done|]. by intros [? _]%Hnew.
    + intros out w' Hrun. unfold execute_sequential in Hrun.
      rewrite Horder, for_each_await_app, Hpre in Hrun.
      apply finish_Resolved in Hrun.
      destruct (sequential_loop_invoked _ _ _ _ _ _ _ Hrun)
        as (called & Hcalled & Hnew).
      split_and!.
      * exists called. split; [done|]. intros [_ ?]%Hnew. congruence.
      * eapply sequential_loop_keeps; [done|eauto].
      * intros Hhonest.
        apply sequential_loop_only_adds in Hrun as [Hsub _]; [|done].
        by eapply lookup_weaken.
  - intros context plan w pre batch post ds w1 Hbatches Hin Hpre Hds. split_and!.
    + intros done next rest ds' w' Hsplit Hdone. split.
      * eapply parallel_loop_keeps; [done|eauto].
      * destruct (parallel_loop_invoked _ _ _ _ _ _ _ Hdone)
          as (called & Hcalled & Hnew).
        destruct (call_phase reg options ds' next w') as [-> _].
        rewrite Hcalled, <-(assoc_L (++)). eexists. split; [done|].
        intros [Ht|Ht]%elem_of_app.
        -- apply Hnew in Ht as [_ ?]. congruence.
        -- apply list_elem_of_filter in Ht as [[Hnone _] _].
           assert (is_Some (ds' !! dataType)) as [? ?]; [|congruence].
           eapply parallel_loop_keeps; [done|eauto].
    + intros Hfresh.
      destruct (parallel_loop_invoked _ _ _ _ _ _ _ Hpre)
        as (called & Hcalled & Hnew).
      exists called. split; [done|]. by intros [? _]%Hnew.
    + intros out w' Hrun. rewrite execute_parallel_batches in Hrun.
      rewrite Hbatches, for_each_await_app, Hpre in Hrun.
      apply finish_Resolved in Hrun.
      destruct (parallel_loop_invoked _ _ _ _ _ _ _ Hrun)
        as (called & Hcalled & Hnew).
      split_and!.
      * exists called. split; [done|]. intros [_ ?]%Hnew. congruence.
      * eapply parallel_loop_keeps; [done|eauto].
      * intros Hhonest.
        apply parallel_loop_only_adds in Hrun as [Hsub _]; [|done].
        by eapply lookup_weaken.
Qed.

Lemma skip_semantics_witness :
  ∃ plan out w',
    createExecutionPlan report_registry ["profile"] = Some plan ∧
    execute_sequential report_registry seeded_context plan default_options
      fresh_world = Resolved (out, w') ∧
    invoked w' = ["profile"] ∧
    ExecutionResult.dataSet out !! "user" = Some existing_user.
Proof.
  eexists _, _, _.
  split; [vm_compute; reflexivity|].
  match goal with |- execute_sequential _ _ ?p _ _ = _ ∧ _ => set (plan := p) end.
  match goal with |- ?R ∧ _ => assert R as Hrun by (vm_compute; reflexivity) end.
  split; [exact Hrun|]. split; [reflexivity|].
  destruct (skip_semantics report_registry default_options "user" existing_user)
    as (_ & _ & Hsequential & _).
  destruct (Hsequential seeded_context plan fresh_world [] ["profile"]
              (sequential_start seeded_context fresh_world).1
              (sequential_start seeded_context fresh_world).2)
    as (_ & _ & Hresult); [reflexivity|reflexivity|reflexivity|].
  destruct (Hresult _ _ Hrun) as (_ & _ & Hvalue).
  exact (Hvalue report_registry_honest).
Defined.

(** Claim C4 as stated does not hold of every run.  The value does not pass
    through unchanged when a later builder returns a value of that type: the
    step of "user" finds the seeded value and skips, and the impostor then
    replaces that value.  And the builder has been invoked if the plan lists
    the type twice and only the second entry finds the value, the one that
    the first entry built. *)
Lemma skip_value_overwritten :
  (∃ plan out w',
     createExecutionPlan [UserBuilder; ImpostorBuilder "user"] ["user"; "impostor"]
       = Some plan ∧
     isValid plan = true ∧
     sequential_reaches [UserBuilder; ImpostorBuilder "user"] default_options
       seeded_context plan fresh_world "user"
       (sequential_start seeded_context fresh_world) ∧
     (sequential_start seeded_context fresh_world).1 !! "user" = Some existing_user ∧
     execute_sequential [UserBuilder; ImpostorBuilder "user"] seeded_context plan
       default_options fresh_world = Resolved (out, w') ∧
     invoked w' = ["impostor"] ∧
     ExecutionResult.dataSet out !! "user" ≠ Some existing_user) ∧
  (∃ resultDataSet w1 out w',
     for_each_await (sequential_step [UserBuilder] default_options) ["user"]
       (sequential_start empty_context fresh_world) = Resolved (resultDataSet, w1) ∧
     executionOrder (one_level_plan ["user"; "user"]) = ["user"] ++ "user" :: [] ∧
     is_Some (resultDataSet !! "user") ∧
     execute_sequential [UserBuilder] empty_context
       (one_level_plan ["user"; "user"]) default_options fresh_world
     = Resolved (out, w') ∧
     invoked w' = ["user"] ∧
     ExecutionStats.skipCount (ExecutionResult.stats out) = 1).
Proof.
  split.
  - eexists _, _, _.
    split; [vm_compute; reflexivity|].
    split; [reflexivity|].
    split; [exists [], ["impostor"]; split; reflexivity|].
    split; [reflexivity|].
    split; [vm_compute; reflexivity|].
    split; [reflexivity|].
    vm_compute. discriminate.
  - eexists _, _, _, _.
    split; [vm_compute; reflexivity|].
    split; [reflexivity|].
    split; [vm_compute; eauto|].
    split; [vm_compute; reflexivity|].
    split; reflexivity.
Qed.

Lemma NoDup_not_after {A} (pre post : list A) x :
  NoDup (pre ++ x :: post) → x ∉ post.
Proof.
  intros (_ & _ & Hnd)%NoDup_app. by apply NoDup_cons in Hnd as [? _].
Qed.

Lemma NoDup_concat_not_after {A} (pre post : list (list A)) batch x :
  NoDup (concat (pre ++ batch :: post)) → x ∈ batch → x ∉ concat post.
Proof.
  rewrite concat_app. simpl. intros (_ & _ & Hnd)%NoDup_app.
  apply NoDup_app in Hnd as (_ & Hdisj & _). apply Hdisj.
Qed.

(** *** Steps that cannot reject *)

Lemma for_each_await_never_rejects {A S} (f : A → S → Settled S) l s e :
  (∀ x t, x ∈ l → f x t ≠ Rejected e) → for_each_await f l s ≠ Rejected e.
Proof.
  revert s. induction l as [|x l IH]; intros s Hstep; simpl; [done|].
  destruct (f x s) as [s'|e'|] eqn:Hx; [| |done].
  - apply IH. intros y t Hy. apply Hstep. by right.
  - intros [= ->]. by apply (Hstep x s); [left|].
Qed.

Lemma finish_never_rejects plan run e :
  run ≠ Rejected e → finish plan run ≠ Rejected e.
Proof. destruct run as [[ds w]|e'|]; simpl; congruence. Qed.

Lemma executeBuilder_continues reg options t ds :
  continueOnError options = true → is_Some (registry_get reg t) →
  rejection (executeBuilder reg options t ds) = None.
Proof.
  intros Hcontinue [b Hb].
  destruct (executeBuilder_cases reg options t ds)
    as [[_ ->]|[(_ & Hnone & _)|(_ & b' & Hb' & [(? & ? & ? & _ & ->)
       |[(? & ? & _ & _ & ->)|(? & ? & ? & _ & ->)]])]];
    [done|congruence|done|done|].
  unfold build_failed. by rewrite Hcontinue.
Qed.

Lemma sequential_step_continues reg options t st e :
  continueOnError options = true → is_Some (registry_get reg t) →
  sequential_step reg options t st ≠ Rejected e.
Proof.
  intros Hcontinue Hb.
  pose proof (executeBuilder_continues reg options t st.1 Hcontinue Hb) as Hrej.
  unfold sequential_step.
  destruct (executeBuilder reg options t st.1); simplify_eq/=; done.
Qed.

Lemma executeBatch_continues reg options batch st e :
  continueOnError options = true →
  (∀ t, t ∈ batch → is_Some (registry_get reg t)) →
  executeBatch reg options batch st ≠ Rejected e.
Proof.
  intros Hcontinue Hb. unfold executeBatch.
  rewrite (proj2 (first_rejection_None _)); [by destruct (existsb _ _)|].
  intros s [Ht ->]%call_all_elem. apply executeBuilder_continues; auto.
Qed.

(** Claim C5, as the code has it.  When the build call of a type of a valid
    plan fails (the call throws, or the promise it returns rejects or is
    timed out):
    - with [continueOnError = false] the sequential run rejects with the
      [BuilderExecutionError] whose message names that builder, the data type
      and the message of what was thrown, and the parallel run rejects with
      such an error of a failing member of the same batch;
    - with [continueOnError = true] the run never rejects; it completes if
      every awaited build settles, and the type is absent from the result
      dataset of a completed run if every builder returns values of the type
      it provides. *)
Theorem builder_failure_policy (reg : BuilderRegistry) (targetData : list string)
    (plan : ExecutionPlan) (options : ExecutionOptions)
    (context : ExecutionContext) (w : World) (dataType : string)
    (builder : DataBuilder) (thrown : Thrown) :
  createExecutionPlan reg targetData = Some plan →
  isValid plan = true →
  registry_get reg dataType = Some builder →
  (∀ resultDataSet w1,
     sequential_reaches reg options context plan w dataType (resultDataSet, w1) →
     resultDataSet !! dataType = None →
     build_throws options dataType (build builder resultDataSet) thrown →
     (continueOnError options = false →
        execute_sequential reg context plan options w
          = Rejected (BuilderExecutionError (builder_name builder) dataType
                        (to_error thrown))) ∧
     (continueOnError options = true →
        (∀ e, execute_sequential reg context plan options w ≠ Rejected e) ∧
        (settling_registry reg options →
           ∃ out w',
             execute_sequential reg context plan options w = Resolved (out, w')) ∧
        (honest_registry reg →
           ∀ out w',
             execute_sequential reg context plan options w = Resolved (out, w') →
             ExecutionResult.dataSet out !! dataType = None))) ∧
  (∀ batch resultDataSet w1,
     parallel_reaches reg options context plan w batch (resultDataSet, w1) →
     dataType ∈ batch →
     resultDataSet !! dataType = None →
     build_throws options dataType (build builder resultDataSet) thrown →
     (continueOnError options = false →
        ∃ member failing thrown',
          member ∈ batch ∧ registry_get reg member = Some failing ∧
          resultDataSet !! member = None ∧
          build_throws options member (build failing resultDataSet) thrown' ∧
          execute_parallel reg context plan options w
            = Rejected (BuilderExecutionError (builder_name failing) member
                          (to_error thrown'))) ∧
     (continueOnError options = true →
        (∀ e, execute_parallel reg context plan options w ≠ Rejected e) ∧
        (settling_registry reg options →
           ∃ out w',
             execute_parallel reg context plan options w = Resolved (out, w')) ∧
        (honest_registry reg →
           ∀ out w',
             execute_parallel reg context plan options w = Resolved (out, w') →
             ExecutionResult.dataSet out !! dataType = None))) ∧
  error_name (BuilderExecutionError (builder_name builder) dataType (to_error thrown))
    = "BuilderExecutionError" ∧
  message (BuilderExecutionError (builder_name builder) dataType (to_error thrown))
    = "Builder '" +:+ builder_name builder +:+ "' failed to build data type '"
      +:+ dataType +:+ "': " +:+ message (to_error thrown).
Proof.
  intros Hplan Hv Hb. split_and!; [| |done|done].
  - intros ds w1 Hreach Hds Hthrows.
    destruct (executeBuilder_throws _ options _ _ _ _ Hds Hb Hthrows)
      as (busy & settles & Hstep).
    unfold build_failed in Hstep.
    assert (continueOnError options = false →
            sequential_step reg options dataType (ds, w1)
            = Rejected (BuilderExecutionError (builder_name builder) dataType
                          (to_error thrown))) as Hfails.
    { intros Hdefault. unfold sequential_step. simpl.
      by rewrite Hstep, Hdefault. }
    assert (continueOnError options = true →
            ∃ w2, sequential_step reg options dataType (ds, w1) = Resolved (ds, w2))
      as Hcontinues.
    { intros Hcontinue. unfold sequential_step. simpl.
      rewrite Hstep, Hcontinue. simpl. eauto. }
    apply sequential_reaches_run in Hreach as (pre & post & Horder & ->).
    assert (∀ t, t ∈ post → is_Some (registry_get reg t)) as Hpost.
    { intros t Ht. eapply valid_plan_has_builders; [done|done|].
      rewrite Horder, elem_of_app, elem_of_cons. auto. }
    split.
    + intros Hdefault. by rewrite (Hfails Hdefault).
    + intros Hcontinue. destruct (Hcontinues Hcontinue) as [w2 ->]. split_and!.
      * intros e. apply finish_never_rejects, for_each_await_never_rejects.
        intros t st Ht. apply sequential_step_continues; auto.
      * intros Hsettling.
        destruct (for_each_await_Resolved (λ _, True) (sequential_step reg options)
                    post (ds, w2)) as ([ds' w'] & Hrun & _); [|done|].
        { intros x st Hx _.
          destruct (sequential_step_resolves reg options x st) as [st' Hst'];
            [done|done|by apply Hpost|by exists st']. }
        rewrite Hrun. simpl. eauto.
      * intros Hhonest out w' Hrun. apply finish_Resolved in Hrun.
        apply sequential_loop_only_adds in Hrun as [_ Hframe]; [|done].
        rewrite Hframe; [done|].
        eapply NoDup_not_after. rewrite <-Horder.
        by eapply valid_plan_order.
  - intros batch ds w1 Hreach Hin Hds Hthrows.
    destruct (executeBuilder_throws _ options _ _ _ _ Hds Hb Hthrows)
      as (busy & settles & Hstep).
    unfold build_failed in Hstep.
    destruct (valid_plan_batches _ _ _ options Hplan Hv) as [Hnd Hbuilders].
    apply parallel_reaches_run in Hreach as (pre & post & Hbatches & ->).
    rewrite Hbatches in Hnd, Hbuilders.
    assert (∀ next, next ∈ batch :: post →
              ∀ member, member ∈ next → is_Some (registry_get reg member))
      as Hrest.
    { intros next Hnext member Hm. apply Hbuilders.
      rewrite concat_app, elem_of_app. right. apply elem_of_concat.
      apply list_elem_of_lookup in Hnext as [i Hi]. eauto. }
    split.
    + intros Hdefault. rewrite Hdefault in Hstep.
      unfold executeBatch. simpl.
      destruct (first_rejection _) as [e|] eqn:Hrej.
      * apply first_rejection_elem in Hrej as (s & [Hm Hs]%call_all_elem & He).
        rewrite Hs in He.
        destruct (executeBuilder reg options (started_type s) ds) eqn:Hmember;
          simplify_eq/=.
        -- apply executeBuilder_NoBuilder in Hmember as (_ & Hnone & _).
           destruct (Hrest batch (list_elem_of_here _ _) _ Hm) as [? ?].
           congruence.
        -- apply executeBuilder_Failed in Hmember
             as (Hds' & _ & failing & thrown' & Hf & Hp & ->).
           by exists (started_type s), failing, thrown'.
      * rewrite first_rejection_None in Hrej.
        destruct (elem_of_call_all reg options ds batch w1 dataType Hin)
          as (s & Hs & _ & Hss).
        specialize (Hrej s Hs). by rewrite Hss, Hstep in Hrej.
    + intros Hcontinue.
      change (match executeBatch reg options batch (ds, w1) with
              | Resolved st' => for_each_await (executeBatch reg options) post st'
              | Rejected e => Rejected e
              | Pending => Pending
              end)
        with (for_each_await (executeBatch reg options) (batch :: post) (ds, w1)).
      split_and!.
      * intros e. apply finish_never_rejects, for_each_await_never_rejects.
        intros next st Hnext. apply executeBatch_continues; [done|by apply Hrest].
      * intros Hsettling.
        destruct (for_each_await_Resolved (λ _, True) (executeBatch reg options)
                    (batch :: post) (ds, w1)) as ([ds' w'] & Hrun & _); [|done|].
        { intros next st Hnext _.
          destruct (executeBatch_resolves reg options next st) as [st' Hst'];
            [done|done|by apply Hrest|by exists st']. }
        rewrite Hrun. simpl. eauto.
      * intros Hhonest out w' Hrun. apply finish_Resolved in Hrun. simpl in Hrun.
        destruct (executeBatch reg options batch (ds, w1)) as [[ds2 w2]| |]
          eqn:Hbatchrun; [|done|done].
        apply executeBatch_only_adds in Hbatchrun as [_ Hframe2]; [|done].
        apply parallel_loop_only_adds in Hrun as [_ Hframe]; [|done].
        rewrite Hframe by (by eapply NoDup_concat_not_after).
        rewrite Hframe2; [done|].
        intros [_ [d Hd]]%batch_writes_elem.
        by rewrite Hstep, Hcontinue in Hd.
Qed.

Lemma builder_failure_policy_witness :
  ∃ plan,
    createExecutionPlan [UserBuilder; FailingBuilder] ["user"; "failing"]
      = Some plan ∧
    execute_sequential [UserBuilder; FailingBuilder] empty_context plan
      default_options fresh_world
      = Rejected (BuilderExecutionError "FailingBuilder" "failing"
                    (Error "Intentional failure for testing")).
Proof.
  eexists.
  split; [vm_compute; reflexivity|].
  match goal with |- execute_sequential _ _ ?p _ _ = _ => set (plan := p) end.
  destruct (builder_failure_policy [UserBuilder; FailingBuilder]
              ["user"; "failing"] plan default_options
              empty_context fresh_world "failing" FailingBuilder
              (ThrownError (Error "Intentional failure for testing")))
    as (Hsequential & _); [vm_compute; reflexivity|reflexivity|reflexivity|].
  eapply Hsequential.
  - exists ["user"], []. split; reflexivity.
  - reflexivity.
  - by exists 0.
  - reflexivity.
Defined.

(** Claim C5 as stated does not hold of every run.
    - The error of the rejected run does not carry what the builder threw:
      its [cause] is the [cause] of what was thrown, which an [Error] made
      from a message alone does not have.
    - Under [continueOnError = true] the type is in the result dataset if a
      later builder returns a value of that type.
    - Under [continueOnError = true] the run does not complete if a later
      build never settles.
    - The parallel run rejects with the error of the member of the batch
      whose rejection comes first, here another one than the builder
      considered. *)
Lemma failed_type_not_omitted :
  (∃ plan e,
     createExecutionPlan [UserBuilder; FailingBuilder] ["user"; "failing"]
       = Some plan ∧
     isValid plan = true ∧
     build FailingBuilder ∅
       = BuildReturns 0
           (RejectsWith 0 (ThrownError (Error "Intentional failure for testing"))) ∧
     execute_sequential [UserBuilder; FailingBuilder] empty_context plan
       default_options fresh_world = Rejected e ∧
     execute_parallel [UserBuilder; FailingBuilder] empty_context plan
       default_options fresh_world = Rejected e ∧
     error_name e = "BuilderExecutionError" ∧
     cause e = None ∧
     cause e ≠ Some (Error "Intentional failure for testing")) ∧
  (∃ plan out w',
     createExecutionPlan [FailingBuilder; ImpostorBuilder "failing"]
       ["failing"; "impostor"] = Some plan ∧
     isValid plan = true ∧
     sequential_reaches [FailingBuilder; ImpostorBuilder "failing"]
       continue_options empty_context plan fresh_world "failing"
       (sequential_start empty_context fresh_world) ∧
     (sequential_start empty_context fresh_world).1 !! "failing" = None ∧
     build_throws continue_options "failing"
       (build FailingBuilder (sequential_start empty_context fresh_world).1)
       (ThrownError (Error "Intentional failure for testing")) ∧
     execute_sequential [FailingBuilder; ImpostorBuilder "failing"] empty_context
       plan continue_options fresh_world = Resolved (out, w') ∧
     invoked w' = ["failing"; "impostor"] ∧
     ExecutionResult.dataSet out !! "failing" ≠ None) ∧
  (∃ plan,
     createExecutionPlan [FailingBuilder; HangingBuilder] ["failing"; "hanging"]
       = Some plan ∧
     isValid plan = true ∧
     sequential_reaches [FailingBuilder; HangingBuilder]
       continue_options empty_context plan fresh_world "failing"
       (sequential_start empty_context fresh_world) ∧
     execute_sequential [FailingBuilder; HangingBuilder] empty_context plan
       continue_options fresh_world = Pending ∧
     execute_parallel [FailingBuilder; HangingBuilder] empty_context plan
       continue_options fresh_world = Pending) ∧
  (∃ plan,
     createExecutionPlan [LateFailingBuilder; FailingBuilder] ["late"; "failing"]
       = Some plan ∧
     isValid plan = true ∧
     parallel_reaches [LateFailingBuilder; FailingBuilder] default_options
       empty_context plan fresh_world ["late"; "failing"]
       (parallel_start empty_context plan fresh_world) ∧
     build_throws default_options "late"
       (build LateFailingBuilder (parallel_start empty_context plan fresh_world).1)
       (ThrownError (Error "Failure after a while")) ∧
     execute_parallel [LateFailingBuilder; FailingBuilder] empty_context plan
       default_options fresh_world
     = Rejected (BuilderExecutionError "FailingBuilder" "failing"
                   (Error "Intentional failure for testing")) ∧
     BuilderExecutionError "FailingBuilder" "failing"
       (Error "Intentional failure for testing")
     ≠ BuilderExecutionError "LateFailingBuilder" "late"
         (Error "Failure after a while")).
Proof.
  split_and!.
  - eexists _, _.
    split; [vm_compute; reflexivity|].
    split; [reflexivity|].
    split; [reflexivity|].
    split; [vm_compute; reflexivity|].
    split; [vm_compute; reflexivity|].
    split; [reflexivity|].
    split; [reflexivity|].
    discriminate.
  - eexists _, _, _.
    split; [vm_compute; reflexivity|].
    split; [reflexivity|].
    split; [exists [], ["impostor"]; split; reflexivity|].
    split; [reflexivity|].
    split; [by exists 0|].
    split; [vm_compute; reflexivity|].
    split; [reflexivity|].
    vm_compute. discriminate.
  - eexists.
    split; [vm_compute; reflexivity|].
    split; [reflexivity|].
    split; [exists [], ["hanging"]; split; reflexivity|].
    split; vm_compute; reflexivity.
  - eexists.
    split; [vm_compute; reflexivity|].
    split; [reflexivity|].
    split; [exists [], []; split; vm_compute; reflexivity|].
    split; [by exists 5|].
    split; [vm_compute; reflexivity|].
    discriminate.
Qed.

(** ** The batches of a level *)

Lemma batches_lookup fuel size level i batch :
  0 < size → length level ≤ fuel →
  batches fuel size level !! i = Some batch →
  batch = take size (drop (i * size) level) ∧ batch ≠ [].
Proof.
  intros Hsize. revert level i.
  induction fuel as [|fuel IH]; intros level i Hfuel; [done|].
  destruct level as [|x level]; [done|].
  change (batches (S fuel) size (x :: level))
    with (take size (x :: level) :: batches fuel size (drop size (x :: level))).
  destruct i as [|i]; simpl.
  - intros; simplify_eq. split; [done|]. destruct size; [lia|done].
  - intros Hi. apply IH in Hi as [-> Hne].
    + split; [|done]. by rewrite drop_drop.
    + rewrite length_drop. simpl in *. lia.
Qed.

(** X12.  [executeLevel] cuts a level into consecutive slices: joined
    together the batches are the level; with a truthy [maxConcurrency] the
    batch of index [i] is [level.slice(i * maxConcurrency, (i + 1) *
    maxConcurrency)], so it holds at most that many members; with
    [maxConcurrency] absent or zero the whole level is one batch; and a
    level that is not empty has no empty batch. *)
Theorem level_batches_slices (options : ExecutionOptions) (level : list string) :
  concat (level_batches options level) = level ∧
  (∀ n i batch,
     options_maxConcurrency options = Some (S n) →
     level_batches options level !! i = Some batch →
     batch = take (S n) (drop (i * S n) level) ∧ length batch ≤ S n) ∧
  (options_maxConcurrency options = None ∨ options_maxConcurrency options = Some 0 →
   level_batches options level = [level]) ∧
  (level ≠ [] → ∀ batch, batch ∈ level_batches options level → batch ≠ []).
Proof.
  split_and!.
  - apply level_batches_concat.
  - intros n i batch Hmax. unfold level_batches. rewrite Hmax.
    case_decide as Hle.
    + intros [-> <-]%list_lookup_singleton_Some. simpl.
      rewrite take_ge by done. split; [done|lia].
    + intros Hi. apply batches_lookup in Hi as [-> _]; [|lia|done].
      split; [done|]. rewrite length_take. lia.
  - unfold level_batches. intros [-> | ->]; by rewrite decide_True.
  - intros Hne batch. unfold level_batches. case_decide as Hle.
    + by intros ->%list_elem_of_singleton.
    + intros [i Hi]%list_elem_of_lookup.
      apply batches_lookup in Hi as [_ ?]; [done| |done].
      destruct (options_maxConcurrency options) as [[|n]|]; lia.
Qed.

(** ** What a successful run leaves in the dataset *)

Section providing_runs.
Variable reg : BuilderRegistry.
Variable options : ExecutionOptions.
Hypothesis Hhonest : honest_registry reg.
Hypothesis Hproductive : productive_registry reg.
Hypothesis Hstrict : continueOnError options = false.

(** A step that resolves hands over no value only when it skips. *)
Lemma step_provides t ds :
  rejection (executeBuilder reg options t ds) = None →
  is_hung (executeBuilder reg options t ds) = false →
  is_Some (ds !! t) ∨
  ∃ d, step_value (executeBuilder reg options t ds) = Some d ∧ type d = t.
Proof.
  intros Hrej Hhung.
  destruct (executeBuilder reg options t ds)
    as [r|e|busy el v|busy s wn r|busy s e|busy] eqn:Hstep; simplify_eq/=.
  - apply executeBuilder_Skipped in Hstep as [? _]. by left.
  - apply executeBuilder_Built in Hstep as (_ & b & Hb & Hbuild).
    destruct (Hproductive _ _ _ _ _ _ Hb Hbuild) as [d ->]. right. exists d.
    split; [done|]. by eapply Hhonest.
  - apply executeBuilder_Continued in Hstep as (_ & ? & _). congruence.
Qed.

Lemma sequential_step_provides t ds w ds' w' :
  sequential_step reg options t (ds, w) = Resolved (ds', w') →
  is_Some (ds' !! t).
Proof.
  intros (Hrej & Hhung & -> & _)%sequential_step_Resolved.
  destruct (step_provides t ds Hrej Hhung) as [Hv|(d & -> & <-)].
  - by apply add_result_is_Some.
  - simpl. unfold add. rewrite lookup_insert_eq. eauto.
Qed.

Lemma sequential_loop_provides order ds w ds' w' :
  for_each_await (sequential_step reg options) order (ds, w) = Resolved (ds', w') →
  ∀ t, t ∈ order → is_Some (ds' !! t).
Proof.
  revert ds w. induction order as [|x order IH]; intros ds w Hrun t Ht.
  - by apply elem_of_nil in Ht.
  - simpl in Hrun.
    destruct (sequential_step reg options x (ds, w)) as [[ds1 w1]| |] eqn:Hstep;
      [|done|done].
    apply elem_of_cons in Ht as [->|Ht]; [|by eapply IH].
    apply sequential_step_provides in Hstep.
    apply sequential_loop_only_adds in Hrun as [Hsub _]; [|done].
    by eapply lookup_weaken_is_Some.
Qed.

Lemma batch_fold_provides ds batch acc t d :
  t ∈ batch →
  step_value (executeBuilder reg options t ds) = Some d → type d = t →
  is_Some (foldl (λ dataSet t,
                    add_result (step_value (executeBuilder reg options t ds)) dataSet)
             acc batch !! t).
Proof.
  intros Ht Hd Htype. revert acc.
  induction batch as [|x batch IH]; intros acc; [by apply elem_of_nil in Ht|].
  simpl. apply elem_of_cons in Ht as [<-|Ht]; [|by apply IH].
  apply batch_fold_keeps. rewrite Hd. simpl. unfold add.
  rewrite Htype, lookup_insert_eq. eauto.
Qed.

Lemma executeBatch_provides batch ds w ds' w' :
  executeBatch reg options batch (ds, w) = Resolved (ds', w') →
  ∀ t, t ∈ batch → is_Some (ds' !! t).
Proof.
  intros (Hrej & Hhung & -> & _)%executeBatch_Resolved t Ht.
  destruct (elem_of_call_all reg options ds batch w t Ht) as (s & Hs & _ & Hstep).
  destruct (step_provides t ds) as [?|(d & Hd & Htype)].
  - rewrite first_rejection_None in Hrej. rewrite <-Hstep. by apply Hrej.
  - apply not_true_is_false. intros Hh.
    assert (existsb (λ s, is_hung (started_step s))
              (call_all reg options ds batch w).1 = true) as Hex; [|congruence].
    apply existsb_exists. exists s. split; [by apply list_elem_of_In|].
    by rewrite Hstep.
  - by apply batch_fold_keeps.
  - by eapply batch_fold_provides.
Qed.

Lemma parallel_loop_provides bs ds w ds' w' :
  for_each_await (executeBatch reg options) bs (ds, w) = Resolved (ds', w') →
  ∀ t, t ∈ concat bs → is_Some (ds' !! t).
Proof.
  revert ds w. induction bs as [|batch bs IH]; intros ds w Hrun t Ht.
  - by apply elem_of_nil in Ht.
  - simpl in Hrun, Ht.
    destruct (executeBatch reg options batch (ds, w)) as [[ds1 w1]| |] eqn:Hstep;
      [|done|done].
    apply elem_of_app in Ht as [Ht|Ht]; [|by eapply IH].
    eapply executeBatch_provides in Hstep; [|done].
    apply parallel_loop_only_adds in Hrun as [Hsub _]; [|done].
    by eapply lookup_weaken_is_Some.
Qed.
End providing_runs.

(** X13.  If every builder returns a value of the type it provides and
    [continueOnError] is off, a run that resolves has every planned type in
    its result dataset, together with everything the initial dataset held;
    for a valid plan this covers every target.  Both strategies. *)
Theorem successful_run_delivers (reg : BuilderRegistry)
    (context : ExecutionContext) (plan : ExecutionPlan)
    (options : ExecutionOptions) (w : World) :
  honest_registry reg → productive_registry reg →
  continueOnError options = false →
  (∀ out w',
     execute_sequential reg context plan options w = Resolved (out, w') →
     cloneDataSet (initialData context) ⊆ ExecutionResult.dataSet out ∧
     ∀ t, t ∈ executionOrder plan → is_Some (ExecutionResult.dataSet out !! t)) ∧
  (∀ out w',
     execute_parallel reg context plan options w = Resolved (out, w') →
     cloneDataSet (initialData context) ⊆ ExecutionResult.dataSet out ∧
     ∀ t, t ∈ concat (parallelExecutionLevels plan) →
          is_Some (ExecutionResult.dataSet out !! t)) ∧
  (∀ targetData out w',
     createExecutionPlan reg targetData = Some plan → isValid plan = true →
     execute_sequential reg context plan options w = Resolved (out, w') ∨
     execute_parallel reg context plan options w = Resolved (out, w') →
     ∀ t, t ∈ targetData → is_Some (ExecutionResult.dataSet out !! t)).
Proof.
  intros Hhonest Hproductive Hstrict.
  assert (∀ out w',
     execute_sequential reg context plan options w = Resolved (out, w') →
     cloneDataSet (initialData context) ⊆ ExecutionResult.dataSet out ∧
     ∀ t, t ∈ executionOrder plan → is_Some (ExecutionResult.dataSet out !! t))
    as Hsequential.
  { intros out w' Hrun. unfold execute_sequential in Hrun.
    apply finish_Resolved in Hrun. split.
    - by apply sequential_loop_only_adds in Hrun as [? _].
    - by eapply sequential_loop_provides. }
  assert (∀ out w',
     execute_parallel reg context plan options w = Resolved (out, w') →
     cloneDataSet (initialData context) ⊆ ExecutionResult.dataSet out ∧
     ∀ t, t ∈ concat (parallelExecutionLevels plan) →
          is_Some (ExecutionResult.dataSet out !! t))
    as Hparallel.
  { intros out w' Hrun. rewrite execute_parallel_batches in Hrun.
    apply finish_Resolved in Hrun. split.
    - by apply parallel_loop_only_adds in Hrun as [? _].
    - rewrite <-(plan_batches_concat options). by eapply parallel_loop_provides. }
  split_and!; [done|done|].
  intros targetData out w' Hplan Hv Hrun t Ht.
  pose proof (valid_plan_targets _ _ _ Hplan Hv t Ht) as Hin.
  destruct Hrun as [Hrun|Hrun].
  - by apply Hsequential in Hrun as [_ ?]; auto.
  - apply Hparallel in Hrun as [_ Hall]. apply Hall.
    by apply (valid_plan_levels _ _ _ Hplan Hv).
Qed.

Lemma report_registry_productive : productive_registry report_registry.
Proof.
  intros t b ds busy elapsed d Hb Hbuild. unfold report_registry in Hb. simpl in Hb.
  repeat (case_decide; [simplify_eq; simpl in Hbuild;
                        repeat case_match; by simplify_eq|]).
  done.
Qed.

Lemma successful_run_delivers_witness :
  ∃ plan out w',
    createExecutionPlan report_registry ["report"] = Some plan ∧
    execute_parallel report_registry empty_context plan default_options
      fresh_world = Resolved (out, w') ∧
    ∀ t, t ∈ ["report"] → is_Some (ExecutionResult.dataSet out !! t).
Proof.
  eexists _, _, _.
  split; [vm_compute; reflexivity|].
  match goal with |- execute_parallel _ _ ?p _ _ = _ ∧ _ => set (plan := p) end.
  split; [vm_compute; reflexivity|].
  destruct (successful_run_delivers report_registry empty_context plan
              default_options fresh_world report_registry_honest
              report_registry_productive eq_refl) as (_ & _ & Htargets).
  eapply Htargets; [vm_compute; reflexivity|reflexivity|].
  right. vm_compute. reflexivity.
Defined.

(** ** Every builder finds what it consumes *)

Lemma concat_split {B} (lss : list (list B)) pre x post :
  concat lss = pre ++ x :: post →
  ∃ l1 l l2 b1 b2,
    lss = l1 ++ l :: l2 ∧ l = b1 ++ x :: b2 ∧
    pre = concat l1 ++ b1 ∧ post = b2 ++ concat l2.
Proof.
  revert pre. induction lss as [|l lss IH]; intros pre Heq; simpl in Heq.
  - by destruct pre.
  - apply app_eq_inv in Heq as [(k & -> & Hk)|(k & -> & Hk)].
    + destruct k as [|y k]; simpl in Hk.
      * symmetry in Hk. apply (IH []) in Hk as (l1 & l' & l2 & b1 & b2 & -> & -> & Hpre & ->).
        symmetry in Hpre. apply app_eq_nil in Hpre as [Hl1 ->].
        exists (pre :: l1), (x :: b2), l2, [], b2. simpl.
        rewrite Hl1, !app_nil_r. done.
      * simplify_eq. exists [], (pre ++ y :: k), lss, pre, k. done.
    + apply IH in Hk as (l1 & l' & l2 & b1 & b2 & -> & -> & -> & ->).
      exists (l :: l1), (b1 ++ x :: b2), l2, b1, b2. simpl.
      by rewrite (assoc_L (++)).
Qed.

(** The batches before a batch of level [i] cover the levels below [i]. *)
Lemma plan_batches_split options plan pre batch post :
  plan_batches options plan = pre ++ batch :: post →
  ∃ i level,
    parallelExecutionLevels plan !! i = Some level ∧
    (∀ t, t ∈ batch → t ∈ level) ∧
    ∀ j level' t, j < i → parallelExecutionLevels plan !! j = Some level' →
      t ∈ level' → t ∈ concat pre.
Proof.
  unfold plan_batches. intros Hsplit.
  apply concat_split in Hsplit as (l1 & l & l2 & b1 & b2 & Hlevels & Hl & -> & _).
  apply fmap_app_inv in Hlevels as (levels1 & rest & -> & Hrest & ->).
  destruct rest as [|level levels2]; [done|]. csimpl in Hrest. simplify_eq.
  exists (length levels1), level. split_and!.
  - by rewrite list_lookup_middle.
  - intros t Ht. rewrite <-(level_batches_concat options level).
    match goal with H : _ = level_batches _ _ |- _ => rewrite <-H end.
    rewrite concat_app. simpl. set_solver.
  - intros j level' t Hj Hlevel' Ht.
    rewrite lookup_app_l in Hlevel' by done.
    rewrite concat_app, elem_of_app. left.
    assert (concat (concat (level_batches options <$> levels1)) = concat levels1) as ->.
    { clear. induction levels1 as [|l ls IH]; csimpl; [done|].
      by rewrite concat_app, IH, level_batches_concat. }
    apply elem_of_concat. eauto.
Qed.

(** X14.  In a run of a valid plan, with builders that return a value of the
    type they provide and [continueOnError] off, every builder is started on
    a dataset that already holds each type the builder consumes: in the
    sequential run when its step starts, in the parallel run when its batch
    starts. *)
Theorem builders_find_their_inputs (reg : BuilderRegistry)
    (targetData : list string) (plan : ExecutionPlan)
    (context : ExecutionContext) (options : ExecutionOptions) (w : World) :
  createExecutionPlan reg targetData = Some plan → isValid plan = true →
  honest_registry reg → productive_registry reg →
  continueOnError options = false →
  (∀ dataType resultDataSet w1 builder consumedType,
     sequential_reaches reg options context plan w dataType (resultDataSet, w1) →
     registry_get reg dataType = Some builder →
     consumedType ∈ builder_consumes builder →
     is_Some (resultDataSet !! consumedType)) ∧
  (∀ batch dataType resultDataSet w1 builder consumedType,
     parallel_reaches reg options context plan w batch (resultDataSet, w1) →
     dataType ∈ batch →
     registry_get reg dataType = Some builder →
     consumedType ∈ builder_consumes builder →
     is_Some (resultDataSet !! consumedType)).
Proof.
  intros Hplan Hv Hhonest Hproductive Hstrict.
  destruct (valid_plan_order _ _ _ Hplan Hv) as [Hnd Hresp].
  destruct (valid_plan_levels _ _ _ Hplan Hv) as (Hndl & Hsame & Hord).
  destruct (valid_plan_fields _ _ _ Hplan Hv) as (Hg & _).
  rewrite Hg in Hresp, Hord. split.
  - intros t ds w1 b c (pre & post & Horder & Hpre) Hb Hc.
    eapply sequential_loop_provides; [done|done|done|done|].
    assert (executionOrder plan !! length pre = Some t) as Hi
      by (by rewrite Horder, list_lookup_middle).
    destruct (Hresp (length pre) t c Hi) as (j & Hj & Hjc).
    { eapply valid_plan_consumes_deps; [done|done| |done|done].
      rewrite Horder. set_solver. }
    rewrite Horder, lookup_app_l in Hjc by done.
    by eapply list_elem_of_lookup_2.
  - intros batch t ds w1 b c (pre & post & Hbatches & Hpre) Ht Hb Hc.
    eapply parallel_loop_provides; [done|done|done|done|].
    destruct (plan_batches_split _ _ _ _ _ Hbatches) as (i & level & Hi & Hbatch & Hbelow).
    assert (t ∈ executionOrder plan) as Hin.
    { apply Hsame, elem_of_concat. exists i, level. auto. }
    destruct (Hord i level t c Hi (Hbatch t Ht)) as (j & level' & Hj & Hlevel' & Hc').
    { by eapply valid_plan_consumes_deps. }
    by eapply Hbelow.
Qed.

Lemma builders_find_their_inputs_witness :
  ∃ plan resultDataSet w1,
    createExecutionPlan report_registry ["report"] = Some plan ∧
    sequential_reaches report_registry default_options empty_context plan
      fresh_world "report" (resultDataSet, w1) ∧
    ∀ consumedType, consumedType ∈ builder_consumes ReportBuilder →
      is_Some (resultDataSet !! consumedType).
Proof.
  eexists _, _, _.
  split; [vm_compute; reflexivity|].
  match goal with |- sequential_reaches _ _ _ ?p _ _ _ ∧ _ => set (plan := p) end.
  match goal with |- ?R ∧ _ => assert R as Hreach end.
  { exists ["user"; "profile"; "userStats"], []. split; [reflexivity|].
    vm_compute. reflexivity. }
  split; [exact Hreach|].
  destruct (builders_find_their_inputs report_registry ["report"] plan
              empty_context default_options fresh_world)
    as [Hsequential _];
    [vm_compute; reflexivity|reflexivity|apply report_registry_honest
    |apply report_registry_productive|reflexivity|].
  intros c Hc.
  exact (Hsequential "report" _ _ ReportBuilder c Hreach eq_refl Hc).
Defined.

(** ** What the statistics of a run add up to *)

Section accounting.
Variable reg : BuilderRegistry.
Variable options : ExecutionOptions.

Lemma executeBuilder_no_warning t ds :
  continueOnError options = false →
  warnings_at_call (executeBuilder reg options t ds) = [] ∧
  warnings_at_settle (executeBuilder reg options t ds) = [].
Proof.
  intros Hstrict.
  destruct (executeBuilder reg options t ds) eqn:Hstep; try done.
  apply executeBuilder_Continued in Hstep as (_ & ? & _). congruence.
Qed.

Lemma step_call_accounted t step w :
  accounted (step_call t step w) = accounted w + counted_at_call step ∧
  console (step_call t step w) = console w ++ warnings_at_call step ∧
  clock w ≤ clock (step_call t step w) ∧
  collector_settings (collector (step_call t step w))
    = collector_settings (collector w).
Proof.
  unfold accounted.
  destruct step as [| | |? []| |]; simpl; rewrite ?app_nil_r, ?length_app;
    split_and!; try done; simpl; lia.
Qed.

Lemma step_settle_accounted t start step w :
  accounted (step_settle t start step w) = accounted w + counted_at_settle step ∧
  console (step_settle t start step w) = console w ++ warnings_at_settle step ∧
  clock (step_settle t start step w) = clock w ∧
  collector_settings (collector (step_settle t start step w))
    = collector_settings (collector w).
Proof.
  unfold accounted.
  destruct step as [| | |? []| |]; simpl; rewrite ?app_nil_r, ?length_app;
    split_and!; try done; simpl; lia.
Qed.

Lemma tick_accounted ms w :
  accounted (tick ms w) = accounted w ∧
  console (tick ms w) = console w ∧
  clock w ≤ clock (tick ms w) ∧
  collector_settings (collector (tick ms w)) = collector_settings (collector w).
Proof. unfold accounted. simpl. split_and!; try done; lia. Qed.

Lemma step_counted_once step :
  rejection step = None → is_hung step = false →
  counted_at_call step + counted_at_settle step = 1.
Proof. by destruct step as [| | |? []| |]. Qed.

Lemma sequential_step_accounted t ds w ds' w' :
  sequential_step reg options t (ds, w) = Resolved (ds', w') →
  accounted w' = S (accounted w) ∧
  (∃ warnings, console w' = console w ++ warnings ∧
     (continueOnError options = false → warnings = [])) ∧
  clock w ≤ clock w' ∧
  collector_settings (collector w') = collector_settings (collector w).
Proof.
  pose proof (executeBuilder_no_warning t ds) as Hwarn.
  intros (Hrej & Hhung & _ & ->)%sequential_step_Resolved.
  set (step := executeBuilder reg options t ds) in *.
  destruct (step_settle_accounted t (clock w) step
              (tick (step_elapsed step) (step_call t step w)))
    as (-> & -> & -> & ->).
  destruct (tick_accounted (step_elapsed step) (step_call t step w))
    as (-> & -> & Hclock2 & ->).
  destruct (step_call_accounted t step w) as (-> & -> & Hclock1 & ->).
  pose proof (step_counted_once step Hrej Hhung).
  split_and!; [lia| |lia|done].
  exists (warnings_at_call step ++ warnings_at_settle step).
  rewrite (assoc_L (++)). split; [done|].
  intros Hstrict. by destruct (Hwarn Hstrict) as [-> ->].
Qed.

Lemma sequential_loop_accounted order ds w ds' w' :
  for_each_await (sequential_step reg options) order (ds, w) = Resolved (ds', w') →
  accounted w' = accounted w + length order ∧
  (∃ warnings, console w' = console w ++ warnings ∧
     (continueOnError options = false → warnings = [])) ∧
  clock w ≤ clock w' ∧
  collector_settings (collector w') = collector_settings (collector w).
Proof.
  revert ds w. induction order as [|t order IH]; intros ds w Hrun; simpl in *.
  - simplify_eq. split_and!; [lia| |done|done].
    exists []. by rewrite app_nil_r.
  - destruct (sequential_step reg options t (ds, w)) as [[ds1 w1]| |] eqn:Hstep;
      [|done|done].
    apply sequential_step_accounted in Hstep
      as (Ha1 & (ws1 & Hc1 & Hws1) & Hk1 & Hs1).
    apply IH in Hrun as (Ha2 & (ws2 & Hc2 & Hws2) & Hk2 & Hs2).
    split_and!; [lia| |lia|congruence].
    exists (ws1 ++ ws2). rewrite Hc2, Hc1, (assoc_L (++)). split; [done|].
    intros Hstrict. by rewrite Hws1, Hws2.
Qed.

Lemma call_phase_accounted ds batch w :
  let called := call_all reg options ds batch w in
  accounted called.2
    = accounted w + sum_list_with (λ s, counted_at_call (started_step s)) called.1 ∧
  (∃ warnings, console called.2 = console w ++ warnings ∧
     (continueOnError options = false → warnings = [])) ∧
  clock w ≤ clock called.2 ∧
  collector_settings (collector called.2) = collector_settings (collector w).
Proof.
  revert w. induction batch as [|t batch IH]; intros w; csimpl.
  - split_and!; [lia| |done|done]. exists []. by rewrite app_nil_r.
  - destruct (IH (step_call t (executeBuilder reg options t ds) w))
      as (-> & (ws & -> & Hws) & Hclock & ->).
    destruct (step_call_accounted t (executeBuilder reg options t ds) w)
      as (-> & -> & Hclock1 & ->).
    split_and!; [lia| |lia|done].
    exists (warnings_at_call (executeBuilder reg options t ds) ++ ws).
    rewrite (assoc_L (++)). split; [done|].
    intros Hstrict. rewrite (Hws Hstrict).
    by destruct (executeBuilder_no_warning t ds Hstrict) as [-> _].
Qed.

Lemma settle_phase_accounted started w :
  let w' := foldl (λ w s, serve s w) w started in
  accounted w'
    = accounted w + sum_list_with (λ s, counted_at_settle (started_step s)) started ∧
  console w'
    = console w ++ concat ((λ s, warnings_at_settle (started_step s)) <$> started) ∧
  clock w ≤ clock w' ∧
  collector_settings (collector w') = collector_settings (collector w).
Proof.
  revert w. induction started as [|s started IH]; intros w; csimpl.
  - rewrite app_nil_r. split_and!; [lia|done|done|done].
  - destruct (IH (serve s w)) as (-> & -> & Hclock & ->). unfold serve in *.
    destruct (step_settle_accounted (started_type s) (builderStartTime s)
                (started_step s) (tick (due s - clock w) w))
      as (-> & -> & Hclock1 & ->).
    destruct (tick_accounted (due s - clock w) w) as (-> & -> & Hclock2 & ->).
    rewrite (assoc_L (++)). split_and!; [lia|done|lia|done].
Qed.

Lemma started_counted_once (started : list Started) :
  (∀ s, s ∈ started →
     rejection (started_step s) = None ∧ is_hung (started_step s) = false) →
  sum_list_with (λ s, counted_at_call (started_step s)) started
  + sum_list_with (λ s, counted_at_settle (started_step s)) started
  = length started.
Proof.
  induction started as [|s started IH]; intros Hall; simpl; [done|].
  destruct (Hall s) as [Hrej Hhung]; [by left|].
  pose proof (step_counted_once _ Hrej Hhung).
  assert (sum_list_with (λ s, counted_at_call (started_step s)) started
          + sum_list_with (λ s, counted_at_settle (started_step s)) started
          = length started) by (apply IH; intros; apply Hall; by right).
  lia.
Qed.

Lemma executeBatch_accounted batch ds w ds' w' :
  executeBatch reg options batch (ds, w) = Resolved (ds', w') →
  accounted w' = accounted w + length batch ∧
  (∃ warnings, console w' = console w ++ warnings ∧
     (continueOnError options = false → warnings = [])) ∧
  clock w ≤ clock w' ∧
  collector_settings (collector w') = collector_settings (collector w).
Proof.
  intros (Hrej & Hhung & _ & ->)%executeBatch_Resolved.
  pose proof (call_all_steps reg options ds batch w) as [_ Htypes].
  pose proof (call_all_elem reg options ds batch w) as Helem.
  destruct (call_phase_accounted ds batch w)
    as (Hacc & (ws & Hconsole & Hws) & Hclock1 & Hsettings).
  set (called := call_all reg options ds batch w) in *.
  destruct (settle_phase_accounted (in_settling_order called.1) called.2)
    as (-> & -> & Hclock & ->).
  rewrite Hacc, Hconsole, Hsettings.
  rewrite (sum_list_with_Permutation_proper _ _ _
             (in_settling_order_Permutation called.1)).
  split_and!; [| |lia|done].
  - assert (length called.1 = length batch) as <-
      by (by rewrite <-Htypes, length_fmap).
    rewrite <-(started_counted_once called.1); [lia|].
    intros s Hs. split.
    + rewrite first_rejection_None in Hrej. by apply Hrej.
    + apply not_true_is_false. intros Hh.
      assert (existsb (λ s, is_hung (started_step s)) called.1 = true) as Hex;
        [|congruence].
      apply existsb_exists. exists s. split; [by apply list_elem_of_In|done].
  - eexists. rewrite <-(assoc_L (++)). split; [done|]. intros Hstrict.
    rewrite (Hws Hstrict). simpl.
    assert (∀ l, (∀ s, s ∈ l → s ∈ called.1) →
              concat ((λ s, warnings_at_settle (started_step s)) <$> l) = [])
      as Hnone.
    { induction l as [|s l IH]; intros Hl; csimpl; [done|].
      rewrite IH by (intros; apply Hl; by right).
      destruct (Helem s) as [_ ->]; [apply Hl; by left|].
      by destruct (executeBuilder_no_warning (started_type s) ds Hstrict)
        as [_ ->]. }
    apply Hnone. intros s. apply elem_of_in_settling_order.
Qed.

Lemma parallel_loop_accounted bs ds w ds' w' :
  for_each_await (executeBatch reg options) bs (ds, w) = Resolved (ds', w') →
  accounted w' = accounted w + length (concat bs) ∧
  (∃ warnings, console w' = console w ++ warnings ∧
     (continueOnError options = false → warnings = [])) ∧
  clock w ≤ clock w' ∧
  collector_settings (collector w') = collector_settings (collector w).
Proof.
  revert ds w. induction bs as [|batch bs IH]; intros ds w Hrun; simpl in *.
  - simplify_eq. split_and!; [lia| |done|done].
    exists []. by rewrite app_nil_r.
  - destruct (executeBatch reg options batch (ds, w)) as [[ds1 w1]| |] eqn:Hstep;
      [|done|done].
    apply executeBatch_accounted in Hstep
      as (Ha1 & (ws1 & Hc1 & Hws1) & Hk1 & Hs1).
    apply IH in Hrun as (Ha2 & (ws2 & Hc2 & Hws2) & Hk2 & Hs2).
    rewrite length_app. split_and!; [lia| |lia|congruence].
    exists (ws1 ++ ws2). rewrite Hc2, Hc1, (assoc_L (++)). split; [done|].
    intros Hstrict. by rewrite Hws1, Hws2.
Qed.
End accounting.

(** X15.  The statistics of a run that resolves account for every planned
    type exactly once: builds executed, skips and failures passed over under
    [continueOnError] (one console warning each) add up to the number of
    planned types, and with [continueOnError] off there is no warning.  The
    result repeats the execution order of the plan, the total time is the
    time that passed on the clock, and the statistics carry the mode of the
    strategy that ran. *)
Theorem run_statistics_add_up (reg : BuilderRegistry) (context : ExecutionContext)
    (plan : ExecutionPlan) (options : ExecutionOptions) (w : World)
    (out : ExecutionResult.t) (w' : World) :
  (execute_sequential reg context plan options w = Resolved (out, w') →
   ExecutionResult.executionOrder out = executionOrder plan ∧
   ExecutionStats.parallelExecution (ExecutionResult.stats out) = false ∧
   ExecutionStats.parallelLevels (ExecutionResult.stats out) = None ∧
   ExecutionStats.maxConcurrency (ExecutionResult.stats out) = None ∧
   ExecutionStats.totalExecutionTime (ExecutionResult.stats out)
     = clock w' - clock w ∧
   ∃ warnings,
     console w' = console w ++ warnings ∧
     (continueOnError options = false → warnings = []) ∧
     ExecutionStats.buildersExecuted (ExecutionResult.stats out)
     + ExecutionStats.skipCount (ExecutionResult.stats out)
     + length warnings = length (executionOrder plan)) ∧
  (execute_parallel reg context plan options w = Resolved (out, w') →
   ExecutionResult.executionOrder out = executionOrder plan ∧
   ExecutionStats.parallelExecution (ExecutionResult.stats out) = true ∧
   ExecutionStats.parallelLevels (ExecutionResult.stats out)
     = Some (length (parallelExecutionLevels plan)) ∧
   ExecutionStats.maxConcurrency (ExecutionResult.stats out)
     = Some (maxConcurrency plan) ∧
   ExecutionStats.totalExecutionTime (ExecutionResult.stats out)
     = clock w' - clock w ∧
   ∃ warnings,
     console w' = console w ++ warnings ∧
     (continueOnError options = false → warnings = []) ∧
     ExecutionStats.buildersExecuted (ExecutionResult.stats out)
     + ExecutionStats.skipCount (ExecutionResult.stats out)
     + length warnings = length (concat (parallelExecutionLevels plan))).
Proof.
  split.
  - unfold execute_sequential, finish.
    destruct (for_each_await _ _ _) as [[ds1 w1]| |] eqn:Hrun; [|done|done].
    intros ?; simplify_eq. simpl.
    apply sequential_loop_accounted in Hrun
      as (Hacc & (warnings & Hconsole & Hstrict) & Hclock & Hsettings).
    unfold accounted, collector_settings in *. simpl in *.
    rewrite Hconsole, length_app in Hacc. simplify_eq.
    split_and!; [done|done|done|done|congruence|].
    exists warnings. split_and!; [done|done|lia].
  - rewrite execute_parallel_batches. unfold finish.
    destruct (for_each_await _ _ _) as [[ds1 w1]| |] eqn:Hrun; [|done|done].
    intros ?; simplify_eq. simpl.
    apply parallel_loop_accounted in Hrun
      as (Hacc & (warnings & Hconsole & Hstrict) & Hclock & Hsettings).
    rewrite plan_batches_concat in Hacc.
    unfold accounted, collector_settings in *. simpl in *.
    rewrite Hconsole, length_app in Hacc. simplify_eq.
    split_and!; [done|done|done|done|congruence|].
    exists warnings. split_and!; [done|done|lia].
Qed.

(** ** The execution order that the engine builds itself *)

Section forced.
Variable reg : BuilderRegistry.
Variable initialData : DataSet.

Lemma availableBuilders_elem t :
  t ∈ (list_to_set (provides <$> getAllMetadata reg) : gset string) ↔
  is_Some (registry_get reg t).
Proof.
  rewrite elem_of_list_to_set, registry_get_is_Some.
  unfold getAllMetadata. by rewrite <-list_fmap_compose.
Qed.

Lemma size_availableBuilders :
  size (list_to_set (provides <$> getAllMetadata reg) : gset string) ≤ length reg.
Proof.
  etrans; [apply size_list_to_set_le|].
  unfold getAllMetadata. by rewrite !length_fmap.
Qed.

Lemma addDependencies_is_Some fuel dataType (st : gset string * list string) :
  let available : gset string := list_to_set (provides <$> getAllMetadata reg) in
  size (available ∖ st.1) < fuel →
  ∃ st', addDependencies reg initialData available fuel dataType st = Some st' ∧
    st.1 ⊆ st'.1.
Proof.
  intros available. revert dataType st.
  induction fuel as [|fuel IH]; intros dataType st Hfuel; [lia|].
  simpl. case_decide as Hvis; [by eauto|].
  case_decide as Havailable; [|eexists; split; [done|]; simpl; set_solver].
  destruct (registry_get reg dataType) as [b|];
    [|eexists; split; [done|]; simpl; set_solver].
  match goal with |- context [for_each ?f ?l ?s] =>
    destruct (for_each_is_Some (λ t, {[dataType]} ∪ st.1 ⊆ t.1) f l s)
      as (st2 & -> & Hst2)
  end; [|done|eexists; split; [done|]; simpl; set_solver].
  intros c t _ Ht. destruct (contains initialData c); [by eauto|].
  destruct (IH c t) as (t' & -> & Hsub).
  - eapply Nat.le_lt_trans; [by apply size_unmarked_mono|].
    pose proof (size_unmarked_lt available st.1 dataType Havailable Hvis). lia.
  - exists t'. split; [done|]. set_solver.
Qed.

Lemma forced_order_is_Some targets : is_Some (forced_order reg initialData targets).
Proof.
  unfold forced_order.
  match goal with |- context [for_each ?f ?l ?s] =>
    destruct (for_each_is_Some (λ _, True) f l s) as (st & -> & _)
  end; [|done|done].
  intros t st _ _.
  destruct (addDependencies_is_Some (S (length reg)) t st) as (st' & -> & _);
    [|by eauto].
  pose proof size_availableBuilders.
  match goal with |- size (?K ∖ _) < _ =>
    assert (size (K ∖ st.1) ≤ size K) by (apply subseteq_size; set_solver)
  end.
  lia.
Qed.

Variable R : string → Prop.
Hypothesis HR : ∀ a c, R a → needs reg initialData a c → R c.

Lemma addDependencies_spec fuel pending dataType st st' :
  let available : gset string := list_to_set (provides <$> getAllMetadata reg) in
  R dataType → forced_inv reg initialData R pending st →
  addDependencies reg initialData available fuel dataType st = Some st' →
  forced_inv reg initialData R pending st' ∧ dataType ∈ st'.1 ∧ st.1 ⊆ st'.1.
Proof.
  intros available. revert pending dataType st st'.
  induction fuel as [|fuel IH]; intros pending dataType st st'; [done|].
  simpl. intros Hnode (Hnd & Hres & Hvis & Hpend & Hreach & Hclosed) Hrun.
  case_decide as Hin; [by simplify_eq|].
  assert (forced_inv reg initialData R pending ({[dataType]} ∪ st.1, st.2) →
          forced_inv reg initialData R pending ({[dataType]} ∪ st.1, st.2) ∧
          dataType ∈ ({[dataType]} ∪ st.1) ∧ st.1 ⊆ {[dataType]} ∪ st.1)
    as Hmark by (intros ?; split_and!; [done|set_solver|set_solver]).
  assert (registry_get reg dataType = None →
          forced_inv reg initialData R pending ({[dataType]} ∪ st.1, st.2))
    as Hnobuilder.
  { intros Hnone. split_and!; simpl; [done| | | | |].
    - intros x Hx. apply Hres in Hx as (? & ? & ?). split_and!; [set_solver|done|done].
    - intros x [->%elem_of_singleton|Hx]%elem_of_union Hb; [|by apply Hvis].
      rewrite Hnone in Hb. by destruct Hb.
    - intros x Hx. apply elem_of_union. right. by apply Hpend.
    - intros x [->%elem_of_singleton|?]%elem_of_union; auto.
    - intros x b c Hx Hb Hc Hnot. apply elem_of_union. right. by eapply Hclosed. }
  case_decide as Havailable.
  2:{ simplify_eq. apply Hmark, Hnobuilder.
      destruct (registry_get reg dataType) eqn:Hb; [|done].
      destruct Havailable. apply availableBuilders_elem. eauto. }
  destruct (registry_get reg dataType) as [b|] eqn:Hb;
    [|simplify_eq; by apply Hmark, Hnobuilder].
  destruct (for_each _ _ _) as [st2|] eqn:Hloop; [|done]. simplify_eq.
  eapply (for_each_inv_elem
            (λ t, forced_inv reg initialData R ({[dataType]} ∪ pending) t ∧
                  {[dataType]} ∪ st.1 ⊆ t.1)
            (λ c t, contains initialData c = false → c ∈ t.1))
    in Hloop as [[Hinv Hsub] Hdeps].
  - destruct Hinv as (Hnd' & Hres' & Hvis' & Hpend' & Hreach' & Hclosed').
    simpl. split_and!; [|set_solver|set_solver].
    assert (dataType ∉ st2.2) as Hfresh by (intros (_ & _ & ?)%Hres'; set_solver).
    assert (dataType ∉ pending) as Hnotpending by (intros ?%Hpend; done).
    unfold set_add. rewrite decide_False by done.
    split_and!; simpl.
    + apply NoDup_app. split_and!; [done| |apply NoDup_singleton].
      by intros x Hx ->%list_elem_of_singleton.
    + intros x [Hx| ->%list_elem_of_singleton]%elem_of_app.
      * apply Hres' in Hx as (? & ? & ?). split_and!; [done|done|set_solver].
      * split_and!; [set_solver|by eauto|done].
    + intros x Hx Hxb. rewrite elem_of_app, list_elem_of_singleton.
      destruct (Hvis' x Hx Hxb) as [[->%elem_of_singleton|?]%elem_of_union|?]; auto.
    + set_solver.
    + done.
    + intros x b' c [Hx| ->%list_elem_of_singleton]%elem_of_app Hxb Hc Hnot.
      * by eapply Hclosed'.
      * simplify_eq. by apply Hdeps.
  - intros c t t' Hc [Hinv Hsub] Hcall.
    destruct (contains initialData c) eqn:Hcontains; [by simplify_eq|].
    apply (IH ({[dataType]} ∪ pending)) in Hcall as (? & ? & ?); [| |done].
    + split_and!; [done|set_solver|done].
    + eapply HR; [done|]. by exists b.
  - intros c d t t' Hd [Hinv Hsub] Hc Hcall Hnot.
    destruct (contains initialData d) eqn:Hcontains; [simplify_eq; auto|].
    apply (IH ({[dataType]} ∪ pending)) in Hcall as (? & ? & ?); [set_solver| |done].
    eapply HR; [done|]. by exists b.
  - split; [|done]. split_and!; simpl; [done| | | |set_solver|].
    + intros x Hx. apply Hres in Hx as (? & ? & ?). split_and!; [set_solver|done|].
      apply not_elem_of_union. split; [|done].
      intros ->%elem_of_singleton. done.
    + intros x [?|Hx]%elem_of_union Hxb; [left; set_solver|].
      destruct (Hvis x Hx Hxb); [left; set_solver|by right].
    + intros x [?|Hx]%elem_of_union; [set_solver|].
      apply elem_of_union. right. by apply Hpend.
    + intros x b' c Hx Hxb Hc Hnot. apply elem_of_union. right. by eapply Hclosed.
Qed.
End forced.

Lemma forced_order_spec reg initialData targets order :
  forced_order reg initialData targets = Some order →
  NoDup order ∧
  (∀ t, t ∈ order → is_Some (registry_get reg t)) ∧
  (∀ t, t ∈ order ↔
        is_Some (registry_get reg t) ∧
        ∃ target, target ∈ targets ∧ rtc (needs reg initialData) target t).
Proof.
  intros Hrun. unfold forced_order in Hrun.
  destruct (for_each _ _ _) as [st|] eqn:Hloop; [|done].
  simpl in Hrun. simplify_eq.
  set (R := λ x, ∃ target, target ∈ targets ∧ rtc (needs reg initialData) target x).
  assert (∀ a c, R a → needs reg initialData a c → R c) as HR.
  { intros a c (target & ? & ?) Hac. exists target. split; [done|].
    by eapply rtc_r. }
  eapply (for_each_inv_elem (forced_inv reg initialData R ∅) (λ t s, t ∈ s.1))
    in Hloop as [(Hnd & Hres & Hvis & _ & Hreach & Hclosed) Htargets].
  - split; [done|]. split; [intros t Ht; by apply Hres in Ht as (_ & ? & _)|].
    intros t. split.
    + intros Ht. apply Hres in Ht as (? & ? & _). split; [done|]. by apply Hreach.
    + intros [Hb (target & Htarget & Hpath)].
      assert (t ∈ st.1) as Hin.
      { apply Htargets in Htarget. clear Hb.
        induction Hpath as [|a b c Hab _ IH]; [done|].
        apply IH. destruct Hab as (ba & Hba & Hc & Hnot).
        apply (Hclosed a ba b); [|done|done|done].
        destruct (Hvis a Htarget); [by eauto|set_solver|done]. }
      destruct (Hvis t Hin Hb); [set_solver|done].
  - intros t s s' Ht Hinv Hstep.
    eapply (addDependencies_spec reg initialData R HR) in Hstep as (? & ? & ?);
      [done| |done].
    exists t. by split.
  - intros c t s s' Ht Hinv Hc Hstep.
    eapply (addDependencies_spec reg initialData R HR) in Hstep as (? & ? & ?);
      [set_solver| |done].
    exists t. by split.
  - split_and!; simpl; [constructor| | | | |]; set_solver.
Qed.

(** ** How a strategy can reject *)

Lemma for_each_await_Rejected {A S} (f : A → S → Settled S) l s e :
  for_each_await f l s = Rejected e → ∃ x t, x ∈ l ∧ f x t = Rejected e.
Proof.
  revert s. induction l as [|x l IH]; intros s; simpl; [done|].
  destruct (f x s) as [t| |] eqn:Hf; [|intros; simplify_eq|done].
  - intros (y & u & ? & ?)%IH. exists y, u. split; [by right|done].
  - exists x, s. split; [by left|done].
Qed.

Section rejections.
Variable reg : BuilderRegistry.
Variable options : ExecutionOptions.

Lemma rejection_cases t ds e :
  rejection (executeBuilder reg options t ds) = Some e →
  (registry_get reg t = None ∧
   e = Error ("No builder found for data type: " +:+ t)) ∨
  (continueOnError options = false ∧
   ∃ builder cause, registry_get reg t = Some builder ∧
     e = BuilderExecutionError (builder_name builder) t cause).
Proof.
  destruct (executeBuilder reg options t ds) eqn:Hstep; try done;
    simpl; intros; simplify_eq.
  - apply executeBuilder_NoBuilder in Hstep as (_ & ? & ?). by left.
  - apply executeBuilder_Failed in Hstep as (_ & ? & b & thrown & ? & _ & ?).
    right. split; [done|]. by exists b, (to_error thrown).
Qed.

Lemma sequential_step_Rejected t st e :
  sequential_step reg options t st = Rejected e →
  rejection (executeBuilder reg options t st.1) = Some e.
Proof.
  unfold sequential_step.
  destruct (executeBuilder reg options t st.1); simpl; intros; by simplify_eq.
Qed.

Lemma executeBatch_Rejected batch st e :
  executeBatch reg options batch st = Rejected e →
  ∃ t, t ∈ batch ∧ rejection (executeBuilder reg options t st.1) = Some e.
Proof.
  unfold executeBatch. simpl.
  destruct (first_rejection _) as [e'|] eqn:Hrej.
  - intros; simplify_eq.
    apply first_rejection_elem in Hrej as (s & [Ht Hs]%call_all_elem & He).
    exists (started_type s). split; [done|]. by rewrite <-Hs.
  - by destruct (existsb _ _).
Qed.

(** A strategy rejects with the error of a planned type: the plain [Error]
    of a type that has no builder, or the [BuilderExecutionError] of a
    builder that failed while [continueOnError] was off. *)
Lemma strategy_execute_Rejected strategyName context plan w e :
  strategy_execute strategyName reg context plan options w = Rejected e →
  ∃ t,
    t ∈ match strategyName with
        | SEQUENTIAL => executionOrder plan
        | PARALLEL => concat (parallelExecutionLevels plan)
        end ∧
    ((registry_get reg t = None ∧
      e = Error ("No builder found for data type: " +:+ t)) ∨
     (continueOnError options = false ∧
      ∃ builder cause, registry_get reg t = Some builder ∧
        e = BuilderExecutionError (builder_name builder) t cause)).
Proof.
  destruct strategyName; simpl.
  - unfold execute_sequential, finish.
    destruct (for_each_await _ _ _) as [[? ?]|e'|] eqn:Hrun; [done| |done].
    intros; simplify_eq.
    apply for_each_await_Rejected in Hrun as (t & st & Ht & Hstep).
    apply sequential_step_Rejected in Hstep.
    exists t. split; [done|]. by eapply rejection_cases.
  - rewrite execute_parallel_batches. unfold finish.
    destruct (for_each_await _ _ _) as [[? ?]|e'|] eqn:Hrun; [done| |done].
    intros; simplify_eq.
    apply for_each_await_Rejected in Hrun as (batch & st & Hbatch & Hstep).
    apply executeBatch_Rejected in Hstep as (t & Ht & Hstep).
    exists t. split; [|by eapply rejection_cases].
    rewrite <-(plan_batches_concat (options)). apply elem_of_concat.
    apply list_elem_of_lookup in Hbatch as [j Hj]. eauto.
Qed.
End rejections.

(** ** [executeWithOptions] *)

Section engine.
Variable reg : BuilderRegistry.
Variable dataFlow : DataFlow.
Variable context : ExecutionContext.
Variable options : DataFlowExecutionOptions.
Variable w : World.

Lemma modifiedPlan_valid plan :
  isValid plan = true →
  createExecutionPlan reg (targetData dataFlow) = Some plan →
  modifiedPlan context plan (executionOrder plan) = plan.
Proof.
  intros Hv (_ & _ & _ & Hvalid & _)%createExecutionPlan_Some.
  rewrite Hv in Hvalid. symmetry in Hvalid.
  apply bool_decide_eq_true in Hvalid as [Hc Hm].
  unfold modifiedPlan, unsatisfiedMissing. rewrite Hc, Hm.
  destruct plan; simpl in *. by subst.
Qed.

(** The plan that is executed names only types that have a builder. *)
Lemma executed_plan_has_builders plan order :
  createExecutionPlan reg (targetData dataFlow) = Some plan →
  (if negb (isValid plan)
      && bool_decide (length (cycles plan) = 0)
      && bool_decide (length (unsatisfiedMissing context plan) = 0)
   then forced_order reg (initialData context) (targetData dataFlow)
   else Some (executionOrder plan)) = Some order →
  (∀ t, t ∈ order → is_Some (registry_get reg t)) ∧
  (∀ t, t ∈ concat (parallelExecutionLevels plan) → is_Some (registry_get reg t)).
Proof.
  intros Hplan Horder.
  pose proof (createExecutionPlan_Some _ _ _ Hplan) as (_ & _ & _ & _ & Hfields).
  destruct (isValid plan) eqn:Hv; simpl in Horder.
  - simplify_eq. split.
    + by eapply valid_plan_has_builders.
    + intros t Ht. eapply valid_plan_has_builders; [done|done|].
      by apply (valid_plan_levels _ _ _ Hplan Hv).
  - destruct Hfields as (Ho & Hl & _). rewrite Hl. split; [|by intros t ?%elem_of_nil].
    destruct (_ && _).
    + by apply forced_order_spec in Horder as (_ & ? & _).
    + simplify_eq. rewrite Ho. by intros t ?%elem_of_nil.
Qed.
End engine.

(** X16.  [executeWithOptions] always settles the planning first, and every
    rejection is one of three errors: a [CircularDependencyError] carrying
    the cycle reports whenever the registry has a cycle, before anything is
    run; otherwise a [MissingBuilderError] carrying the missing types that
    the initial data do not hold, when there is one; otherwise the
    [BuilderExecutionError] of a builder that failed with [continueOnError]
    off.  The wrapping into a [DataFlowExecutionError] is never reached: the
    plan that is executed names no type without a builder. *)
Theorem executeWithOptions_rejections (reg : BuilderRegistry) (dataFlow : DataFlow)
    (context : ExecutionContext) (options : DataFlowExecutionOptions) (w : World) :
  ∃ plan run,
    createExecutionPlan reg (targetData dataFlow) = Some plan ∧
    executeWithOptions reg dataFlow context options w = Some run ∧
    (cycles plan ≠ [] → run = Rejected (CircularDependencyError (cycles plan))) ∧
    (cycles plan = [] → unsatisfiedMissing context plan ≠ [] →
     run = Rejected (MissingBuilderError (unsatisfiedMissing context plan))) ∧
    (∀ e, run = Rejected e →
       e = CircularDependencyError (cycles plan) ∨
       e = MissingBuilderError (unsatisfiedMissing context plan) ∨
       continueOnError (strategy_options options) = false ∧
       ∃ builder dataType cause,
         registry_get reg dataType = Some builder ∧
         e = BuilderExecutionError (builder_name builder) dataType cause).
Proof.
  destruct (createExecutionPlan_is_Some reg (targetData dataFlow)) as [plan Hplan].
  exists plan. unfold executeWithOptions. rewrite Hplan.
  set (chosen := if negb (isValid plan)
                    && bool_decide (length (cycles plan) = 0)
                    && bool_decide (length (unsatisfiedMissing context plan) = 0)
                 then forced_order reg (initialData context) (targetData dataFlow)
                 else Some (executionOrder plan)).
  assert (is_Some chosen) as [order Horder].
  { unfold chosen. destruct (_ && _); [apply forced_order_is_Some|by eauto]. }
  rewrite Horder. eexists. split; [done|]. split; [done|].
  destruct (executed_plan_has_builders reg dataFlow context plan order Hplan Horder)
    as [Hbuilders Hlevels].
  unfold validateExecutionPlan. simpl.
  destruct (cycles plan) as [|c cs] eqn:Hcycles; simpl.
  2:{ split_and!; [done|done|]. intros e ?; simplify_eq. by left. }
  destruct (unsatisfiedMissing context plan) as [|m ms] eqn:Hmissing; simpl.
  2:{ split_and!; [done|done|]. intros e ?; simplify_eq. right. by left. }
  split_and!; [done|done|].
  intros e Hrun. right. right.
  destruct (strategy_execute _ _ _ _ _ _) as [?|e'|] eqn:Hstrategy; [done| |done].
  apply strategy_execute_Rejected in Hstrategy as (t & Ht & Hcase).
  assert (is_Some (registry_get reg t)) as [b Hb].
  { destruct (default SEQUENTIAL (mode options)); [by apply Hbuilders|by apply Hlevels]. }
  destruct Hcase as [[Hnone _]|(Hstrict & b' & cause & Hb' & ->)]; [congruence|].
  simpl in Hrun. simplify_eq. split; [done|]. by exists b', t, cause.
Qed.

(** X17.  When the planner's plan is valid, [executeWithOptions] is the run
    of the chosen strategy on that very plan, sequential unless the options
    say otherwise; the initial data play no part in the planning. *)
Theorem executeWithOptions_valid_plan (reg : BuilderRegistry) (dataFlow : DataFlow)
    (context : ExecutionContext) (options : DataFlowExecutionOptions) (w : World)
    (plan : ExecutionPlan) :
  createExecutionPlan reg (targetData dataFlow) = Some plan →
  isValid plan = true →
  executeWithOptions reg dataFlow context options w
  = Some match mode options with
         | Some PARALLEL =>
             execute_parallel reg context plan (strategy_options options) w
         | Some SEQUENTIAL | None =>
             execute_sequential reg context plan (strategy_options options) w
         end.
Proof.
  intros Hplan Hv. unfold executeWithOptions. rewrite Hplan, Hv. simpl.
  rewrite (modifiedPlan_valid reg dataFlow context plan Hv Hplan). f_equal.
  pose proof (createExecutionPlan_Some _ _ _ Hplan) as (_ & _ & _ & Hvalid & _).
  rewrite Hv in Hvalid. symmetry in Hvalid.
  apply bool_decide_eq_true in Hvalid as [Hc Hm].
  unfold validateExecutionPlan. rewrite Hc, Hm. simpl.
  assert (∀ strategyName,
            rethrow (strategy_execute strategyName reg context plan
                       (strategy_options options) w)
            = strategy_execute strategyName reg context plan
                (strategy_options options) w) as Hpass.
  { intros strategyName.
    destruct (strategy_execute _ _ _ _ _ _) as [?|e|] eqn:Hrun; [done| |done].
    apply strategy_execute_Rejected in Hrun as (t & Ht & Hcase).
    assert (is_Some (registry_get reg t)) as [b Hb].
    { eapply valid_plan_has_builders; [done|done|].
      destruct strategyName; [done|].
      by apply (valid_plan_levels _ _ _ Hplan Hv). }
    destruct Hcase as [[Hnone _]|(_ & b' & cause & _ & ->)]; [congruence|].
    done. }
  destruct (mode options) as [[]|]; apply Hpass.
Qed.

Lemma executeWithOptions_valid_plan_witness :
  ∃ plan,
    createExecutionPlan report_registry ["report"] = Some plan ∧
    executeWithOptions report_registry
      {| flow_name := "report-flow"; targetData := ["report"] |}
      empty_context
      {| mode := Some PARALLEL; strategy_options := default_options |}
      fresh_world
    = Some (execute_parallel report_registry empty_context plan default_options
              fresh_world).
Proof.
  eexists. split; [vm_compute; reflexivity|].
  apply (executeWithOptions_valid_plan report_registry
           {| flow_name := "report-flow"; targetData := ["report"] |}
           empty_context
           {| mode := Some PARALLEL; strategy_options := default_options |}
           fresh_world);
    [vm_compute; reflexivity|reflexivity].
Defined.

(** X18.  When the planner's plan is invalid only for missing builders that
    the initial data hold, the engine builds an execution order of its own
    and keeps the (empty) parallel levels of the planner's plan.  The
    sequential mode runs that order.  The parallel mode runs no builder at
    all: it resolves at once with a copy of the initial data, reporting the
    order that it did not run. *)
Theorem forced_order_modes (reg : BuilderRegistry) (dataFlow : DataFlow)
    (context : ExecutionContext) (options : DataFlowExecutionOptions) (w : World)
    (plan : ExecutionPlan) :
  createExecutionPlan reg (targetData dataFlow) = Some plan →
  isValid plan = false → cycles plan = [] →
  unsatisfiedMissing context plan = [] →
  ∃ order,
    forced_order reg (initialData context) (targetData dataFlow) = Some order ∧
    (mode options = Some PARALLEL →
     ∃ out w',
       executeWithOptions reg dataFlow context options w = Some (Resolved (out, w')) ∧
       ExecutionResult.dataSet out = cloneDataSet (initialData context) ∧
       ExecutionResult.executionOrder out = order ∧
       ExecutionStats.buildersExecuted (ExecutionResult.stats out) = 0 ∧
       ExecutionStats.skipCount (ExecutionResult.stats out) = 0 ∧
       ExecutionStats.parallelLevels (ExecutionResult.stats out) = Some 0 ∧
       invoked w' = invoked w ∧ console w' = console w ∧ clock w' = clock w) ∧
    (mode options ≠ Some PARALLEL →
     executeWithOptions reg dataFlow context options w
     = Some (execute_sequential reg context (modifiedPlan context plan order)
               (strategy_options options) w)).
Proof.
  intros Hplan Hv Hcycles Hmissing.
  destruct (forced_order_is_Some reg (initialData context) (targetData dataFlow))
    as [order Horder].
  exists order. split; [done|].
  pose proof (createExecutionPlan_Some _ _ _ Hplan) as (_ & _ & _ & _ & Hfields).
  rewrite Hv in Hfields. destruct Hfields as (_ & Hlevels & _ & Hmax).
  assert (executeWithOptions reg dataFlow context options w
          = Some (rethrow (strategy_execute (default SEQUENTIAL (mode options)) reg
                             context (modifiedPlan context plan order)
                             (strategy_options options) w))) as Hrun.
  { unfold executeWithOptions. rewrite Hplan, Hv, Hcycles, Hmissing. simpl.
    rewrite Horder. unfold validateExecutionPlan. simpl.
    by rewrite Hcycles, Hmissing. }
  split.
  - intros Hmode. rewrite Hrun, Hmode. simpl.
    unfold execute_parallel. simpl. rewrite Hlevels. simpl.
    eexists _, _. split; [done|]. simpl. by rewrite Hlevels.
  - intros Hmode. rewrite Hrun.
    assert (default SEQUENTIAL (mode options) = SEQUENTIAL) as ->
      by (by destruct (mode options) as [[]|]).
    simpl.
    destruct (execute_sequential _ _ _ _ _) as [?|e|] eqn:Hseq; [done| |done].
    apply (strategy_execute_Rejected reg _ SEQUENTIAL) in Hseq as (t & Ht & Hcase).
    simpl in Ht. apply forced_order_spec in Horder as (_ & Hbuilders & _).
    destruct (Hbuilders t Ht) as [b Hb].
    destruct Hcase as [[Hnone _]|(_ & b' & cause & _ & ->)]; [congruence|done].
Qed.

Lemma forced_order_modes_witness :
  ∃ plan out w',
    createExecutionPlan [ProfileBuilder] ["profile"] = Some plan ∧
    missingBuilders plan = ["user"] ∧
    forced_order [ProfileBuilder] (initialData seeded_context) ["profile"]
      = Some ["profile"] ∧
    executeWithOptions [ProfileBuilder]
      {| flow_name := "profile-flow"; targetData := ["profile"] |}
      seeded_context
      {| mode := Some PARALLEL; strategy_options := default_options |}
      fresh_world = Some (Resolved (out, w')) ∧
    ExecutionResult.dataSet out = cloneDataSet (initialData seeded_context) ∧
    ExecutionResult.executionOrder out = ["profile"] ∧
    invoked w' = [].
Proof.
  eexists _.
  match goal with |- ∃ out w', ?P ∧ _ => assert P as Hplan by (vm_compute; reflexivity) end.
  match type of Hplan with _ = Some ?p => set (plan := p) in * end.
  destruct (forced_order_modes [ProfileBuilder]
              {| flow_name := "profile-flow"; targetData := ["profile"] |}
              seeded_context
              {| mode := Some PARALLEL; strategy_options := default_options |}
              fresh_world plan Hplan)
    as (order & Horder & Hparallel & _); [reflexivity|reflexivity|reflexivity|].
  assert (order = ["profile"]) as -> by (vm_compute in Horder; congruence).
  destruct (Hparallel eq_refl) as (out & w' & Hrun & Hds & Ho & _ & _ & _ & Hinv & _).
  exists out, w'. split_and!; [exact Hplan|reflexivity|exact Horder|exact Hrun
                              |exact Hds|exact Ho|exact Hinv].
Defined.

(** X19.  The execution order that the engine builds itself holds, without
    duplicates, exactly the types with a builder that a target reaches by
    following what builders consume and the initial data do not hold. *)
Theorem forced_order_reachable (reg : BuilderRegistry) (initialData : DataSet)
    (targetData : list string) :
  ∃ order,
    forced_order reg initialData targetData = Some order ∧
    NoDup order ∧
    ∀ t, t ∈ order ↔
         is_Some (registry_get reg t) ∧
         ∃ target, target ∈ targetData ∧ rtc (needs reg initialData) target t.
Proof.
  destruct (forced_order_is_Some reg initialData targetData) as [order Horder].
  exists order. split; [done|].
  by apply forced_order_spec in Horder as (? & _ & ?).
Qed.
